(** * Screen recorder core: capture/encode pipeline, audio queue, muxing

    A shallow embedding of the recording engine of [src/core/video.py] and
    [src/core/audio.py], followed by the properties proved about it.

    Definitions:
    - [Py]        Python-style outcomes (a call returns or raises);
    - [Pipeline]  the shared recorder fields, the bounded frame queue, the
                  capture thread ([_dedicated_capture_thread]) and the write
                  thread ([_dedicated_write_thread]); the class body defines
                  both methods twice and Python keeps the later
                  definitions, which are the ones embedded here;
    - [Audio]     [AudioRecorder._audio_callback];
    - [Status]    [_emit_status];
    - [Cameras]   [probe_cameras];
    - [Mux]       [_mux_audio_video] and the audio part of
                  [_finalize_recording] over a file system;
    - [Controller], [Scenarios], [MuxSpec], [PipelineSpec]: notions and
                  concrete sessions used in the statements;
    - [Helpers], [Codec], [Target], [Webcam], [AudioPipeline], [Segments],
      [AudioDevices]: the helpers of [src/utils/helpers.py], codec and
                  quality selection, capture target, webcam set-up, the
                  audio writer loop, [_merge_segments] and
                  [get_audio_devices].

    Properties: [StatusFacts], [CameraFacts], [AudioFacts], [MuxFacts],
    [ControllerFacts], [PipelineFacts], and one module of facts for each
    of the further definition modules.

    Pixel buffers, overlay compositing and codecs are not modelled: a frame
    is its metadata, and an overlay or a write is what it does to the
    control flow (it returns or raises).  Clock readings and target
    instants are rationals where the source has binary64 floats, so sums
    and comparisons of instants are exact here and rounded there.  The two
    threads are interleaved at the granularity of one loop iteration. *)

From Stdlib Require Import ZArith QArith Qminmax Lia Sorted.
From stdpp Require Import base list gmap strings.
From coqutil Require Import Z.bitblast.

Local Open Scope Z_scope.

(** ** Python outcomes *)

Module Py.

(** A call either returns a value or raises an exception of type [E]. *)
Inductive result (E A : Type) : Type :=
| Return (a : A)
| Raise (e : E).
Arguments Return {E A} a.
Arguments Raise {E A} e.

Definition returned {E A} (r : result E A) : bool :=
  match r with Return _ => true | Raise _ => false end.

End Py.
Import Py.

(** ** The frame pipeline *)

Module Pipeline.

(** The dict built by the capture thread; the ['frame'] pixel buffer is
    left out. *)
Record frame_data : Type := {
  frame_number : Z;
  timestamp : Q;
  is_key_frame : bool
}.

(** What travels through [_frame_queue]: a frame dict, or the [None]
    sentinel enqueued by [_finalize_recording]. *)
Definition item : Type := option frame_data.

(** Exceptions that occur inside the two thread bodies. *)
Inductive exn : Type :=
| QueueFull        (* queue.Full *)
| QueueEmpty       (* queue.Empty *)
| AttributeError   (* None.get('is_key_frame', False) *)
| GrabFailed.      (* thread_sct.grab raised *)

(** Status lines emitted by the two threads. *)
Inductive status : Type :=
| StProductionMode (dropped : Z)   (* "Production mode: N frames optimized" *)
| StCaptureError                   (* "Capture error: ..." *)
| StAdaptiveMode                   (* "Adaptive mode: Optimizing processing pipeline" *)
| StFullQuality                    (* "Full quality mode restored" *)
| StWriteError                     (* "Write thread error: ..." *)
| StEmergency.                     (* "Activating emergency mode - reducing quality" *)

(** Observable actions of a thread, in program order. *)
Inductive effect : Type :=
| QEmptyCall                 (* _frame_queue.empty() *)
| QSizeCall                  (* _frame_queue.qsize() *)
| QPutNowait                 (* _frame_queue.put_nowait(x) *)
| QGetNowait                 (* _frame_queue.get_nowait() *)
| QGetTimeout (t : Q)        (* _frame_queue.get(timeout=t) *)
| Grab                       (* thread_sct.grab(monitor) *)
| Sleep (d : Q)              (* time.sleep(d) *)
| SinkWrite (f : frame_data) (* _writer.write(frame) *)
| EmitStatus (s : status).   (* _emit_status(...) *)

(** The fields of [ScreenRecorder] shared by the threads. *)
Record recorder : Type := {
  buffer_size : Z;            (* cfg.buffer_size *)
  frame_interval : Q;         (* 1.0 / float(cfg.fps) *)
  frame_queue : list item;    (* queue.Queue(maxsize=buffer_size * 2) *)
  frame_count : Z;
  dropped_frames : Z;
  emergency_mode : bool;
  writer_open : bool;         (* self._writer is not None *)
  stop_event : bool
}.

Definition set_queue (q : list item) (r : recorder) : recorder :=
  {| buffer_size := buffer_size r; frame_interval := frame_interval r;
     frame_queue := q; frame_count := frame_count r;
     dropped_frames := dropped_frames r; emergency_mode := emergency_mode r;
     writer_open := writer_open r; stop_event := stop_event r |}.

Definition set_frame_count (n : Z) (r : recorder) : recorder :=
  {| buffer_size := buffer_size r; frame_interval := frame_interval r;
     frame_queue := frame_queue r; frame_count := n;
     dropped_frames := dropped_frames r; emergency_mode := emergency_mode r;
     writer_open := writer_open r; stop_event := stop_event r |}.

Definition set_dropped_frames (n : Z) (r : recorder) : recorder :=
  {| buffer_size := buffer_size r; frame_interval := frame_interval r;
     frame_queue := frame_queue r; frame_count := frame_count r;
     dropped_frames := n; emergency_mode := emergency_mode r;
     writer_open := writer_open r; stop_event := stop_event r |}.

Definition set_emergency_mode (b : bool) (r : recorder) : recorder :=
  {| buffer_size := buffer_size r; frame_interval := frame_interval r;
     frame_queue := frame_queue r; frame_count := frame_count r;
     dropped_frames := dropped_frames r; emergency_mode := b;
     writer_open := writer_open r; stop_event := stop_event r |}.

Definition set_stop_event (b : bool) (r : recorder) : recorder :=
  {| buffer_size := buffer_size r; frame_interval := frame_interval r;
     frame_queue := frame_queue r; frame_count := frame_count r;
     dropped_frames := dropped_frames r; emergency_mode := emergency_mode r;
     writer_open := writer_open r; stop_event := b |}.

(** *** Bounded queue ([queue.Queue]) *)

Definition maxsize (r : recorder) : Z := buffer_size r * 2.

Definition qsize (r : recorder) : Z := Z.of_nat (length (frame_queue r)).

(** [Queue.full]: a queue with [maxsize <= 0] is unbounded. *)
Definition full (r : recorder) : bool :=
  (0 <? maxsize r) && (maxsize r <=? qsize r).

(** *** The monad of a thread body: state, exception, trace *)

Definition M (A : Type) : Type :=
  recorder -> result exn A * recorder * list effect.

#[global] Instance M_ret : MRet M := fun A a r => (Return a, r, []).

#[global] Instance M_bind : MBind M := fun A B k m r =>
  match m r with
  | (Return a, r1, t1) =>
      match k a r1 with (b, r2, t2) => (b, r2, t1 ++ t2) end
  | (Raise e, r1, t1) => (Raise e, r1, t1)
  end.

Definition raise {A} (e : exn) : M A := fun r => (Raise e, r, []).

(** [try: m  except <matching>: h]; other exceptions propagate.  State
    changes made before the exception stay. *)
Definition try_except {A} (m : M A) (catches : exn -> bool) (h : M A) : M A :=
  fun r =>
    match m r with
    | (Return a, r1, t1) => (Return a, r1, t1)
    | (Raise e, r1, t1) =>
        if catches e
        then match h r1 with (b, r2, t2) => (b, r2, t1 ++ t2) end
        else (Raise e, r1, t1)
    end.

Definition get_field {A} (f : recorder -> A) : M A := fun r => (Return (f r), r, []).
Definition modify (f : recorder -> recorder) : M unit := fun r => (Return tt, f r, []).
Definition emit (e : effect) : M unit := fun r => (Return tt, r, [e]).

Definition q_empty : M bool := fun r =>
  (Return (bool_decide (frame_queue r = [])), r, [QEmptyCall]).

Definition q_qsize : M Z := fun r => (Return (qsize r), r, [QSizeCall]).

Definition q_put_nowait (x : item) : M unit := fun r =>
  if full r then (Raise QueueFull, r, [QPutNowait])
  else (Return tt, set_queue (frame_queue r ++ [x]) r, [QPutNowait]).

Definition q_get_nowait : M item := fun r =>
  match frame_queue r with
  | [] => (Raise QueueEmpty, r, [QGetNowait])
  | x :: q => (Return x, set_queue q r, [QGetNowait])
  end.

(** [get(timeout=t)] inside one atomic step: an empty queue stays empty for
    the whole wait and the call raises [queue.Empty]. *)
Definition q_get_timeout (t : Q) : M item := fun r =>
  match frame_queue r with
  | [] => (Raise QueueEmpty, r, [QGetTimeout t])
  | x :: q => (Return x, set_queue q r, [QGetTimeout t])
  end.

Definition emit_status (s : status) : M unit := emit (EmitStatus s).

Definition catch_all (e : exn) : bool := true.
Definition catch_full (e : exn) : bool :=
  match e with QueueFull => true | _ => false end.
Definition catch_empty (e : exn) : bool :=
  match e with QueueEmpty => true | _ => false end.

(** *** Capture thread *)

(** [old_frame.get('is_key_frame', False)]; on the [None] sentinel the
    attribute lookup raises. *)
Definition key_flag (old_frame : item) : M bool :=
  match old_frame with
  | Some f => mret (is_key_frame f)
  | None => raise AttributeError
  end.

(** [while not queue.empty() and len(temp_frames) < 5: ...]; [room] is
    [5 - len(temp_frames)].  Returns [(dropped_old, temp_frames)]. *)
Fixpoint scan_for_non_key (room : nat) (temp_frames : list item)
  : M (bool * list item) :=
  e ← q_empty;
  if (e : bool) then mret (false, temp_frames)
  else match room with
       | O => mret (false, temp_frames)
       | S room' =>
           old_frame ← q_get_nowait;
           k ← key_flag old_frame;
           if (k : bool)
           then scan_for_non_key room' (temp_frames ++ [old_frame])
           else mret (true, temp_frames)
       end.

(** [for temp_frame in temp_frames: queue.put_nowait(temp_frame)] *)
Fixpoint put_back (temp_frames : list item) : M unit :=
  match temp_frames with
  | [] => mret tt
  | x :: rest => _ ← q_put_nowait x; put_back rest
  end.

Definition incr_dropped : M unit :=
  modify (fun r => set_dropped_frames (dropped_frames r + 1) r).

(** The [except queue.Full:] handler up to and including its inner
    [try ... except:]. *)
Definition smart_drop (new_frame : frame_data) : M unit :=
  try_except
    ('(dropped_old, temp_frames) ← scan_for_non_key 5 [];
     _ ← put_back temp_frames;
     _ ← q_put_nowait (Some new_frame);
     if (dropped_old : bool) then incr_dropped else incr_dropped)
    catch_all
    incr_dropped.

(** Locals of the capture loop (floats in the source, rationals here). *)
Record capture_locals : Type := {
  next_frame_time : Q;
  last_emergency_log : Q
}.

Definition tolerance : Q := 5 # 10000.   (* 0.0005 *)

(** The "Emergency mode detection" statement after the inner try. *)
Definition emergency_log (current_time : Q) (loc : capture_locals)
  : M capture_locals :=
  d ← get_field dropped_frames;
  if (d mod 10 =? 0) && negb (Qle_bool (current_time - last_emergency_log loc) 5)
  then _ ← emit_status (StProductionMode d);
       mret {| next_frame_time := next_frame_time loc;
               last_emergency_log := current_time |}
  else mret loc.

(** The body of the [try] that grabs and queues one frame. *)
Definition capture_frame (current_time : Q) (grab_ok : bool)
    (loc : capture_locals) : M capture_locals :=
  _ ← emit Grab;
  _ ← (if grab_ok then mret tt else raise GrabFailed);
  n ← get_field frame_count;
  let frame_data :=
    {| frame_number := n; timestamp := current_time;
       is_key_frame := n mod 30 =? 0 |} in
  loc' ← try_except
           (_ ← q_put_nowait (Some frame_data);
            _ ← modify (set_frame_count (n + 1));
            mret loc)
           catch_full
           (_ ← smart_drop frame_data;
            emergency_log current_time loc);
  iv ← get_field frame_interval;
  mret {| next_frame_time := (next_frame_time loc' + iv)%Q;
          last_emergency_log := last_emergency_log loc' |}.

(** [_dedicated_capture_thread]: one pass through the body of
    [while not self._stop_event.is_set()].
    [current_time] is the clock reading and [grab_ok] tells whether the
    screen grab succeeds.  The result is the new locals, or [None] when the
    loop is left through [break]. *)
Definition dedicated_capture_iteration (current_time : Q) (grab_ok : bool)
    (loc : capture_locals) : M (option capture_locals) :=
  if Qle_bool (next_frame_time loc - tolerance) current_time
  then try_except
         (loc' ← capture_frame current_time grab_ok loc; mret (Some loc'))
         catch_all
         (_ ← emit_status StCaptureError; mret None)
  else
    let sleep_time := (next_frame_time loc - current_time)%Q in
    if negb (Qle_bool sleep_time 0)
    then _ ← emit (Sleep (Qmin sleep_time tolerance)); mret (Some loc)
    else mret (Some loc).

(** *** Adaptive controller (inside the write thread) *)

(** [queue_size > self.cfg.buffer_size * 0.75], cleared of the fraction. *)
Definition above_high_water (bs queue_size : Z) : bool :=
  3 * bs <? 4 * queue_size.

(** The "Adaptive quality control" statement: from [frames_behind] and
    [_emergency_mode] to their new values and the status line emitted,
    if any. *)
Definition adapt (bs queue_size : Z) (c : Z * bool) : Z * bool * option status :=
  let '(frames_behind, emergency) := c in
  if above_high_water bs queue_size then
    let frames_behind := frames_behind + 1 in
    if (3 <? frames_behind) && negb emergency
    then (frames_behind, true, Some StAdaptiveMode)
    else (frames_behind, emergency, None)
  else
    let frames_behind := Z.max 0 (frames_behind - 1) in
    if (frames_behind =? 0) && emergency
    then (frames_behind, false, Some StFullQuality)
    else (frames_behind, emergency, None).

(** *** Write thread *)

Record writer_locals : Type := {
  frames_behind : Z;
  batch_write_buffer : list frame_data
}.

Definition max_batch_size : Z := 5.

(** [for batch_item in batch_write_buffer: if self._writer: ... write],
    when no call of [_writer.write] raises ([write_batch_raising] below is
    the loop when one does). *)
Fixpoint write_batch (batch : list frame_data) : M unit :=
  match batch with
  | [] => mret tt
  | f :: rest =>
      w ← get_field writer_open;
      _ ← (if (w : bool) then emit (SinkWrite f) else mret tt);
      write_batch rest
  end.

(** The statements of the [try] after a frame was received, when neither
    the overlay compositing nor a write raises ([process_frame_raising]
    below covers those). *)
Definition process_frame (f : frame_data) (loc : writer_locals)
  : M writer_locals :=
  queue_size ← q_qsize;
  bs ← get_field buffer_size;
  em ← get_field emergency_mode;
  let '(fb, em', st) := adapt bs queue_size (frames_behind loc, em) in
  _ ← modify (set_emergency_mode em');
  _ ← match st with Some s => emit_status s | None => mret tt end;
  let batch := batch_write_buffer loc ++ [f] in
  if (max_batch_size <=? Z.of_nat (length batch)) || em'
  then _ ← write_batch batch;
       mret {| frames_behind := fb; batch_write_buffer := [] |}
  else mret {| frames_behind := fb; batch_write_buffer := batch |}.

(** [_dedicated_write_thread]: one pass through the body of the write
    loop; [None] is [break]. *)
Definition dedicated_write_iteration (loc : writer_locals) : M (option writer_locals) :=
  try_except
    (try_except
       (frame_data ← q_get_timeout (1 # 2);
        match frame_data with
        | None => mret None
        | Some f => loc' ← process_frame f loc; mret (Some loc')
        end)
       catch_empty
       (_ ← write_batch (batch_write_buffer loc);
        mret (Some {| frames_behind := frames_behind loc;
                      batch_write_buffer := [] |})))
    catch_all
    (_ ← emit_status StWriteError; mret None).

(** The "Final flush" after the loop. *)
Definition final_flush (loc : writer_locals) : M unit :=
  write_batch (batch_write_buffer loc).

(** *** Write thread: a pass in which a call raises *)

(** Which calls of one pass of the write thread raise: the overlay
    compositing ([_process_frame_overlays], called when overlays are
    configured and the mode is not Degraded), and the [n]-th call of
    [_writer.write] of the pass, counted from 0 and on through the final
    flush when the pass leaves the loop. *)
Record write_fault : Type := {
  overlay_raises : bool;
  write_raises : nat -> bool
}.

Definition no_fault : write_fault :=
  {| overlay_raises := false; write_raises := fun _ => false |}.

(** The loop over a batch after [n] calls of [_writer.write] in this pass:
    the number of calls made, and whether the loop ran to its end
    ([false]: a call raised and the rest of the batch was not written). *)
Fixpoint write_batch_raising (ft : write_fault) (n : nat)
    (batch : list frame_data) : M (nat * bool) :=
  match batch with
  | [] => mret (n, true)
  | f :: rest =>
      w ← get_field writer_open;
      if (w : bool)
      then if write_raises ft n then mret (S n, false)
           else _ ← emit (SinkWrite f); write_batch_raising ft (S n) rest
      else write_batch_raising ft n rest
  end.

(** How a pass through the body of the write loop ends.  The locals are
    those at that point: [batch_write_buffer] is a list mutated in place,
    so an exception leaves it as it was when the call raised. *)
Inductive pass_end : Type :=
| Continue (loc : writer_locals)          (* on to the loop test *)
| Break (n : nat) (loc : writer_locals)   (* break, after [n] write calls:
                                             the final flush follows *)
| Escaped.                                (* an exception left the loop *)

(** The statements of the [try] after a frame was received, with the
    [except Exception as ex: ...; break] of the loop. *)
Definition process_frame_raising (ft : write_fault) (f : frame_data)
    (loc : writer_locals) : M pass_end :=
  queue_size ← q_qsize;
  bs ← get_field buffer_size;
  em ← get_field emergency_mode;
  let '(fb, em', st) := adapt bs queue_size (frames_behind loc, em) in
  _ ← modify (set_emergency_mode em');
  _ ← match st with Some s => emit_status s | None => mret tt end;
  if negb em' && overlay_raises ft
  then (* raised before the append *)
    _ ← emit_status StWriteError;
    mret (Break 0 {| frames_behind := fb;
                     batch_write_buffer := batch_write_buffer loc |})
  else
    let batch := batch_write_buffer loc ++ [f] in
    if (max_batch_size <=? Z.of_nat (length batch)) || em'
    then '(n, completed) ← write_batch_raising ft 0 batch;
         if (completed : bool)
         then mret (Continue {| frames_behind := fb; batch_write_buffer := [] |})
         else (* raised before [batch_write_buffer.clear()] *)
           _ ← emit_status StWriteError;
           mret (Break n {| frames_behind := fb; batch_write_buffer := batch |})
    else mret (Continue {| frames_behind := fb; batch_write_buffer := batch |}).

(** One pass through the body of the write loop.  An exception raised by
    the flush inside [except queue.Empty:] is not handled by the sibling
    [except Exception] and leaves the loop. *)
Definition write_pass_raising (ft : write_fault) (loc : writer_locals)
  : M pass_end :=
  try_except
    (frame_data ← q_get_timeout (1 # 2);
     match frame_data with
     | None => mret (Break 0 loc)
     | Some f => process_frame_raising ft f loc
     end)
    catch_empty
    ('(n, completed) ← write_batch_raising ft 0 (batch_write_buffer loc);
     if (completed : bool)
     then mret (Continue {| frames_behind := frames_behind loc;
                            batch_write_buffer := [] |})
     else mret Escaped).

(** *** A session: the two threads interleaved at iteration boundaries *)

Inductive thread (L : Type) : Type :=
| Running (loc : L)
| Exited.
Arguments Running {L} loc.
Arguments Exited {L}.

Record session : Type := {
  shared : recorder;
  capture_thread : thread capture_locals;
  write_thread : thread writer_locals;
  trace : list effect
}.

Inductive event : Type :=
| CaptureTick (current_time : Q) (grab_ok : bool)
| WriterTick       (* a turn of the write thread in which no call raises *)
| MonitorTick      (* the statistics block of _recording_loop *)
| SetStop          (* self._stop_event.set() *)
| PutSentinel      (* _finalize_recording: self._frame_queue.put_nowait(None) *)
| WriterFault (ft : write_fault).
                   (* a turn of the write thread in which calls raise *)

Definition start (bs : Z) (interval : Q) : session :=
  {| shared := {| buffer_size := bs; frame_interval := interval;
                  frame_queue := []; frame_count := 0; dropped_frames := 0;
                  emergency_mode := false; writer_open := true;
                  stop_event := false |};
     capture_thread := Running {| next_frame_time := interval;
                                  last_emergency_log := 0 |};
     write_thread := Running {| frames_behind := 0; batch_write_buffer := [] |};
     trace := [] |}.

Definition capture_tick (current_time : Q) (grab_ok : bool) (s : session)
  : session :=
  match capture_thread s with
  | Exited => s
  | Running loc =>
      if stop_event (shared s)
      then {| shared := shared s; capture_thread := Exited;
              write_thread := write_thread s; trace := trace s |}
      else
        match dedicated_capture_iteration current_time grab_ok loc (shared s) with
        | (Return (Some loc'), r, t) =>
            {| shared := r; capture_thread := Running loc';
               write_thread := write_thread s; trace := trace s ++ t |}
        | (_, r, t) =>
            {| shared := r; capture_thread := Exited;
               write_thread := write_thread s; trace := trace s ++ t |}
        end
  end.

Definition writer_exit (loc : writer_locals) (r : recorder) (t : list effect)
    (s : session) : session :=
  match final_flush loc r with
  | (_, r', t') =>
      {| shared := r'; capture_thread := capture_thread s;
         write_thread := Exited; trace := t ++ t' |}
  end.

(** One evaluation of [while not stop.is_set() or not queue.empty():] and,
    when it holds, one pass through the loop body. *)
Definition writer_tick (s : session) : session :=
  match write_thread s with
  | Exited => s
  | Running loc =>
      let t0 := if stop_event (shared s) then [QEmptyCall] else [] in
      if stop_event (shared s) && bool_decide (frame_queue (shared s) = [])
      then writer_exit loc (shared s) (trace s ++ t0) s
      else
        match dedicated_write_iteration loc (shared s) with
        | (Return (Some loc'), r, t) =>
            {| shared := r; capture_thread := capture_thread s;
               write_thread := Running loc'; trace := trace s ++ t0 ++ t |}
        | (_, r, t) => writer_exit loc r (trace s ++ t0 ++ t) s
        end
  end.

(** The "Final flush" after [n] write calls of the pass, and the outer
    [except Exception as ex:] when it raises or when an exception left the
    loop. *)
Definition writer_exit_raising (ft : write_fault) (n : nat)
    (loc : writer_locals) (r : recorder) (t : list effect) (s : session)
  : session :=
  match write_batch_raising ft n (batch_write_buffer loc) r with
  | (Return (_, true), r', t') =>
      {| shared := r'; capture_thread := capture_thread s;
         write_thread := Exited; trace := t ++ t' |}
  | (_, r', t') =>
      {| shared := r'; capture_thread := capture_thread s;
         write_thread := Exited;
         trace := t ++ t' ++ [EmitStatus StWriteError] |}
  end.

(** [writer_tick] when calls raise as [ft] says. *)
Definition writer_tick_raising (ft : write_fault) (s : session) : session :=
  match write_thread s with
  | Exited => s
  | Running loc =>
      let t0 := if stop_event (shared s) then [QEmptyCall] else [] in
      if stop_event (shared s) && bool_decide (frame_queue (shared s) = [])
      then writer_exit_raising ft 0 loc (shared s) (trace s ++ t0) s
      else
        match write_pass_raising ft loc (shared s) with
        | (Return (Continue loc'), r, t) =>
            {| shared := r; capture_thread := capture_thread s;
               write_thread := Running loc'; trace := trace s ++ t0 ++ t |}
        | (Return (Break n loc'), r, t) =>
            writer_exit_raising ft n loc' r (trace s ++ t0 ++ t) s
        | (_, r, t) =>
            {| shared := r; capture_thread := capture_thread s;
               write_thread := Exited;
               trace := trace s ++ t0 ++ t ++ [EmitStatus StWriteError] |}
        end
  end.

(** [if self._dropped_frames > 10 and self._adaptive_quality:] with
    [_adaptive_quality] fixed to [True] by the constructor. *)
Definition monitor_adjust : M unit :=
  d ← get_field dropped_frames;
  em ← get_field emergency_mode;
  if (10 <? d) && negb em
  then _ ← modify (set_emergency_mode true); emit_status StEmergency
  else mret tt.

Definition step (s : session) (e : event) : session :=
  match e with
  | CaptureTick now ok => capture_tick now ok s
  | WriterTick => writer_tick s
  | MonitorTick =>
      match monitor_adjust (shared s) with
      | (_, r, t) =>
          {| shared := r; capture_thread := capture_thread s;
             write_thread := write_thread s; trace := trace s ++ t |}
      end
  | SetStop =>
      {| shared := set_stop_event true (shared s);
         capture_thread := capture_thread s;
         write_thread := write_thread s; trace := trace s |}
  | PutSentinel =>
      match try_except (q_put_nowait None) catch_all (mret tt) (shared s) with
      | (_, r, t) =>
          {| shared := r; capture_thread := capture_thread s;
             write_thread := write_thread s; trace := trace s ++ t |}
      end
  | WriterFault ft => writer_tick_raising ft s
  end.

Definition run (s : session) (es : list event) : session :=
  fold_left step es s.

(** The frames handed to the video sink, in the order written. *)
Definition written (t : list effect) : list frame_data :=
  omap (fun e => match e with SinkWrite f => Some f | _ => None end) t.

End Pipeline.

(** ** Audio callback *)

Module Audio.

(** A copied PCM block ([indata.copy()]): its int16 samples. *)
Definition pcm_block : Type := list Z.

Inductive exn : Type :=
| QueueFull.   (* queue.Full *)

(** [self._q = queue.Queue(maxsize=64)] *)
Definition maxsize : Z := 64.

Definition put_nowait (q : list pcm_block) (x : pcm_block)
  : result exn (list pcm_block) :=
  if maxsize <=? Z.of_nat (length q) then Raise QueueFull
  else Return (q ++ [x]).

(** [_audio_callback]: the outcome of the call and the queue it leaves.
    [status] is ignored by the source as well. *)
Definition audio_callback (q : list pcm_block) (indata : pcm_block)
    (status : bool) : result exn unit * list pcm_block :=
  match put_nowait q indata with
  | Return q' => (Return tt, q')
  | Raise QueueFull => (Return tt, q)      (* except queue.Full: pass *)
  end.

End Audio.

(** ** Status sink *)

Module Status.

(** What a callback can raise: an instance of [Exception] or of one of its
    subclasses, or an exception that derives from [BaseException] only. *)
Inductive exception : Type :=
| ExceptionInstance (cls text : string)   (* isinstance(ex, Exception) *)
| KeyboardInterrupt
| SystemExit
| GeneratorExit
| OtherBaseException (cls : string).      (* a class derived from BaseException only *)

(** [isinstance(ex, Exception)] *)
Definition is_Exception (ex : exception) : bool :=
  match ex with
  | ExceptionInstance _ _ => true
  | KeyboardInterrupt | SystemExit | GeneratorExit | OtherBaseException _ => false
  end.

(** The user-supplied [status_callback]. *)
Definition callback : Type := string -> result exception unit.

(** [self.status_callback = status_callback or (lambda msg: None)] *)
Definition installed (status_callback : option callback) : callback :=
  default (fun _ => Return tt) status_callback.

(** [ScreenRecorder._emit_status] *)
Definition emit_status (status_callback : callback) (msg : string)
  : result exception unit :=
  match status_callback msg with
  | Return _ => Return tt
  | Raise ex =>
      if is_Exception ex then Return tt      (* except Exception: pass *)
      else Raise ex                          (* not caught *)
  end.

(** [AudioRecorder] calls the sink it was given directly. *)
Definition audio_emit (status_callback : callback) (msg : string)
  : result exception unit :=
  status_callback msg.

(** [_start_audio_recording] builds the audio recorder with
    [status_callback=self._emit_status]. *)
Definition audio_sink_of (user_callback : callback) : callback :=
  emit_status user_callback.

(** A callback during which the user presses Ctrl-C. *)
Definition interrupted : callback := fun _ => Raise KeyboardInterrupt.

(** A callback that fails with a [ValueError]. *)
Definition failing : callback :=
  fun _ => Raise (ExceptionInstance "ValueError" "bad status").

(** "The emission never raises an exception into the emitting caller, even
    when the user-supplied status callback itself raises." *)
Definition never_raises_into_caller : Prop :=
  forall (user_callback : option callback) (msg : string),
    emit_status (installed user_callback) msg = Return tt /\
    audio_emit (audio_sink_of (installed user_callback)) msg = Return tt.

End Status.

(** ** Camera probing *)

Module Cameras.

Inductive backend : Type := CAP_DSHOW | CAP_MSMF | CAP_ANY.

(** What [cv2.VideoCapture(i, backend)], [isOpened()] and the
    [cap.release()] that follows give. *)
Inductive open_result : Type :=
| Opened                 (* isOpened() is true; release() returns *)
| OpenedReleaseRaised    (* isOpened() is true; release() raises *)
| NotOpened              (* isOpened() is false *)
| OpenRaised.            (* VideoCapture(...) or isOpened() raises *)

Definition device_table : Type := Z -> backend -> open_result.

Definition backends (os_is_nt : bool) : list backend :=
  if os_is_nt then [CAP_DSHOW; CAP_MSMF; CAP_ANY] else [CAP_ANY].

(** [for backend in backends:] for camera [i], from the values of
    [available_cameras] and [camera_found] before a backend; returns both
    after the loop. *)
Fixpoint try_backends (dev : device_table) (i : Z) (bs : list backend)
    (available_cameras : list Z) (camera_found : bool) : list Z * bool :=
  match bs with
  | [] => (available_cameras, camera_found)
  | b :: rest =>
      match dev i b with
      | Opened =>
          (* append(i); camera_found = True; release(); break *)
          (available_cameras ++ [i], true)
      | OpenedReleaseRaised =>
          (* append(i); camera_found = True; release() raises: the handler
             releases again and the loop goes on to the next backend *)
          try_backends dev i rest (available_cameras ++ [i]) true
      | NotOpened => try_backends dev i rest available_cameras camera_found
      | OpenRaised => try_backends dev i rest available_cameras camera_found
      end
  end.

(** [for i in range(max_index):] from index [i] with [n] indices left. *)
Fixpoint probe_loop (dev : device_table) (os_is_nt : bool) (n : nat) (i : Z)
    (available_cameras : list Z) : list Z :=
  match n with
  | O => available_cameras
  | S n' =>
      let '(available_cameras, camera_found) :=
        try_backends dev i (backends os_is_nt) available_cameras false in
      if camera_found then available_cameras        (* break *)
      else probe_loop dev os_is_nt n' (i + 1) available_cameras
  end.

Definition probe_cameras (dev : device_table) (os_is_nt : bool)
    (max_index : Z) : list Z :=
  probe_loop dev os_is_nt (Z.to_nat max_index) 0 [].

(** A machine with one camera, index 0, that every backend opens and whose
    [release()] raises. *)
Definition release_raises : device_table :=
  fun i _ => if i =? 0 then OpenedReleaseRaised else NotOpened.

End Cameras.

(** ** Audio/video merge and finalization *)

Module Mux.

(** The disk: the size in bytes of each existing file
    ([os.path.exists], [os.path.getsize]). *)
Abbreviation disk := (gmap string Z).

(** How the launch of the merge command inside the [try] fails. *)
Inductive exec_failure : Type :=
| NonZeroExit (returncode : Z)   (* "FFmpeg failed (code N): ..." *)
| OutputMissing                  (* "FFmpeg completed but output file was not created" *)
| SpawnError.                    (* subprocess.run raised, e.g. OSError *)

(** The [RuntimeError]s of [_mux_audio_video]. *)
Inductive mux_error : Type :=
| NotAvailable                           (* "Audio recorder or video path not available for muxing" *)
| AudioFileNotFound (path : string)      (* "Audio file not found for muxing: <path>" *)
| VideoFileNotFound (path : string)      (* "Video file not found for muxing: <path>" *)
| AudioFileTooSmall (size : Z)           (* "Audio file too small (N bytes), may be corrupted" *)
| VideoFileTooSmall (size : Z)           (* "Video file too small (N bytes), may be corrupted" *)
| FfmpegNotFound                         (* get_ffmpeg_error_message(...) *)
| FfmpegTestFailed                       (* "FFmpeg test failed: ..." *)
| FfmpegTimedOut                         (* "FFmpeg operation timed out (>5 minutes)" *)
| FfmpegExecutionFailed (why : exec_failure)   (* "FFmpeg execution failed: ..." *)
| SegmentMergeFailed.                    (* raised by _merge_segments *)

Inductive status : Type :=
| StMuxing (video_kb audio_kb : Z)
| StRunningFfmpeg
| StOutputSmall (output_kb : Z)
| StMuxingSuccessful (output_kb : Z)
| StCleanedUp (path : string)
| StCouldNotRemove (path : string)
| StRecordingSavedWithAudio             (* "Recording saved with audio" *)
| StMergeFailedAudioSaved (e : mux_error) (final_audio_path : string)
    (* "Video saved. Audio merge failed: ...\nAudio saved separately: ..." *)
| StMergeFailedAudioAt (e : mux_error) (audio_path : string)
    (* "Video saved. Audio merge failed: ...\nAudio available at: ..." *)
| StMergeFailed (e : mux_error)
    (* "Video saved. Audio merge failed: ..." *)
| StAudioSavedSeparately (final_audio_path : string)
| StCouldNotCopyAudio
| StAudioAvailableAt (audio_path : string)
| StSegmentsMerged                      (* "Video segments merged successfully" *)
| StSegmentMergeFailed                  (* "Segment merge failed: ..." *)
| StVideoSavedAudioSeparate.            (* "Video saved (audio separate)" *)

Inductive action : Type :=
| SelfTest                    (* test_ffmpeg: ffmpeg -version *)
| RunMerge                    (* subprocess.run(cmd, timeout=300) *)
| Remove (path : string)      (* os.remove(path) *)
| Copy (src dst : string)     (* shutil.copy2(src, dst) *)
| Emit (s : status).

(** Outcome of [subprocess.run] on the merge command, with the disk as the
    tool left it. *)
Inductive run_result : Type :=
| Completed (returncode : Z) (after : disk)
| TimeoutExpired (after : disk)
| RunRaised (after : disk).

(** The collaborators of the reconciler. *)
Record env : Type := {
  ffmpeg_found : bool;              (* find_ffmpeg_path returns a path *)
  ffmpeg_test_ok : bool;            (* test_ffmpeg succeeds *)
  run_ffmpeg : disk -> run_result;
  remove_ok : string -> bool;       (* os.remove(path) succeeds *)
  copy_ok : bool;                   (* shutil.copy2 succeeds *)
  merge_segments : disk -> option disk
    (* _merge_segments, by its effect on the disk only; None: it raised.
       Its own command run and removals are the subject of [Segments] and
       leave no action in the traces of this module. *)
}.

(** The fields of the recorder the reconciler reads.  [wav_path] is [None]
    when there is no audio recorder; [final_audio_path] stands for
    [splitext(output_path)[0] + "_audio.wav"]. *)
Record recorder : Type := {
  wav_path : option string;
  video_tmp_path : option string;
  output_path : string;
  final_audio_path : string;
  save_audio_separately : bool;
  segments_to_merge : bool    (* cfg.use_segments and len(_segment_paths) > 1 *)
}.

Definition outcome : Type := result mux_error unit * disk * list action.

(** Python truthiness of an optional path. *)
Definition truthy (p : option string) : option string :=
  match p with
  | Some s => if bool_decide (s = EmptyString) then None else Some s
  | None => None
  end.

(** One round of the [finally] loop over the temporary files. *)
Definition cleanup_one (e : env) (temp_path : string) (d : disk)
  : disk * list action :=
  if bool_decide (temp_path = EmptyString) then (d, [])
  else match d !! temp_path with
       | None => (d, [])
       | Some _ =>
           if remove_ok e temp_path
           then (delete temp_path d,
                 [Remove temp_path; Emit (StCleanedUp temp_path)])
           else (d, [Remove temp_path; Emit (StCouldNotRemove temp_path)])
       end.

(** [finally: for temp_path in (self._video_tmp_path, audio_path): ...] *)
Definition cleanup (e : env) (video_path audio_path : string) (d : disk)
  : disk * list action :=
  let '(d1, t1) := cleanup_one e video_path d in
  let '(d2, t2) := cleanup_one e audio_path d1 in
  (d2, t1 ++ t2).

(** The [try] block around the merge command, with its [except]
    clauses: the error raised, if any, the disk and the trace. *)
Definition run_merge (e : env) (r : recorder) (video_size : Z) (d : disk)
  : result mux_error unit * disk * list action :=
  match run_ffmpeg e d with
  | Completed returncode after =>
      if negb (returncode =? 0)
      then (Raise (FfmpegExecutionFailed (NonZeroExit returncode)), after, [RunMerge])
      else match after !! output_path r with
           | None => (Raise (FfmpegExecutionFailed OutputMissing), after, [RunMerge])
           | Some output_size =>
               (* output_size < video_size * 0.8; it only selects the
                  status line *)
               if 10 * output_size <? 8 * video_size
               then (Return tt, after, [RunMerge; Emit (StOutputSmall (output_size / 1024))])
               else (Return tt, after, [RunMerge; Emit (StMuxingSuccessful (output_size / 1024))])
           end
  | TimeoutExpired after => (Raise FfmpegTimedOut, after, [RunMerge])
  | RunRaised after => (Raise (FfmpegExecutionFailed SpawnError), after, [RunMerge])
  end.

(** [ScreenRecorder._mux_audio_video] *)
Definition mux_audio_video (e : env) (r : recorder) (d : disk) : outcome :=
  match wav_path r, truthy (video_tmp_path r) with
  | Some audio_path, Some video_path =>
      match d !! audio_path with
      | None => (Raise (AudioFileNotFound audio_path), d, [])
      | Some audio_size =>
          match d !! video_path with
          | None => (Raise (VideoFileNotFound video_path), d, [])
          | Some video_size =>
              if audio_size <? 1024
              then (Raise (AudioFileTooSmall audio_size), d, [])
              else if video_size <? 1024
              then (Raise (VideoFileTooSmall video_size), d, [])
              else
                let t0 := [Emit (StMuxing (video_size / 1024) (audio_size / 1024))] in
                if negb (ffmpeg_found e)
                then (Raise FfmpegNotFound, d, t0)
                else if negb (ffmpeg_test_ok e)
                then (Raise FfmpegTestFailed, d, t0 ++ [SelfTest])
                else
                  let '(res, d1, t1) := run_merge e r video_size d in
                  let '(d2, t2) := cleanup e video_path audio_path d1 in
                  (res, d2, t0 ++ [SelfTest; Emit StRunningFfmpeg] ++ t1 ++ t2)
          end
      end
  | _, _ => (Raise NotAvailable, d, [])
  end.

(** The [except Exception as ex:] fallback of [_finalize_recording]. *)
Definition merge_fallback (e : env) (r : recorder) (audio_path : string)
    (ex : mux_error) (d : disk) : disk * list action :=
  match (if bool_decide (audio_path = EmptyString) then None else d !! audio_path) with
  | Some size =>
      if copy_ok e
      then (<[final_audio_path r := size]> d,
            [Copy audio_path (final_audio_path r);
             Emit (StMergeFailedAudioSaved ex (final_audio_path r))])
      else (d, [Copy audio_path (final_audio_path r);
                Emit (StMergeFailedAudioAt ex audio_path)])
  | None => (d, [Emit (StMergeFailed ex)])
  end.

(** The "Normal mode: merge audio and video" branch. *)
Definition merge_or_fall_back (e : env) (r : recorder) (audio_path : string)
    (d : disk) : disk * list action :=
  let segs :=
    if segments_to_merge r
    then match merge_segments e d with
         | Some d' => (Return tt, d')
         | None => (Raise SegmentMergeFailed, d)
         end
    else (Return tt, d) in
  match segs with
  | (Raise ex, d0) =>
      merge_fallback e r audio_path ex d0
  | (Return _, d0) =>
      match mux_audio_video e r d0 with
      | (Return _, d1, t) => (d1, t ++ [Emit StRecordingSavedWithAudio])
      | (Raise ex, d1, t) =>
          let '(d2, t') := merge_fallback e r audio_path ex d1 in
          (d2, t ++ t')
      end
  end.

(** The [if self.cfg.save_audio_separately:] branch. *)
Definition keep_audio_separate (e : env) (r : recorder) (audio_path : string)
    (d : disk) : disk * list action :=
  let '(d1, t1) :=
    match (if bool_decide (audio_path = EmptyString) then None
           else d !! audio_path) with
    | Some size =>
        if copy_ok e
        then (<[final_audio_path r := size]> d,
              [Copy audio_path (final_audio_path r);
               Emit (StAudioSavedSeparately (final_audio_path r))])
        else (d, [Copy audio_path (final_audio_path r);
                  Emit StCouldNotCopyAudio;
                  Emit (StAudioAvailableAt audio_path)])
    | None => (d, [])
    end in
  if segments_to_merge r
  then match merge_segments e d1 with
       | Some d2 => (d2, t1 ++ [Emit StSegmentsMerged])
       | None => (d1, t1 ++ [Emit StSegmentMergeFailed])
       end
  else (d1, t1 ++ [Emit StVideoSavedAudioSeparate]).

(** [_finalize_recording], from "Get audio file path" on, for a session
    that recorded audio: the disk after finalization and the trace. *)
Definition finalize_recording (e : env) (r : recorder) (d : disk)
  : disk * list action :=
  let audio_path := default EmptyString (wav_path r) in
  if save_audio_separately r
  then keep_audio_separate e r audio_path d
  else merge_or_fall_back e r audio_path d.

(** The merge tool was launched on the two inputs. *)
Definition is_run_merge (a : action) : bool :=
  match a with RunMerge => true | _ => false end.

Definition merge_invoked (o : outcome) : bool :=
  existsb is_run_merge o.2.

End Mux.

(** ** Derived notions used in the statements *)

Module Controller.
Import Pipeline.

(** The pair ([frames_behind], [_emergency_mode]) after the write thread
    has seen the queue sizes [obs], one per dequeued frame. *)
Definition controller_run (bs : Z) (obs : list Z) (c : Z * bool) : Z * bool :=
  fold_left (fun c queue_size => (adapt bs queue_size c).1) obs c.

(** Locals and flag when the write thread starts. *)
Definition initial : Z * bool := (0, false).

Definition mode_after (bs : Z) (obs : list Z) : bool :=
  (controller_run bs obs initial).2.

(** Hysteresis with window [k], as a property of the controller: (1) the
    mode changes at an observation only if that observation ends [k]
    consecutive observations on one side of the high-water mark; (2) [k]
    consecutive observations on the side opposite to the current mode
    (above for Normal, not above for Degraded) change the mode. *)
Definition k_consecutive_hysteresis (k : nat) : Prop :=
  forall bs : Z,
    (forall (obs : list Z) (q : Z),
        mode_after bs (obs ++ [q]) <> mode_after bs obs ->
        exists pre window,
          obs ++ [q] = pre ++ window /\ length window = k /\
          Forall (fun x => above_high_water bs x = above_high_water bs q) window)
    /\
    (forall (obs window : list Z),
        length window = k ->
        Forall (fun x => above_high_water bs x = negb (mode_after bs obs)) window ->
        mode_after bs (obs ++ window) = negb (mode_after bs obs)).

End Controller.

Module Scenarios.
Import Pipeline.

(** A capture at the [k]-th target instant of a 30 fps session. *)
Definition tick (k : Z) : event := CaptureTick (k # 30) true.

(** The default configuration ([buffer_size = 30], hence a queue of 60) at
    30 fps, with the write thread stalled while the first [n] target
    instants pass: [n] captures and no dequeue. *)
Definition stalled_writer (n : nat) : session :=
  run (start 30 (1 # 30)) (map (fun k => tick (Z.of_nat k)) (seq 1 n)).

(** Stop is signalled and the write thread runs until it has exited. *)
Definition drain (s : session) : session :=
  run s (SetStop :: replicate 80 WriterTick).

(** Frame numbers never go down along the list. *)
Fixpoint nondecreasing (l : list Z) : bool :=
  match l with
  | a :: (b :: _) as rest => (a <=? b) && nondecreasing rest
  | _ => true
  end.

Definition queued_numbers (s : session) : list (option Z) :=
  map (fun x => frame_number <$> x) (frame_queue (shared s)).

Definition all_key_frames (s : session) : bool :=
  forallb (fun x => match x with Some f => is_key_frame f | None => false end)
    (frame_queue (shared s)).

(** A queue of 64 distinct audio blocks, oldest first. *)
Definition full_audio_queue : list Audio.pcm_block :=
  map (fun i => [Z.of_nat i]) (seq 0 64).

(** A finished recording with both raw artifacts on disk. *)
Definition raw_recording : Mux.recorder :=
  {| Mux.wav_path := Some "audio.wav"%string;
     Mux.video_tmp_path := Some "out_tmp_video.mp4"%string;
     Mux.output_path := "out.mp4"%string;
     Mux.final_audio_path := "out_audio.wav"%string;
     Mux.save_audio_separately := false;
     Mux.segments_to_merge := false |}.

Definition raw_disk (video_size audio_size : Z) : Mux.disk :=
  <["audio.wav"%string := audio_size]>
    (<["out_tmp_video.mp4"%string := video_size]> ∅).

(** A machine where the merge tool is found and passes its self test, and
    whose run ends as [run] says. *)
Definition tool_present (run : Mux.disk -> Mux.run_result) : Mux.env :=
  {| Mux.ffmpeg_found := true; Mux.ffmpeg_test_ok := true;
     Mux.run_ffmpeg := run; Mux.remove_ok := fun _ => true;
     Mux.copy_ok := true; Mux.merge_segments := fun d => Some d |}.

(** The tool writes a 40000-byte output and exits with code 0. *)
Definition merge_succeeds (d : Mux.disk) : Mux.run_result :=
  Mux.Completed 0 (<["out.mp4"%string := 40000]> d).

(** The tool exits with code 1 and writes nothing. *)
Definition merge_exits_1 (d : Mux.disk) : Mux.run_result :=
  Mux.Completed 1 d.

(** A machine without the merge tool. *)
Definition tool_absent : Mux.env :=
  {| Mux.ffmpeg_found := false; Mux.ffmpeg_test_ok := false;
     Mux.run_ffmpeg := merge_exits_1; Mux.remove_ok := fun _ => true;
     Mux.copy_ok := true; Mux.merge_segments := fun d => Some d |}.

End Scenarios.

Module MuxSpec.
Import Mux.

(** Both inputs exist and each is at least 1024 bytes: the checks of
    [_mux_audio_video] before it looks for the tool. *)
Definition inputs_ok (d : disk) (audio_path video_path : string) : bool :=
  match d !! audio_path, d !! video_path with
  | Some audio_size, Some video_size =>
      (1024 <=? audio_size) && (1024 <=? video_size)
  | _, _ => false
  end.

(** The merge raised and the merge command was never launched. *)
Definition raised_without_merge (o : outcome) : bool :=
  negb (returned o.1.1) && negb (merge_invoked o).

(** The run of the merge command ended with a non-zero exit code, timed
    out, or raised. *)
Definition tool_run_fails (res : run_result) : bool :=
  match res with
  | Completed returncode _ => negb (returncode =? 0)
  | TimeoutExpired _ => true
  | RunRaised _ => true
  end.

(** The precondition in the words of the specification: both files exist
    and each exceeds 1024 bytes. *)
Definition exceeds_minimum_size (r : recorder) (d : disk) : Prop :=
  exists audio_path video_path audio_size video_size,
    wav_path r = Some audio_path /\ video_tmp_path r = Some video_path /\
    d !! audio_path = Some audio_size /\ d !! video_path = Some video_size /\
    1024 < audio_size /\ 1024 < video_size.

(** "The merge raises without running the tool if and only if that
    precondition is violated." *)
Definition fails_iff_precondition_violated : Prop :=
  forall (e : env) (r : recorder) (d : disk),
    raised_without_merge (mux_audio_video e r d) = true <->
    ~ exceeds_minimum_size r d.

End MuxSpec.

Module PipelineSpec.
Import Pipeline.

(** The capture loop reaches the capture branch at this clock reading. *)
Definition frame_due (current_time : Q) (loc : capture_locals) : bool :=
  Qle_bool (next_frame_time loc - tolerance) current_time.

(** What the capture thread may do without waiting on the queue: no
    receive that waits, and sleeps of at most 0.5 ms. *)
Definition never_waits (e : effect) : Prop :=
  match e with
  | QGetTimeout _ => False
  | Sleep d => (0 < d)%Q /\ (d <= tolerance)%Q
  | _ => True
  end.

Definition is_key (f : frame_data) : Prop := is_key_frame f = true.

(** The loop body ended without [break]. *)
Definition continues (res : result exn (option capture_locals)) : Prop :=
  exists loc', res = Return (Some loc').

(** The frame dict built from the counter and the clock reading. *)
Definition new_frame (r : recorder) (current_time : Q) : frame_data :=
  {| frame_number := frame_count r; timestamp := current_time;
     is_key_frame := frame_count r mod 30 =? 0 |}.

(** All fields but the queue agree. *)
Definition same_but_queue (r r' : recorder) : Prop :=
  buffer_size r' = buffer_size r /\
  frame_interval r' = frame_interval r /\
  frame_count r' = frame_count r /\
  dropped_frames r' = dropped_frames r /\
  emergency_mode r' = emergency_mode r /\
  writer_open r' = writer_open r /\
  stop_event r' = stop_event r.

(** Every trace of [m] satisfies [P] effect by effect. *)
Definition traces {A} (P : effect -> Prop) (m : M A) : Prop :=
  forall r, Forall P (m r).2.

(** [m] changes nothing but the queue. *)
Definition queue_only {A} (m : M A) : Prop :=
  forall r, same_but_queue r (m r).1.2.

End PipelineSpec.

(** ** Helpers ([src/utils/helpers.py]) *)

Module Helpers.

(** A Python [str] as the list of its code points ([ord] of each
    character). *)
Definition pystr : Type := list Z.

(** [fourcc_code]; the argument is a [str], so the [isinstance] test
    holds. *)
Definition fourcc_code (code : pystr) : Z :=
  match code with
  | [c1; c2; c3; c4] =>
      Z.lor (Z.lor (Z.lor (Z.land c1 255)
                          (Z.shiftl (Z.land c2 255) 8))
                   (Z.shiftl (Z.land c3 255) 16))
            (Z.shiftl (Z.land c4 255) 24)
  | _ => 0
  end.

(** The four bytes of a FOURCC code, lowest first. *)
Definition fourcc_bytes (n : Z) : pystr :=
  [Z.land n 255; Z.land (Z.shiftr n 8) 255;
   Z.land (Z.shiftr n 16) 255; Z.land (Z.shiftr n 24) 255].

(** What [find_ffmpeg_path] consults.  [strip], [join] and [expanduser]
    stand for [str.strip], [os.path.join] and [os.path.expanduser]. *)
Record os_env : Type := {
  os_is_nt : bool;                        (* os.name == 'nt' *)
  strip : string -> string;
  join : string -> string -> string;
  expanduser : string -> string;
  isdir : string -> bool;
  isfile : string -> bool;
  environ_ffmpeg_path : option string;    (* os.environ.get('FFMPEG_PATH') *)
  which_ffmpeg : option string            (* shutil.which('ffmpeg') *)
}.

(** The entries appended to [search_paths]. *)
Inductive search_entry : Type :=
| ConfigPath (cand : string)          (* "Config path: <cand>" *)
| EnvPath (env_path : string)         (* "FFMPEG_PATH env: <env_path>" *)
| PathHit (ffmpeg : string)           (* "System PATH: <ffmpeg>" *)
| Common (path : string).             (* "Common location: <path>" *)

(** The second component of the result. *)
Inductive description : Type :=
| UserConfiguration (cand : string)
| FfmpegPathEnvironment (env_path : string)
| SystemPath (ffmpeg : string)
| CommonLocation (path : string)
| NotFound (search_summary : list search_entry).

Definition exe (o : os_env) : string :=
  if os_is_nt o then "ffmpeg.exe"%string else "ffmpeg"%string.

(** [if os.path.isdir(cand): cand = os.path.join(cand, exe)] *)
Definition resolve (o : os_env) (cand : string) : string :=
  if isdir o cand then join o cand (exe o) else cand.

Definition common_paths (o : os_env) : list string :=
  ["C:\ffmpeg\bin\ffmpeg.exe"%string;
   "C:\Program Files\ffmpeg\bin\ffmpeg.exe"%string;
   "C:\Program Files (x86)\ffmpeg\bin\ffmpeg.exe"%string;
   expanduser o "~\ffmpeg\bin\ffmpeg.exe"%string;
   expanduser o "~\Downloads\ffmpeg\bin\ffmpeg.exe"%string].

(** [for path in common_paths: search_paths.append(...); if isfile: return] *)
Fixpoint search_common (o : os_env) (paths : list string)
    (search_paths : list search_entry) : option string * list search_entry :=
  match paths with
  | [] => (None, search_paths)
  | path :: rest =>
      let search_paths := search_paths ++ [Common path] in
      if isfile o path then (Some path, search_paths)
      else search_common o rest search_paths
  end.

(** [search_paths[-5:]] *)
Definition last_five {A} (l : list A) : list A := drop (length l - 5) l.

(** Python truthiness of a string. *)
Definition nonempty (s : string) : bool := negb (bool_decide (s = EmptyString)).

(** Step 4 of [find_ffmpeg_path] and its last two lines. *)
Definition search_common_locations (o : os_env)
    (search_paths : list search_entry) : option string * description :=
  match (if os_is_nt o then search_common o (common_paths o) search_paths
         else (None, search_paths)) with
  | (Some path, _) => (Some path, CommonLocation path)
  | (None, searched) => (None, NotFound (last_five searched))
  end.

(** Steps 2 and 3: the [FFMPEG_PATH] variable, then the system [PATH]. *)
Definition search_environment (o : os_env)
    (search_paths : list search_entry) : option string * description :=
  let env_path := strip o (default EmptyString (environ_ffmpeg_path o)) in
  let search_paths :=
    if nonempty env_path then search_paths ++ [EnvPath env_path]
    else search_paths in
  if nonempty env_path && isfile o (resolve o env_path)
  then (Some (resolve o env_path), FfmpegPathEnvironment env_path)
  else
    match which_ffmpeg o with
    | Some ffmpeg =>
        if nonempty ffmpeg then (Some ffmpeg, SystemPath ffmpeg)
        else search_common_locations o search_paths
    | None => search_common_locations o search_paths
    end.

(** [find_ffmpeg_path] *)
Definition find_ffmpeg_path (o : os_env) (config_path : option string)
  : option string * description :=
  match config_path with
  | Some c =>
      if nonempty c && nonempty (strip o c)
      then
        let cand := strip o c in
        if isfile o (resolve o cand)
        then (Some (resolve o cand), UserConfiguration (resolve o cand))
        else search_environment o [ConfigPath cand]
      else search_environment o []
  | None => search_environment o []
  end.

End Helpers.

(** ** Codec and quality selection *)

Module Codec.
Import Helpers.

Inductive status : Type :=
| StHardwareCodec (name : string)    (* "Using hardware codec: ..." *)
| StQualityCodec (name : string)     (* "Using <quality> quality codec: ..." *)
| StFallbackCodec.                   (* "Using guaranteed fallback: MPEG-4" *)

(** [_detect_hardware_codecs]: the body of its [try] is [pass]. *)
Definition detect_hardware_codecs : list (pystr * string) := [].

(** ['mp4v'] *)
Definition mp4v : pystr := [109; 112; 52; 118].

Definition codec_options : list (pystr * string) :=
  [(mp4v, "MPEG-4 Part 2"%string)].

(** [for codec_str, name in codecs: ... if self._test_codec(fourcc,
    codec_str): return fourcc, name] *)
Fixpoint first_working (test_codec : Z -> pystr -> bool)
    (codecs : list (pystr * string)) : option (Z * string) :=
  match codecs with
  | [] => None
  | (codec_str, name) :: rest =>
      let fourcc := fourcc_code codec_str in
      if test_codec fourcc codec_str then Some (fourcc, name)
      else first_working test_codec rest
  end.

(** [_get_optimized_codec]: the pair returned and the status emitted. *)
Definition get_optimized_codec (hardware_acceleration : bool)
    (test_codec : Z -> pystr -> bool) : Z * string * status :=
  match (if hardware_acceleration
         then first_working test_codec detect_hardware_codecs
         else None) with
  | Some (fourcc, name) => (fourcc, name, StHardwareCodec name)
  | None =>
      match first_working test_codec codec_options with
      | Some (fourcc, name) => (fourcc, name, StQualityCodec name)
      | None => (fourcc_code mp4v, "MPEG-4 Basic"%string, StFallbackCodec)
      end
  end.

(** The FFmpeg settings: [(preset, crf)]. *)
Definition quality_map : gmap string (string * Z) :=
  <["low"%string := ("ultrafast"%string, 28)]>
  (<["medium"%string := ("fast"%string, 25)]>
  (<["high"%string := ("medium"%string, 23)]>
  (<["ultra"%string := ("slow"%string, 20)]> ∅))).

(** [_get_ffmpeg_quality_settings]:
    [quality_map.get(self.cfg.video_quality, quality_map["high"])] *)
Definition get_ffmpeg_quality_settings (video_quality : string) : string * Z :=
  default (quality_map !!! "high"%string) (quality_map !! video_quality).

End Codec.

(** ** Capture target and webcam *)

Module Target.

(** An entry of [mss().monitors], or the dict built from [cfg.region]. *)
Record monitor : Type := {
  left : Z; top : Z; width : Z; height : Z
}.

Inductive exn : Type :=
| IndexError.   (* monitors[mon_index] out of range *)

(** [_setup_capture_target]: the value given to [self._monitor]. *)
Definition setup_capture_target (region : option (Z * Z * Z * Z))
    (monitor_index : Z) (monitors : list monitor) : result exn monitor :=
  match region with
  | Some (l, t, w, h) =>
      Return {| left := l; top := t; width := w; height := h |}
  | None =>
      let mon_index :=
        Z.max 0 (Z.min monitor_index (Z.of_nat (length monitors) - 1)) in
      match monitors !! Z.to_nat mon_index with
      | Some m => Return m
      | None => Raise IndexError
      end
  end.

End Target.

Module Webcam.
Import Cameras.

(** [_setup_webcam]: the backend with which [self._cam] was opened, or
    [None] when the webcam is not used or no backend opens it (the warning
    case). *)
Fixpoint open_first (dev : device_table) (cam_index : Z) (bs : list backend)
  : option backend :=
  match bs with
  | [] => None
  | b :: rest =>
      match dev cam_index b with
      | Opened => Some b                            (* self._cam = cam; return *)
      | OpenedReleaseRaised => Some b               (* the same: no release here *)
      | NotOpened => open_first dev cam_index rest  (* cam.release() *)
      | OpenRaised => open_first dev cam_index rest (* except: ... pass *)
      end
  end.

Definition setup_webcam (dev : device_table) (os_is_nt : bool)
    (use_webcam : bool) (webcam_index : Z) : option backend :=
  if negb use_webcam then None
  else open_first dev webcam_index (backends os_is_nt).

(** [isOpened()] is true for camera [i] with backend [b]. *)
Definition opens (dev : device_table) (i : Z) (b : backend) : bool :=
  match dev i b with
  | Opened | OpenedReleaseRaised => true
  | NotOpened | OpenRaised => false
  end.

(** Some backend opens camera [i]. *)
Definition openable (dev : device_table) (os_is_nt : bool) (i : Z) : bool :=
  existsb (opens dev i) (backends os_is_nt).

(** How often the backend loop appends camera [i]: once for each backend
    that opens it, up to and including the first whose [release()]
    returns. *)
Fixpoint appended (dev : device_table) (i : Z) (bs : list backend) : nat :=
  match bs with
  | [] => O
  | b :: rest =>
      match dev i b with
      | Opened => 1%nat
      | OpenedReleaseRaised => S (appended dev i rest)
      | NotOpened | OpenRaised => appended dev i rest
      end
  end.

(** No [release()] of an opened capture raises. *)
Definition release_returns (dev : device_table) : Prop :=
  forall i b, dev i b <> OpenedReleaseRaised.

End Webcam.

Module MoreScenarios.

(** A Linux machine whose only ffmpeg is on the system [PATH]. *)
Definition linux_with_path : Helpers.os_env :=
  {| Helpers.os_is_nt := false;
     Helpers.strip := fun s => s;
     Helpers.join := fun a b => (a +:+ "/" +:+ b)%string;
     Helpers.expanduser := fun s => s;
     Helpers.isdir := fun _ => false;
     Helpers.isfile := fun p => bool_decide (p = "/usr/bin/ffmpeg"%string);
     Helpers.environ_ffmpeg_path := None;
     Helpers.which_ffmpeg := Some "/usr/bin/ffmpeg"%string |}.

(** A Windows machine without ffmpeg anywhere, [FFMPEG_PATH] pointing to a
    folder that does not exist. *)
Definition windows_without_ffmpeg : Helpers.os_env :=
  {| Helpers.os_is_nt := true;
     Helpers.strip := fun s => s;
     Helpers.join := fun a b => (a +:+ "\" +:+ b)%string;
     Helpers.expanduser := fun s => s;
     Helpers.isdir := fun _ => false;
     Helpers.isfile := fun _ => false;
     Helpers.environ_ffmpeg_path := Some "D:\tools"%string;
     Helpers.which_ffmpeg := None |}.

(** Two monitors behind the virtual screen. *)
Definition three_monitors : list Target.monitor :=
  [ {| Target.left := 0; Target.top := 0; Target.width := 3840; Target.height := 1080 |};
    {| Target.left := 0; Target.top := 0; Target.width := 1920; Target.height := 1080 |};
    {| Target.left := 1920; Target.top := 0; Target.width := 1920; Target.height := 1080 |} ].

(** Cameras 2 and 4 exist; camera 2 opens with [CAP_MSMF] and [CAP_ANY]
    only, and the first backend raises on it. *)
Definition two_cameras : Cameras.device_table :=
  fun i b =>
    if i =? 2 then
      match b with
      | Cameras.CAP_DSHOW => Cameras.OpenRaised
      | _ => Cameras.Opened
      end
    else if i =? 4 then Cameras.Opened
    else Cameras.NotOpened.

End MoreScenarios.

Module SessionSpec.
Import Pipeline.

(** The queue respects its bound [maxsize = 2 * buffer_size > 0]. *)
Definition bounded (r : recorder) : Prop :=
  0 < maxsize r /\ qsize r <= maxsize r.

(** [m] keeps the invariant [I]. *)
Definition keeps {A} (I : recorder -> Prop) (m : M A) : Prop :=
  forall r, I r -> I (m r).1.2.

(** How many effects of a trace satisfy [p]. *)
Fixpoint count (p : effect -> bool) (t : list effect) : Z :=
  match t with
  | [] => 0
  | e :: t' => (if p e then 1 else 0) + count p t'
  end.

Definition is_grab (e : effect) : bool :=
  match e with Grab => true | _ => false end.

Definition is_capture_error (e : effect) : bool :=
  match e with EmitStatus StCaptureError => true | _ => false end.

(** Screen grabs attempted, and capture errors reported, in a trace. *)
Definition grabs (t : list effect) : Z := count is_grab t.
Definition capture_errors (t : list effect) : Z := count is_capture_error t.

(** Neither a grab nor a capture error. *)
Definition quiet (e : effect) : Prop :=
  is_grab e = false /\ is_capture_error e = false.

(** What one event may change besides the queue, the mode, the stop flag
    and the two counters. *)
Definition same_config (r r' : recorder) : Prop :=
  buffer_size r' = buffer_size r /\
  frame_interval r' = frame_interval r /\
  writer_open r' = writer_open r.

End SessionSpec.

Module WriterSpec.
Import Pipeline.

(** The write thread has nothing left to write: the queue is empty and the
    thread has exited or holds an empty batch; once stop is set it has
    exited. *)
Definition idle (s : session) : Prop :=
  frame_queue (shared s) = [] /\
  writer_open (shared s) = true /\
  (write_thread s = Exited \/
   exists loc, write_thread s = Running loc /\ batch_write_buffer loc = []) /\
  (stop_event (shared s) = true -> write_thread s = Exited).

(** A turn of the write thread in which neither the overlay compositing
    nor a write raises. *)
Definition clean_turn (e : event) : Prop :=
  match e with
  | WriterTick => True
  | WriterFault ft =>
      overlay_raises ft = false /\ forall n, write_raises ft n = false
  | _ => False
  end.

(** A turn of the write thread, whatever raises in it. *)
Definition writer_turn (e : event) : Prop :=
  match e with
  | WriterTick | WriterFault _ => True
  | _ => False
  end.

(** Only the [k]-th write call of the pass raises. *)
Definition raises_once (k : nat) : write_fault :=
  {| overlay_raises := false; write_raises := Nat.eqb k |}.

(** A writer that holds frames 0 to 3 in its batch, with frames 4 and 5
    queued: the next frame fills the batch. *)
Definition full_batch : session :=
  {| shared := {| buffer_size := 30; frame_interval := 1 # 30;
                  frame_queue :=
                    [Some {| frame_number := 4; timestamp := 4 # 30;
                             is_key_frame := false |};
                     Some {| frame_number := 5; timestamp := 5 # 30;
                             is_key_frame := false |}];
                  frame_count := 6; dropped_frames := 0;
                  emergency_mode := false; writer_open := true;
                  stop_event := false |};
     capture_thread := Exited;
     write_thread :=
       Running {| frames_behind := 0;
                  batch_write_buffer :=
                    map (fun k => {| frame_number := k; timestamp := k # 30;
                                     is_key_frame := k =? 0 |}) [0; 1; 2; 3] |};
     trace := [] |}.

(** A stalled writer's session in which frames [1..n] were queued and
    frame [0] waits in the batch. *)
Definition writer_backlog (n : nat) (stop : bool) : session :=
  {| shared := {| buffer_size := 30; frame_interval := 1 # 30;
                  frame_queue :=
                    map (fun k => Some {| frame_number := Z.of_nat k;
                                          timestamp := Z.of_nat k # 30;
                                          is_key_frame := false |})
                        (seq 1 n);
                  frame_count := Z.of_nat (S n); dropped_frames := 0;
                  emergency_mode := false; writer_open := true;
                  stop_event := stop |};
     capture_thread := Exited;
     write_thread :=
       Running {| frames_behind := 0;
                  batch_write_buffer :=
                    [ {| frame_number := 0; timestamp := 0;
                         is_key_frame := true |} ] |};
     trace := [] |}.

End WriterSpec.

Module SessionSpec2.
Import Pipeline SessionSpec.

(** What an event of the write thread, the monitor or the finalizer leaves
    alone: the capture thread (unless it has left its loop) and both
    counters; it adds only quiet effects, and the queue bound survives. *)
Definition off_capture (s s' : session) : Prop :=
  (capture_thread s' = capture_thread s \/ capture_thread s' = Exited) /\
  frame_count (shared s') = frame_count (shared s) /\
  dropped_frames (shared s') = dropped_frames (shared s) /\
  same_config (shared s) (shared s') /\
  (bounded (shared s) -> bounded (shared s')) /\
  exists t, trace s' = trace s ++ t /\ Forall quiet t.




(** A session of the default configuration: 70 captures, a monitor pass,
    some writing, stop, the sentinel, and the drain. *)
Definition busy_session : list event :=
  map (fun k => CaptureTick (Z.of_nat k # 30) true) (seq 1 70)
  ++ [MonitorTick; WriterTick; WriterTick;
      CaptureTick (71 # 30) true; CaptureTick (72 # 30) false;
      SetStop; PutSentinel]
  ++ replicate 70 WriterTick.

End SessionSpec2.

Module OverflowSpec.
Import Pipeline.

(** A recorder whose queue of capacity four is full and starts with a key
    frame followed by droppable frames; 11 drops were counted. *)
Definition full_small_queue : recorder :=
  {| buffer_size := 2; frame_interval := 1 # 30;
     frame_queue :=
       [ Some {| frame_number := 0; timestamp := 1 # 30; is_key_frame := true |};
         Some {| frame_number := 1; timestamp := 2 # 30; is_key_frame := false |};
         Some {| frame_number := 2; timestamp := 3 # 30; is_key_frame := false |};
         Some {| frame_number := 3; timestamp := 4 # 30; is_key_frame := false |} ];
     frame_count := 4; dropped_frames := 11;
     emergency_mode := false; writer_open := true; stop_event := false |}.

Definition newcomer : frame_data :=
  {| frame_number := 4; timestamp := 5 # 30; is_key_frame := false |}.

(** A session with one frame queued while 11 drops have been counted. *)
Definition after_many_drops : session :=
  {| shared :=
       {| buffer_size := 30; frame_interval := 1 # 30;
          frame_queue := [Some newcomer];
          frame_count := 40; dropped_frames := 11;
          emergency_mode := false; writer_open := true; stop_event := false |};
     capture_thread := Exited;
     write_thread := Running {| frames_behind := 0; batch_write_buffer := [] |};
     trace := [] |}.

End OverflowSpec.

(** ** Audio recorder: callback and writer loop together *)

Module AudioPipeline.
Import Audio.

(** The fields of [AudioRecorder] the two sides share, and the blocks the
    sound file has received, in order. *)
Record state : Type := {
  audio_q : list pcm_block;        (* self._q *)
  stop_flag : bool;                (* self._stop.is_set() *)
  sf_open : bool;                  (* self._sf is not None *)
  sound_file : list pcm_block;     (* what self._sf.write received *)
  writer_exited : bool
}.

Inductive event : Type :=
| Callback (indata : pcm_block)    (* the stream calls _audio_callback *)
| WriterTurn (write_ok : bool)     (* one turn of _writer_loop; [write_ok]:
                                      self._sf.write does not raise *)
| SetStop.                         (* stop(): self._stop.set() *)

Definition initial : state :=
  {| audio_q := []; stop_flag := false; sf_open := true;
     sound_file := []; writer_exited := false |}.

Definition on_callback (indata : pcm_block) (s : state) : state :=
  {| audio_q := (audio_callback (audio_q s) indata false).2;
     stop_flag := stop_flag s; sf_open := sf_open s;
     sound_file := sound_file s; writer_exited := writer_exited s |}.

(** [_writer_loop]: the loop test and, when it holds, one pass of the
    body. *)
Definition writer_turn (write_ok : bool) (s : state) : state :=
  if writer_exited s then s
  else if stop_flag s && bool_decide (audio_q s = [])
  then {| audio_q := audio_q s; stop_flag := stop_flag s; sf_open := sf_open s;
          sound_file := sound_file s; writer_exited := true |}
  else match audio_q s with
       | [] => s                          (* queue.Empty: continue *)
       | data :: rest =>
           {| audio_q := rest; stop_flag := stop_flag s; sf_open := sf_open s;
              sound_file :=
                if sf_open s && write_ok then sound_file s ++ [data]
                else sound_file s;        (* except Exception: pass *)
              writer_exited := false |}
       end.

Definition step (s : state) (e : event) : state :=
  match e with
  | Callback indata => on_callback indata s
  | WriterTurn write_ok => writer_turn write_ok s
  | SetStop =>
      {| audio_q := audio_q s; stop_flag := true; sf_open := sf_open s;
         sound_file := sound_file s; writer_exited := writer_exited s |}
  end.

Definition run (s : state) (es : list event) : state := fold_left step es s.

(** The blocks the stream delivered, in order. *)
Definition delivered (es : list event) : list pcm_block :=
  omap (fun e => match e with Callback b => Some b | _ => None end) es.

(** An event of a recording in progress: a callback, or a writer turn
    whose write succeeds. *)
Definition recording (e : event) : Prop :=
  match e with
  | Callback _ => True
  | WriterTurn write_ok => write_ok = true
  | SetStop => False
  end.

End AudioPipeline.

Module MuxSpec2.
Import Mux.

(** The disk as the run of the merge command left it. *)
Definition disk_after (res : run_result) : disk :=
  match res with
  | Completed _ after => after
  | TimeoutExpired after => after
  | RunRaised after => after
  end.

(** An action that can change the disk. *)
Definition touches_disk (a : action) : bool :=
  match a with
  | RunMerge | Remove _ | Copy _ _ => true
  | SelfTest | Emit _ => false
  end.

(** An action that starts the merge tool or deletes a file. *)
Definition merges_or_removes (a : action) : bool :=
  match a with
  | SelfTest | RunMerge | Remove _ => true
  | Copy _ _ | Emit _ => false
  end.

(** An action that launches the merge command or deletes a file. *)
Definition launches_or_removes (a : action) : bool :=
  match a with
  | RunMerge | Remove _ => true
  | SelfTest | Copy _ _ | Emit _ => false
  end.

(** A recorder whose user asked for the audio next to the video. *)
Definition separate_audio_recording : recorder :=
  {| wav_path := Some "audio.wav"%string;
     video_tmp_path := Some "out.mp4"%string;
     output_path := "out.mp4"%string;
     final_audio_path := "out_audio.wav"%string;
     save_audio_separately := true;
     segments_to_merge := false |}.

End MuxSpec2.

(** ** Segment merging *)

Module Segments.
Import Py.

Abbreviation disk := (gmap string Z).

Inductive error : Type :=
| FfmpegNotFound                 (* "FFmpeg not found for segment merging" *)
| ListFileError                  (* open(concat_file, 'w') or a write raised *)
| MergeFailed (returncode : Z)   (* "Segment merge failed: <stderr>" *)
| RunFailed.                     (* subprocess.run raised (timeout, OSError) *)

Inductive action : Type :=
| WriteList (path : string)      (* the concat list file is written *)
| RunConcat                      (* subprocess.run(cmd, timeout=300) *)
| Remove (path : string)         (* os.remove(path) *)
| EmitMerged (n : nat)           (* "Merged N segments" *)
| EmitFailed (ex : error).       (* "Segment merge failed: ..." *)

(** Outcome of [subprocess.run] on the concat command, with the disk as
    the tool left it. *)
Inductive run_result : Type :=
| Completed (returncode : Z) (after : disk)
| RunRaised (after : disk).

Record env : Type := {
  ffmpeg_found : bool;               (* find_ffmpeg_path returns a path *)
  concat_file : string;              (* tempfile.mktemp(suffix='.txt') *)
  list_written : result (option Z) Z;
    (* writing the list file: its size, or an exception that leaves a
       partial file of the given size, or none *)
  run_concat : disk -> run_result;
  remove_ok : string -> bool         (* os.remove(path) succeeds *)
}.

(** [try: if os.path.exists(p): os.remove(p) except Exception: pass] *)
Definition remove_if_exists (e : env) (p : string) (d : disk)
  : disk * list action :=
  match d !! p with
  | Some _ => (if remove_ok e p then delete p d else d, [Remove p])
  | None => (d, [])
  end.

(** [for segment_path in self._segment_paths: ...] *)
Fixpoint remove_segments (e : env) (segment_paths : list string) (d : disk)
  : disk * list action :=
  match segment_paths with
  | [] => (d, [])
  | p :: rest =>
      let '(d1, t1) := remove_if_exists e p d in
      let '(d2, t2) := remove_segments e rest d1 in
      (d2, t1 ++ t2)
  end.

(** [ScreenRecorder._merge_segments] *)
Definition merge_segments (e : env) (segment_paths : list string) (d : disk)
  : result error unit * disk * list action :=
  match segment_paths with
  | [] => (Return tt, d, [])
  | _ :: _ =>
      if negb (ffmpeg_found e)
      then (Raise FfmpegNotFound, d, [EmitFailed FfmpegNotFound])
      else match list_written e with
           | Raise partial =>
               (Raise ListFileError,
                match partial with
                | Some size => <[concat_file e := size]> d
                | None => d
                end,
                [EmitFailed ListFileError])
           | Return size =>
               let d1 := <[concat_file e := size]> d in
               let t1 := [WriteList (concat_file e); RunConcat] in
               match run_concat e d1 with
               | RunRaised after =>
                   (Raise RunFailed, after, t1 ++ [EmitFailed RunFailed])
               | Completed returncode after =>
                   if negb (returncode =? 0)
                   then (Raise (MergeFailed returncode), after,
                         t1 ++ [EmitFailed (MergeFailed returncode)])
                   else
                     let '(d2, t2) := remove_segments e segment_paths after in
                     let '(d3, t3) := remove_if_exists e (concat_file e) d2 in
                     (Return tt, d3,
                      t1 ++ [EmitMerged (length segment_paths)] ++ t2 ++ t3)
               end
           end
  end.

Definition is_remove (a : action) : bool :=
  match a with Remove _ => true | _ => false end.

(** The concat command writes a 90000-byte "out.mp4" and exits with 0. *)
Definition concat_succeeds (d : disk) : run_result :=
  Completed 0 (<["out.mp4"%string := 90000]> d).

(** The concat command exits with code 1. *)
Definition concat_exits_1 (d : disk) : run_result := Completed 1 d.

Definition machine (run : disk -> run_result) : env :=
  {| ffmpeg_found := true; concat_file := "/tmp/tmpab12.txt"%string;
     list_written := Return 60; run_concat := run;
     remove_ok := fun _ => true |}.

Definition two_segments : list string :=
  ["out_segment_001.mp4"%string; "out_segment_002.mp4"%string].

Definition segments_disk : disk :=
  <["out_segment_001.mp4"%string := 50000]>
    (<["out_segment_002.mp4"%string := 40000]> ∅).

End Segments.

(** ** Audio device list *)

Module AudioDevices.

(** [int(device_info.get(key, 0))]: the number, or [int] raises. *)
Inductive channel_count : Type :=
| Count (n : Z)
| NotANumber.

(** The keys of a device dictionary the function reads. *)
Record dict_info : Type := {
  max_input_channels : option channel_count;
  max_output_channels : option channel_count;
  name : option string
}.

Inductive device_info : Type :=
| DictInfo (i : dict_info)
| OtherInfo (str : string).        (* str(device_info) *)

(** The text after "<idx>: " in a label. *)
Inductive label_text : Type :=
| Name (s : string)                (* device_info['name'] *)
| DeviceNo (idx : Z)               (* f'Device {idx}' *)
| Repr (s : string).               (* str(device_info) *)

Inductive label : Type :=
| Default                          (* "Default" *)
| Indexed (idx : Z) (text : label_text).   (* f"{idx}: {name}" *)

Definition max_channels (loopback : bool) (i : dict_info) : channel_count :=
  default (Count 0)
    (if loopback then max_output_channels i else max_input_channels i).

(** The body of the loop for one device: the entry appended, if any. *)
Definition entry (loopback : bool) (idx : Z) (info : device_info)
  : option (label * option Z) :=
  match info with
  | DictInfo i =>
      match max_channels loopback i with
      | Count n =>
          if 0 <? n
          then Some (Indexed idx (default (DeviceNo idx) (Name <$> name i)),
                     Some idx)
          else None
      | NotANumber => None             (* except Exception: continue *)
      end
  | OtherInfo str => Some (Indexed idx (Repr str), Some idx)
  end.

(** [enumerate(...)], counting from [idx]. *)
Fixpoint enumerate_from {A} (idx : Z) (l : list A) : list (Z * A) :=
  match l with
  | [] => []
  | x :: rest => (idx, x) :: enumerate_from (idx + 1) rest
  end.

(** [get_audio_devices]; [sd_available]: the sounddevice module was
    imported; [query_devices = None]: [sd.query_devices()] raised. *)
Definition get_audio_devices (sd_available : bool)
    (query_devices : option (list device_info)) (loopback : bool)
  : list (label * option Z) :=
  (Default, None) ::
  (if negb sd_available then []
   else match query_devices with
        | None => []
        | Some infos =>
            omap (fun p => entry loopback p.1 p.2) (enumerate_from 0 infos)
        end).

(** In the words of the function's comments: a dictionary device
    "supports input (for microphone) or output (for loopback)" when its
    channel count in the requested direction is a positive number. *)
Definition supports (loopback : bool) (i : dict_info) : Prop :=
  exists n : Z,
    (if loopback then max_output_channels i else max_input_channels i)
      = Some (Count n) /\ 0 < n.

(** The devices the list offers: every device that is not a dictionary,
    and the dictionaries that support the requested direction. *)
Definition offered (loopback : bool) (info : device_info) : Prop :=
  match info with
  | DictInfo i => supports loopback i
  | OtherInfo _ => True
  end.

(** The label of device [idx]: its position, then its name, or
    "Device <idx>" when the dictionary has no name, or its [str]. *)
Definition label_of (idx : Z) (info : device_info) : label :=
  match info with
  | DictInfo i =>
      match name i with
      | Some s => Indexed idx (Name s)
      | None => Indexed idx (DeviceNo idx)
      end
  | OtherInfo str => Indexed idx (Repr str)
  end.

(** A machine with a microphone, a pair of speakers and a device without
    channels. *)
Definition three_devices : list device_info :=
  [DictInfo {| max_input_channels := Some (Count 2);
               max_output_channels := Some (Count 0);
               name := Some "Microphone"%string |};
   DictInfo {| max_input_channels := Some (Count 0);
               max_output_channels := Some (Count 2);
               name := Some "Speakers"%string |};
   DictInfo {| max_input_channels := None;
               max_output_channels := None;
               name := None |}].

End AudioDevices.

(** * Properties *)

(** ** Status sink *)

Module StatusFacts.
Import Status.

(** C9, as stated, fails: a callback that raises [KeyboardInterrupt],
    which is not an [Exception], raises through [_emit_status] into the
    caller. *)
Lemma interrupt_passes_through_emit_status : ~ never_raises_into_caller.
Proof.
  intros H. destruct (H (Some interrupted) "Recording started"%string) as [H1 _].
  discriminate H1.
Qed.

(** C9, amended. A status emission never raises an [Exception] into its
    caller: [_emit_status] returns normally exactly when the callback
    returns or raises an instance of [Exception] (in particular when no
    callback was supplied), and what it does raise is an exception of the
    callback that derives from [BaseException] only ([KeyboardInterrupt],
    [SystemExit], [GeneratorExit]), unchanged. An emission by the audio
    recorder, whose sink is [_emit_status] itself, behaves the same. *)
Theorem emit_status_swallows_exceptions :
  forall (user_callback : option callback) (msg : string),
    let cb := installed user_callback in
    (emit_status cb msg = Return tt <->
     forall ex, cb msg = Raise ex -> is_Exception ex = true) /\
    (forall ex, emit_status cb msg = Raise ex <->
                cb msg = Raise ex /\ is_Exception ex = false) /\
    (user_callback = None -> emit_status cb msg = Return tt) /\
    audio_emit (audio_sink_of cb) msg = emit_status cb msg.
Proof.
  intros user_callback msg. cbv zeta. split_and!.
  - unfold emit_status.
    destruct (installed user_callback msg) as [[]|ex] eqn:Hcb.
    + split; [intros _ ex [=] | done].
    + destruct (is_Exception ex) eqn:Hex.
      * split; [by intros _ ex' [= <-] | done].
      * split; [done|]. intros H. specialize (H ex eq_refl). congruence.
  - intros ex. unfold emit_status.
    destruct (installed user_callback msg) as [[]|ex'] eqn:Hcb.
    + split; [done | by intros [[=] _]].
    + destruct (is_Exception ex') eqn:Hex.
      * split; [done|]. intros [[= ->] ?]. congruence.
      * split; [by intros [= ->] | by intros [[= ->] _]].
  - by intros ->.
  - reflexivity.
Qed.

End StatusFacts.

(** ** Camera probing *)

Module CameraFacts.
Import Cameras.

(** C10 fails on the code: the index is appended before [cap.release()]
    and the [break] comes after it, so when [release()] raises, the handler
    swallows the exception, the [break] is skipped and the same index is
    appended again by the next backend. With the three Windows backends
    camera 0 is reported three times; with the single backend elsewhere,
    once. *)
Theorem probe_cameras_repeats_index_when_release_raises :
  probe_cameras release_raises true 6 = [0; 0; 0] /\
  probe_cameras release_raises false 6 = [0] /\
  (1 < length (probe_cameras release_raises true 6))%nat.
Proof. vm_compute. repeat split; lia. Qed.

End CameraFacts.

(** ** Audio callback *)

Module AudioFacts.
Import Audio Scenarios.

(** C4, as stated, fails: on a full queue the callback leaves the queue
    as it was, so the oldest block stays and the new one is lost. *)
Lemma audio_overflow_keeps_oldest :
  (audio_callback full_audio_queue [64] false).2 = full_audio_queue /\
  (audio_callback full_audio_queue [64] false).2
    <> tail full_audio_queue ++ [[64]].
Proof. split; [reflexivity | discriminate]. Qed.

(** C4, amended. The callback always returns (it never raises); when the
    queue already holds 64 blocks the newly arrived block is discarded and
    the queue is unchanged, otherwise the block is appended. *)
Theorem audio_callback_drops_incoming_when_full :
  forall (q : list pcm_block) (indata : pcm_block) (status : bool),
    audio_callback q indata status =
      (Return tt,
       if maxsize <=? Z.of_nat (length q) then q else q ++ [indata]).
Proof.
  intros q indata st. unfold audio_callback, put_nowait.
  destruct (maxsize <=? Z.of_nat (length q)); reflexivity.
Qed.

End AudioFacts.

(** ** Audio/video merge *)

Module MuxFacts.
Import Mux MuxSpec Scenarios.

(** Two inputs of exactly 1024 bytes do not "exceed" 1024 bytes, yet the
    merge runs the tool and returns. *)
Lemma inputs_of_1024_bytes_are_merged :
  raised_without_merge
    (mux_audio_video (tool_present merge_succeeds) raw_recording
       (raw_disk 1024 1024)) = false /\
  ~ exceeds_minimum_size raw_recording (raw_disk 1024 1024).
Proof.
  split; [reflexivity|].
  intros (a & v & sa & sv & Ha & Hv & Hsa & Hsv & H1 & H2).
  simpl in Ha, Hv. injection Ha as <-. injection Hv as <-.
  vm_compute in Hsa. injection Hsa as <-. lia.
Qed.

(** With large inputs and no merge tool the merge raises without running
    anything. *)
Lemma missing_tool_raises_on_good_inputs :
  raised_without_merge
    (mux_audio_video tool_absent raw_recording (raw_disk 50000 20000)) = true /\
  exceeds_minimum_size raw_recording (raw_disk 50000 20000).
Proof.
  split; [reflexivity|].
  exists "audio.wav"%string, "out_tmp_video.mp4"%string, 20000, 50000.
  repeat split; reflexivity || lia.
Qed.

(** C6, as stated, fails in both directions: files of exactly 1024 bytes
    are accepted, and a missing tool makes the merge raise although both
    files are large. *)
Lemma merge_precondition_claim_fails : ~ fails_iff_precondition_violated.
Proof.
  intros H.
  destruct inputs_of_1024_bytes_are_merged as [Hrun Hviol].
  apply (H (tool_present merge_succeeds) raw_recording (raw_disk 1024 1024))
    in Hviol.
  rewrite Hrun in Hviol. discriminate.
Qed.

(** C6, amended. Given an audio recorder and a temporary video path, the
    merge raises without launching the merge command exactly when one of
    the two files is missing or smaller than 1024 bytes (a file of exactly
    1024 bytes is accepted), or the tool is not found, or its self test
    fails; a missing or too-small file is named by the error, the audio
    file being checked first for existence and first for size. *)
Theorem merge_raises_before_tool_iff
    (e : env) (r : recorder) (d : disk) (audio_path video_path : string)
    (Ha : wav_path r = Some audio_path)
    (Hv : truthy (video_tmp_path r) = Some video_path) :
  let o := mux_audio_video e r d in
  raised_without_merge o
    = negb (inputs_ok d audio_path video_path
            && ffmpeg_found e && ffmpeg_test_ok e) /\
  (d !! audio_path = None -> o.1.1 = Raise (AudioFileNotFound audio_path)) /\
  (forall sa, d !! audio_path = Some sa -> d !! video_path = None ->
              o.1.1 = Raise (VideoFileNotFound video_path)) /\
  (forall sa sv, d !! audio_path = Some sa -> d !! video_path = Some sv ->
                 sa < 1024 -> o.1.1 = Raise (AudioFileTooSmall sa)) /\
  (forall sa sv, d !! audio_path = Some sa -> d !! video_path = Some sv ->
                 1024 <= sa -> sv < 1024 ->
                 o.1.1 = Raise (VideoFileTooSmall sv)).
Proof.
  cbv zeta. unfold mux_audio_video, inputs_ok, raised_without_merge, merge_invoked.
  rewrite Ha, Hv.
  destruct (d !! audio_path) as [sa|] eqn:Eaud; [|by repeat split].
  destruct (d !! video_path) as [sv|] eqn:Ev.
  2:{ repeat split; try done. }
  destruct (Z.ltb_spec sa 1024) as [Hsa|Hsa].
  { assert ((1024 <=? sa) = false) as -> by lia.
    repeat split; try done.
    - intros ? ? [= <-] [= <-] _. done.
    - intros ? ? [= <-] [= <-] ? ?. lia. }
  assert ((1024 <=? sa) = true) as -> by lia.
  destruct (Z.ltb_spec sv 1024) as [Hsv|Hsv].
  { assert ((1024 <=? sv) = false) as -> by lia.
    repeat split; try done.
    - intros ? ? [= <-] [= <-] ?. lia.
    - intros ? ? [= <-] [= <-] _ _. done. }
  assert ((1024 <=? sv) = true) as -> by lia.
  assert (Hrest : forall sa' sv', Some sa = Some sa' -> Some sv = Some sv' ->
                                  ~ (sa' < 1024) /\ ~ (sv' < 1024)).
  { intros ? ? [= <-] [= <-]. lia. }
  destruct (ffmpeg_found e); simpl.
  2:{ repeat split; try done; intros; edestruct Hrest; eauto; lia. }
  destruct (ffmpeg_test_ok e); simpl.
  2:{ repeat split; try done; intros; edestruct Hrest; eauto; lia. }
  destruct (run_merge e r sv d) as [[res d1] t1] eqn:Erun.
  destruct (cleanup e video_path audio_path d1) as [d2 t2].
  simpl.
  assert (existsb is_run_merge t1 = true) as Ht1.
  { unfold run_merge in Erun.
    repeat (match type of Erun with
            | context [match ?x with _ => _ end] => destruct x
            | context [if ?x then _ else _] => destruct x
            end); injection Erun as <- <- <-; reflexivity. }
  rewrite existsb_app, Ht1. simpl. rewrite andb_false_r.
  repeat split; try done; intros; edestruct Hrest; eauto; lia.
Qed.

(** The theorem at a 1000-byte audio file next to a 50000-byte video. *)
Lemma merge_raises_before_tool_iff_witness :
  raised_without_merge
    (mux_audio_video (tool_present merge_succeeds) raw_recording
       (raw_disk 50000 1000)) = true /\
  (mux_audio_video (tool_present merge_succeeds) raw_recording
     (raw_disk 50000 1000)).1.1 = Raise (AudioFileTooSmall 1000).
Proof.
  pose proof (merge_raises_before_tool_iff
                (tool_present merge_succeeds) raw_recording
                (raw_disk 50000 1000) "audio.wav" "out_tmp_video.mp4"
                eq_refl eq_refl) as (H1 & _ & _ & H4 & _).
  split.
  - rewrite H1. reflexivity.
  - apply (H4 1000 50000); [reflexivity | reflexivity | lia].
Defined.

(** *** Merge failure and the raw artifacts *)

Lemma cleanup_one_removes e p d :
  p <> EmptyString -> remove_ok e p = true -> (cleanup_one e p d).1 !! p = None.
Proof.
  intros Hp Hrm. unfold cleanup_one.
  rewrite bool_decide_false by done.
  destruct (d !! p) eqn:E; [|done].
  rewrite Hrm. simpl. apply lookup_delete_eq.
Qed.

Lemma cleanup_one_keeps_absent e p p' d :
  d !! p' = None -> (cleanup_one e p d).1 !! p' = None.
Proof.
  intros Habs. unfold cleanup_one.
  case_bool_decide; [done|].
  destruct (d !! p); [|done].
  destruct (remove_ok e p); simpl; [|done].
  rewrite lookup_delete. case_decide; done.
Qed.

Lemma cleanup_removes_both e video_path audio_path d :
  video_path <> EmptyString -> audio_path <> EmptyString ->
  remove_ok e video_path = true -> remove_ok e audio_path = true ->
  (cleanup e video_path audio_path d).1 !! video_path = None /\
  (cleanup e video_path audio_path d).1 !! audio_path = None.
Proof.
  intros Hv Ha Hrv Hra. unfold cleanup.
  pose proof (cleanup_one_removes e video_path d Hv Hrv) as H1.
  destruct (cleanup_one e video_path d) as [d1 t1]. simpl in H1.
  pose proof (cleanup_one_removes e audio_path d1 Ha Hra) as H2.
  pose proof (cleanup_one_keeps_absent e audio_path video_path d1 H1) as H3.
  destruct (cleanup_one e audio_path d1) as [d2 t2]. simpl in *.
  by split.
Qed.

Lemma run_merge_fails e r video_size d :
  tool_run_fails (run_ffmpeg e d) = true ->
  exists ex after, run_merge e r video_size d = (Raise ex, after, [RunMerge]).
Proof.
  unfold tool_run_fails, run_merge.
  destruct (run_ffmpeg e d) as [rc after|after|after]; intros H; eauto.
  rewrite H. eauto.
Qed.

(** Whenever the tool is found, passes its self test and then fails on
    two plausible inputs, finalization leaves neither raw file on disk
    (when [os.remove] succeeds on them) and reports only "Video saved.
    Audio merge failed". *)
Lemma failed_merge_deletes_raw_artifacts
    (e : env) (r : recorder) (d : disk) (audio_path video_path : string) :
  wav_path r = Some audio_path ->
  truthy (video_tmp_path r) = Some video_path ->
  audio_path <> EmptyString ->
  save_audio_separately r = false ->
  segments_to_merge r = false ->
  inputs_ok d audio_path video_path = true ->
  ffmpeg_found e = true -> ffmpeg_test_ok e = true ->
  remove_ok e audio_path = true -> remove_ok e video_path = true ->
  tool_run_fails (run_ffmpeg e d) = true ->
  exists ex,
    (finalize_recording e r d).1 !! audio_path = None /\
    (finalize_recording e r d).1 !! video_path = None /\
    last (finalize_recording e r d).2 = Some (Emit (StMergeFailed ex)).
Proof.
  intros Ha Hv Hne Hsep Hseg Hin Hfound Htest Hra Hrv Hfail.
  assert (Hvne : video_path <> EmptyString).
  { unfold truthy in Hv. destruct (video_tmp_path r); [|done].
    case_bool_decide; [done|]. by injection Hv as <-. }
  unfold finalize_recording, merge_or_fall_back, mux_audio_video.
  rewrite Hsep, Hseg, Ha, Hv.
  unfold inputs_ok in Hin.
  destruct (d !! audio_path) as [sa|]; [|done].
  destruct (d !! video_path) as [sv|]; [|done].
  apply andb_prop in Hin as [Hsa Hsv].
  assert ((sa <? 1024) = false) as -> by lia.
  assert ((sv <? 1024) = false) as -> by lia.
  rewrite Hfound, Htest. simpl negb. cbv iota.
  destruct (run_merge_fails e r sv d Hfail) as (ex & after & ->).
  destruct (cleanup_removes_both e video_path audio_path after Hvne Hne Hrv Hra)
    as [Hgv Hga].
  destruct (cleanup e video_path audio_path after) as [d2 t2]. simpl in Hgv, Hga.
  exists ex. unfold merge_fallback. simpl default.
  rewrite bool_decide_false by done. rewrite Hga. simpl.
  repeat split; try done.
  rewrite app_comm_cons. apply last_snoc.
Qed.

(** C1 (code evaluated at the input where the claim fails). Both raw
    artifacts are present and large, the tool is found and passes its
    self test, and the merge command exits with code 1: after
    finalization neither the temporary video nor the WAV file is on disk,
    no copy of the audio was made, and the status reported is "Video
    saved. Audio merge failed". *)
Theorem failed_merge_loses_raw_artifacts :
  let fin := finalize_recording (tool_present merge_exits_1) raw_recording
               (raw_disk 50000 20000) in
  fin.1 !! "out_tmp_video.mp4"%string = None /\
  fin.1 !! "audio.wav"%string = None /\
  fin.1 !! "out_audio.wav"%string = None /\
  last fin.2 = Some (Emit (StMergeFailed (FfmpegExecutionFailed (NonZeroExit 1)))).
Proof. vm_compute. repeat split. Qed.

End MuxFacts.

(** ** Adaptive controller *)

Module ControllerFacts.
Import Pipeline Controller.

Lemma adapt_above bs q fb em :
  above_high_water bs q = true ->
  (adapt bs q (fb, em)).1 = (fb + 1, em || (3 <? fb + 1)).
Proof.
  intros Hq. unfold adapt. rewrite Hq.
  destruct (3 <? fb + 1), em; reflexivity.
Qed.

Lemma adapt_not_above bs q fb em :
  above_high_water bs q = false ->
  (adapt bs q (fb, em)).1
    = (Z.max 0 (fb - 1), em && negb (Z.max 0 (fb - 1) =? 0)).
Proof.
  intros Hq. unfold adapt. rewrite Hq.
  destruct (Z.max 0 (fb - 1) =? 0), em; reflexivity.
Qed.

Lemma write_batch_run batch r :
  write_batch batch r
    = (Return tt, r, if writer_open r then map SinkWrite batch else []).
Proof.
  induction batch as [|f batch IH]; simpl.
  - by destruct (writer_open r).
  - unfold mbind, M_bind, get_field, emit. simpl.
    destruct (writer_open r); simpl; rewrite IH; reflexivity.
Qed.

(** The write thread applies [adapt] to the queue size seen right after
    the dequeue, and writes the batch when it is full or the mode is
    Degraded. *)
Lemma process_frame_run f loc r :
  process_frame f loc r =
    let '(fb, em', st) :=
      adapt (buffer_size r) (qsize r) (frames_behind loc, emergency_mode r) in
    let batch := batch_write_buffer loc ++ [f] in
    let flush := (max_batch_size <=? Z.of_nat (length batch)) || em' in
    (Return {| frames_behind := fb;
               batch_write_buffer := if flush then [] else batch |},
     set_emergency_mode em' r,
     QSizeCall ::
       match st with Some s => [EmitStatus s] | None => [] end ++
       (if flush && writer_open r then map SinkWrite batch else [])).
Proof.
  unfold process_frame, mbind, M_bind, q_qsize, get_field, modify.
  destruct (adapt (buffer_size r) (qsize r) (frames_behind loc, emergency_mode r))
    as [[fb em'] st].
  cbv zeta.
  destruct st as [s|];
    destruct ((max_batch_size <=?
                 Z.of_nat (length (batch_write_buffer loc ++ [f]))) || em');
    cbn -[write_batch];
    rewrite ?write_batch_run; cbn; rewrite ?app_nil_r; reflexivity.
Qed.

Ltac bool_arith :=
  repeat match goal with
         | |- context [?a <? ?b] => destruct (Z.ltb_spec a b)
         | |- context [?a =? ?b] => destruct (Z.eqb_spec a b)
         end;
  simpl; try reflexivity; try (exfalso; lia).

Lemma run_above bs obs : forall fb em,
  Forall (fun q => above_high_water bs q = true) obs ->
  controller_run bs obs (fb, em)
    = (fb + Z.of_nat (length obs),
       em || (negb (Z.of_nat (length obs) =? 0) && (3 <? fb + Z.of_nat (length obs)))).
Proof.
  induction obs as [|q obs IH]; intros fb em Hall.
  - simpl. rewrite Z.add_0_r, orb_false_r. reflexivity.
  - apply Forall_cons in Hall as [Hq Hall].
    unfold controller_run in *. cbn [fold_left].
    rewrite adapt_above by done. rewrite IH by done.
    rewrite length_cons.
    f_equal; [lia|].
    destruct em; simpl; [reflexivity|]. bool_arith.
Qed.

Lemma run_not_above bs obs : forall fb em,
  0 <= fb ->
  Forall (fun q => above_high_water bs q = false) obs ->
  controller_run bs obs (fb, em)
    = (Z.max 0 (fb - Z.of_nat (length obs)),
       em && ((Z.of_nat (length obs) =? 0) || (Z.of_nat (length obs) <? fb))).
Proof.
  induction obs as [|q obs IH]; intros fb em Hfb Hall.
  - simpl. rewrite andb_true_r. f_equal. lia.
  - apply Forall_cons in Hall as [Hq Hall].
    unfold controller_run in *. cbn [fold_left].
    rewrite adapt_not_above by done. rewrite IH by (done || lia).
    rewrite length_cons.
    f_equal; [lia|].
    destruct em; simpl; [|reflexivity]. bool_arith.
Qed.

(** C5, as stated, fails for every window [k]: fewer than four
    above-mark observations never degrade a fresh controller, so [k <= 3]
    is too small; and after above, above, above, below, above the next
    above-mark observation degrades it although only two consecutive ones
    precede the switch, so [k >= 4] is too large. *)
Lemma no_window_gives_hysteresis : ~ exists k : nat, k_consecutive_hysteresis k.
Proof.
  intros [k H]. destruct (H 4) as [H1 H2].
  destruct (le_lt_dec k 3) as [Hk|Hk].
  - specialize (H2 [] (replicate k 4)).
    rewrite length_replicate in H2. specialize (H2 eq_refl).
    assert (Hall : Forall (fun x => above_high_water 4 x = negb (mode_after 4 []))
                     (replicate k 4)).
    { apply Forall_replicate. reflexivity. }
    specialize (H2 Hall).
    do 4 (destruct k as [|k]; [vm_compute in H2; discriminate|]). lia.
  - destruct (H1 [4; 4; 4; 0; 4] 4) as (pre & window & Heq & Hlen & Hall).
    { vm_compute. discriminate. }
    assert (Hin : 0 ∈ window).
    { destruct pre as [|a [|b [|c pre]]]; simpl in Heq.
      - subst window. set_solver.
      - injection Heq as <- <-. set_solver.
      - injection Heq as <- <- <-. set_solver.
      - apply (f_equal length) in Heq. simpl in Heq.
        rewrite length_app in Heq. lia. }
    rewrite Forall_forall in Hall. specialize (Hall 0 Hin).
    vm_compute in Hall. discriminate.
Qed.

(** C5, amended. The controller is a leaky counter, not a window of
    consecutive observations: [frames_behind] goes up by one on every
    observation above the high-water mark and down by one (not below
    zero) on every other observation; the mode becomes Degraded as soon
    as the counter exceeds 3 and Normal again as soon as it is back at 0.
    So over [n] consecutive above-mark observations a Normal controller
    with counter [fb] ends Degraded exactly when [n >= 1] and
    [fb + n > 3] (from a cleared counter: exactly when [n >= 4]), and over
    [n] consecutive other observations a Degraded controller with counter
    [fb] stays Degraded exactly when [n = 0] or [n < fb]. *)
Theorem controller_is_leaky_counter
    (bs : Z) (obs : list Z) (fb : Z) (em : bool) (Hfb : 0 <= fb) :
  let n := Z.of_nat (length obs) in
  (Forall (fun q => above_high_water bs q = true) obs ->
   controller_run bs obs (fb, em)
     = (fb + n, em || (negb (n =? 0) && (3 <? fb + n)))) /\
  (Forall (fun q => above_high_water bs q = false) obs ->
   controller_run bs obs (fb, em)
     = (Z.max 0 (fb - n), em && ((n =? 0) || (n <? fb)))).
Proof.
  cbv zeta. split; intros Hall.
  - by apply run_above.
  - by apply run_not_above.
Qed.

(** The theorem at [buffer_size = 30] (mark at 22.5): four sizes above the
    mark degrade a fresh controller, three do not. *)
Lemma controller_is_leaky_counter_witness :
  0 <= 0 /\
  controller_run 30 [23; 25; 29; 40] (0, false) = (4, true) /\
  controller_run 30 [23; 25; 29] (0, false) = (3, false).
Proof.
  split; [lia|]. split.
  - apply (proj1 (controller_is_leaky_counter 30 [23; 25; 29; 40] 0 false
                    ltac:(lia))).
    repeat constructor.
  - reflexivity.
Defined.

End ControllerFacts.

(** ** Frame pipeline *)

Module PipelineFacts.
Import Pipeline PipelineSpec Scenarios.

(** *** The monad *)

Lemma bind_run {A B} (m : M A) (k : A -> M B) r :
  (m ≫= k) r =
    match m r with
    | (Return a, r1, t1) =>
        match k a r1 with (b, r2, t2) => (b, r2, t1 ++ t2) end
    | (Raise e, r1, t1) => (Raise e, r1, t1)
    end.
Proof. reflexivity. Qed.

Section Traces.
Context (P : effect -> Prop).

Lemma traces_ret {A} (a : A) : traces P (mret a).
Proof. intros r. constructor. Qed.

Lemma traces_raise {A} e : traces P (raise (A:=A) e).
Proof. intros r. constructor. Qed.

Lemma traces_get_field {A} (f : recorder -> A) : traces P (get_field f).
Proof. intros r. constructor. Qed.

Lemma traces_modify f : traces P (modify f).
Proof. intros r. constructor. Qed.

Lemma traces_emit e : P e -> traces P (emit e).
Proof. intros He r. simpl. auto. Qed.

Lemma traces_bind {A B} (m : M A) (k : A -> M B) :
  traces P m -> (forall a, traces P (k a)) -> traces P (m ≫= k).
Proof.
  intros Hm Hk r. rewrite bind_run. specialize (Hm r).
  destruct (m r) as [[[a|e] r1] t1]; simpl in *; [|done].
  specialize (Hk a r1). destruct (k a r1) as [[b r2] t2]. simpl in *.
  by apply Forall_app.
Qed.

Lemma traces_try {A} (m h : M A) c :
  traces P m -> traces P h -> traces P (try_except m c h).
Proof.
  intros Hm Hh r. unfold try_except. specialize (Hm r).
  destruct (m r) as [[[a|e] r1] t1]; simpl in *; [done|].
  destruct (c e); [|done].
  specialize (Hh r1). destruct (h r1) as [[b r2] t2]. simpl in *.
  by apply Forall_app.
Qed.

Lemma traces_if {A} (b : bool) (m1 m2 : M A) :
  traces P m1 -> traces P m2 -> traces P (if b then m1 else m2).
Proof. by destruct b. Qed.

End Traces.

Section QueueOnly.

Lemma same_but_queue_refl r : same_but_queue r r.
Proof. by repeat split. Qed.

Lemma same_but_queue_trans r1 r2 r3 :
  same_but_queue r1 r2 -> same_but_queue r2 r3 -> same_but_queue r1 r3.
Proof. unfold same_but_queue. intuition congruence. Qed.

Lemma same_but_queue_set q r : same_but_queue r (set_queue q r).
Proof. by repeat split. Qed.

Lemma queue_only_ret {A} (a : A) : queue_only (mret a).
Proof. intros r. apply same_but_queue_refl. Qed.

Lemma queue_only_raise {A} e : queue_only (raise (A:=A) e).
Proof. intros r. apply same_but_queue_refl. Qed.

Lemma queue_only_bind {A B} (m : M A) (k : A -> M B) :
  queue_only m -> (forall a, queue_only (k a)) -> queue_only (m ≫= k).
Proof.
  intros Hm Hk r. rewrite bind_run. specialize (Hm r).
  destruct (m r) as [[[a|e] r1] t1]; simpl in *; [|done].
  specialize (Hk a r1). destruct (k a r1) as [[b r2] t2]. simpl in *.
  by eapply same_but_queue_trans.
Qed.

Lemma queue_only_empty : queue_only q_empty.
Proof. intros r. apply same_but_queue_refl. Qed.

Lemma queue_only_put x : queue_only (q_put_nowait x).
Proof.
  intros r. unfold q_put_nowait. destruct (full r); simpl.
  - apply same_but_queue_refl.
  - apply same_but_queue_set.
Qed.

Lemma queue_only_get : queue_only q_get_nowait.
Proof.
  intros r. unfold q_get_nowait. destruct (frame_queue r); simpl.
  - apply same_but_queue_refl.
  - apply same_but_queue_set.
Qed.

Lemma queue_only_key_flag x : queue_only (key_flag x).
Proof. destruct x; [apply queue_only_ret | apply queue_only_raise]. Qed.

Lemma queue_only_scan room : forall temp, queue_only (scan_for_non_key room temp).
Proof.
  induction room as [|room IH]; intros temp; simpl.
  - apply queue_only_bind; [apply queue_only_empty|].
    intros []; apply queue_only_ret.
  - apply queue_only_bind; [apply queue_only_empty|].
    intros []; [apply queue_only_ret|].
    apply queue_only_bind; [apply queue_only_get|]. intros old.
    apply queue_only_bind; [apply queue_only_key_flag|].
    intros []; [apply IH | apply queue_only_ret].
Qed.

Lemma queue_only_put_back temp : queue_only (put_back temp).
Proof.
  induction temp as [|x temp IH]; simpl; [apply queue_only_ret|].
  apply queue_only_bind; [apply queue_only_put | done].
Qed.

End QueueOnly.

(** *** The overflow handler *)

Lemma incr_dropped_run r :
  incr_dropped r = (Return tt, set_dropped_frames (dropped_frames r + 1) r, []).
Proof. reflexivity. Qed.

(** Whatever the queue holds, the handler returns and counts exactly one
    drop; only the queue and the drop counter change. *)
Lemma smart_drop_counts_one f r :
  exists r1 t,
    smart_drop f r
      = (Return tt, set_dropped_frames (dropped_frames r + 1) r1, t) /\
    same_but_queue r r1.
Proof.
  unfold smart_drop, try_except. rewrite bind_run.
  pose proof (queue_only_scan 5 [] r) as H1.
  destruct (scan_for_non_key 5 [] r) as [[[[d temp]|e] r1] t1]; simpl in H1.
  2:{ simpl. eexists r1, _. split; [|done].
      rewrite (proj1 (proj2 (proj2 (proj2 H1)))). reflexivity. }
  rewrite bind_run.
  pose proof (queue_only_put_back temp r1) as H2.
  destruct (put_back temp r1) as [[[[]|e] r2] t2]; simpl in H2.
  2:{ simpl. eexists r2, _. split; [|by eapply same_but_queue_trans].
      rewrite (proj1 (proj2 (proj2 (proj2 H2)))),
              (proj1 (proj2 (proj2 (proj2 H1)))). reflexivity. }
  rewrite bind_run.
  pose proof (queue_only_put (Some f) r2) as H3.
  destruct (q_put_nowait (Some f) r2) as [[[[]|e] r3] t3]; simpl in H3.
  2:{ simpl. eexists r3, _.
      split; [|by repeat (eapply same_but_queue_trans; [eassumption|])].
      rewrite (proj1 (proj2 (proj2 (proj2 H3)))),
              (proj1 (proj2 (proj2 (proj2 H2)))),
              (proj1 (proj2 (proj2 (proj2 H1)))). reflexivity. }
  assert (Hd : dropped_frames r3 = dropped_frames r).
  { rewrite (proj1 (proj2 (proj2 (proj2 H3)))),
            (proj1 (proj2 (proj2 (proj2 H2)))). apply H1. }
  exists r3. destruct d; rewrite incr_dropped_run, Hd; eexists; (split; [reflexivity|]).
  all: eapply same_but_queue_trans; [eassumption|];
       eapply same_but_queue_trans; eassumption.
Qed.

Lemma tolerance_positive : (0 < tolerance)%Q.
Proof. reflexivity. Qed.

Lemma traces_scan room : forall temp,
  traces never_waits (scan_for_non_key room temp).
Proof.
  induction room as [|room IH]; intros temp; simpl.
  - apply traces_bind; [by apply traces_emit|].
    intros []; apply traces_ret.
  - apply traces_bind; [intros r; by repeat constructor|].
    intros []; [apply traces_ret|].
    apply traces_bind.
    { intros r. unfold q_get_nowait. destruct (frame_queue r); by repeat constructor. }
    intros old. apply traces_bind.
    { destruct old; [apply traces_ret | apply traces_raise]. }
    intros []; [apply IH | apply traces_ret].
Qed.

Lemma traces_put x : traces never_waits (q_put_nowait x).
Proof.
  intros r. unfold q_put_nowait. destruct (full r); by repeat constructor.
Qed.

Lemma traces_put_back temp : traces never_waits (put_back temp).
Proof.
  induction temp as [|x temp IH]; simpl; [apply traces_ret|].
  apply traces_bind; [apply traces_put | done].
Qed.

Lemma traces_smart_drop f : traces never_waits (smart_drop f).
Proof.
  apply traces_try; [|apply traces_modify].
  apply traces_bind; [apply traces_scan|]. intros [d temp].
  apply traces_bind; [apply traces_put_back|]. intros _.
  apply traces_bind; [apply traces_put|]. intros _.
  apply traces_if; apply traces_modify.
Qed.

Lemma traces_emergency_log now loc : traces never_waits (emergency_log now loc).
Proof.
  apply traces_bind; [apply traces_get_field|]. intros d.
  apply traces_if; [|apply traces_ret].
  apply traces_bind; [by apply traces_emit|]. intros _. apply traces_ret.
Qed.

Lemma traces_capture_frame now ok loc :
  traces never_waits (capture_frame now ok loc).
Proof.
  apply traces_bind; [by apply traces_emit|]. intros _.
  apply traces_bind; [apply traces_if; [apply traces_ret|apply traces_raise]|].
  intros _.
  apply traces_bind; [apply traces_get_field|]. intros n.
  apply traces_bind.
  { apply traces_try.
    - apply traces_bind; [apply traces_put|]. intros _.
      apply traces_bind; [apply traces_modify|]. intros _. apply traces_ret.
    - apply traces_bind; [apply traces_smart_drop|]. intros _.
      apply traces_emergency_log. }
  intros loc'. apply traces_bind; [apply traces_get_field|]. intros iv.
  apply traces_ret.
Qed.

Lemma traces_capture_iteration now ok loc :
  traces never_waits (dedicated_capture_iteration now ok loc).
Proof.
  unfold dedicated_capture_iteration.
  destruct (Qle_bool (next_frame_time loc - tolerance) now).
  - apply traces_try.
    + apply traces_bind; [apply traces_capture_frame|]. intros ?. apply traces_ret.
    + apply traces_bind; [by apply traces_emit|]. intros _. apply traces_ret.
  - destruct (Qle_bool (next_frame_time loc - now) 0) eqn:Hs; simpl;
      [apply traces_ret|].
    apply traces_bind; [|intros _; apply traces_ret].
    apply traces_emit. simpl. split.
    + apply Q.min_glb_lt; [|apply tolerance_positive].
      apply Qnot_le_lt. intros Hle. apply Qle_bool_iff in Hle. congruence.
    + apply Q.le_min_r.
Qed.

Lemma emergency_log_run now loc r :
  exists loc' t, emergency_log now loc r = (Return loc', r, t).
Proof.
  unfold emergency_log. rewrite bind_run. simpl.
  destruct ((dropped_frames r mod 10 =? 0) &&
            negb (Qle_bool (now - last_emergency_log loc) 5)); simpl; eauto.
Qed.

Lemma capture_frame_full now loc r :
  full r = true ->
  exists loc' r1 t,
    capture_frame now true loc r
      = (Return loc', set_dropped_frames (dropped_frames r + 1) r1, t) /\
    same_but_queue r r1.
Proof.
  intros Hfull.
  unfold capture_frame, try_except, mbind, M_bind, emit, get_field, modify,
    q_put_nowait, mret, M_ret.
  rewrite Hfull.
  destruct (smart_drop_counts_one (new_frame r now) r) as (r1 & t & Hsd & Hsame).
  unfold new_frame in Hsd. simpl. rewrite Hsd.
  destruct (emergency_log_run now loc
              (set_dropped_frames (dropped_frames r + 1) r1)) as (loc' & t' & ->).
  eauto 10.
Qed.

Lemma capture_frame_not_full now loc r :
  full r = false ->
  exists loc' t,
    capture_frame now true loc r
      = (Return loc',
         set_frame_count (frame_count r + 1)
           (set_queue (frame_queue r ++ [Some (new_frame r now)]) r), t).
Proof.
  intros Hfull.
  unfold capture_frame, try_except, mbind, M_bind, emit, get_field, modify,
    q_put_nowait, mret, M_ret.
  rewrite Hfull. simpl. eauto.
Qed.

(** C7. One pass of the capture loop never waits on the frame queue: the
    only queue operations it performs are the non-waiting ones, and the
    only suspension is a sleep of more than 0 and at most 0.5 ms taken
    while the next target instant is still ahead.  When a frame is due and
    grabbed and the queue is full, the pass runs the drop policy (one more
    dropped frame counted) and the loop goes on; when the queue has room
    the frame is appended and counted. *)
Theorem capture_never_waits_on_queue
    (current_time : Q) (grab_ok : bool) (loc : capture_locals) (r : recorder) :
  let '(res, r', t) := dedicated_capture_iteration current_time grab_ok loc r in
  Forall never_waits t /\
  match frame_due current_time loc, grab_ok, full r with
  | true, true, true =>
      continues res /\
      dropped_frames r' = dropped_frames r + 1 /\
      frame_count r' = frame_count r
  | true, true, false =>
      continues res /\
      frame_queue r' = frame_queue r ++ [Some (new_frame r current_time)] /\
      frame_count r' = frame_count r + 1 /\
      dropped_frames r' = dropped_frames r
  | true, false, _ => res = Return None /\ r' = r
  | false, _, _ => res = Return (Some loc) /\ r' = r
  end.
Proof.
  pose proof (traces_capture_iteration current_time grab_ok loc r) as Htr.
  destruct (dedicated_capture_iteration current_time grab_ok loc r) as [[res r'] t] eqn:E.
  split; [exact Htr|]. clear Htr.
  unfold dedicated_capture_iteration, frame_due in *.
  destruct (Qle_bool (next_frame_time loc - tolerance) current_time).
  - destruct grab_ok.
    + destruct (full r) eqn:Hfull.
      * destruct (capture_frame_full current_time loc r Hfull)
          as (loc' & r1 & t1 & Hcf & Hsame).
        unfold try_except in E. rewrite bind_run, Hcf in E.
        injection E as <- <- <-.
        split; [by eexists|]. split; [reflexivity|]. apply Hsame.
      * destruct (capture_frame_not_full current_time loc r Hfull)
          as (loc' & t1 & Hcf).
        unfold try_except in E. rewrite bind_run, Hcf in E.
        injection E as <- <- <-.
        split; [by eexists|]. done.
    + injection E as <- <- <-. done.
  - destruct (negb (Qle_bool (next_frame_time loc - current_time) 0));
      injection E as <- <- <-; done.
Qed.

(** *** What the overflow handler does to the queue *)

Lemma set_queue_same r : set_queue (frame_queue r) r = r.
Proof. by destruct r. Qed.

Lemma q_empty_run r :
  q_empty r = (Return (bool_decide (frame_queue r = [])), r, [QEmptyCall]).
Proof. reflexivity. Qed.

(** The scan stops at the first frame that is not a key frame, having
    collected the key frames before it. *)
Lemma scan_finds_non_key keys : forall room temp r f rest,
  frame_queue r = map Some keys ++ Some f :: rest ->
  Forall is_key keys -> is_key_frame f = false ->
  (length keys < room)%nat ->
  exists t,
    scan_for_non_key room temp r
      = (Return (true, temp ++ map Some keys), set_queue rest r, t).
Proof.
  induction keys as [|k keys IH]; intros room temp r f rest Hq Hk Hf Hroom;
    (destruct room as [|room]; [simpl in Hroom; lia|]);
    cbn [scan_for_non_key]; rewrite bind_run, q_empty_run, Hq; simpl.
  - unfold mbind, M_bind, q_get_nowait. rewrite Hq. simpl. rewrite Hf. simpl.
    rewrite app_nil_r. eauto.
  - apply Forall_cons in Hk as [Hk Hkeys].
    unfold mbind at 1, M_bind at 1, q_get_nowait. rewrite Hq. simpl.
    unfold mbind at 1, M_bind at 1. simpl. rewrite Hk.
    edestruct (IH room (temp ++ [Some k])
                 (set_queue (map Some keys ++ Some f :: rest) r) f rest)
      as [t Ht]; [reflexivity | done | done | simpl in Hroom; lia |].
    unfold item in *. rewrite Ht. simpl. rewrite <- app_assoc. simpl. eauto.
Qed.

(** The scan gives up after five key frames, or when the queue holds key
    frames only. *)
Lemma scan_sees_only_keys keys : forall room temp r rest,
  frame_queue r = map Some keys ++ rest ->
  Forall is_key keys ->
  (length keys <= room)%nat ->
  length keys = room \/ rest = [] ->
  exists t,
    scan_for_non_key room temp r
      = (Return (false, temp ++ map Some keys), set_queue rest r, t).
Proof.
  induction keys as [|k keys IH]; intros room temp r rest Hq Hk Hroom Hend.
  - simpl in Hq. rewrite app_nil_r.
    assert (Hr : set_queue rest r = r) by (rewrite <- Hq; apply set_queue_same).
    rewrite Hr.
    destruct room as [|room]; cbn [scan_for_non_key];
      rewrite bind_run, q_empty_run.
    + destruct (bool_decide (frame_queue r = [])); simpl; eauto.
    + destruct Hend as [Hend|Hend]; [simpl in Hend; lia|].
      rewrite Hend in Hq. rewrite Hq. simpl. eauto.
  - destruct room as [|room]; [simpl in Hroom; lia|].
    apply Forall_cons in Hk as [Hk Hkeys].
    cbn [scan_for_non_key]. rewrite bind_run, q_empty_run, Hq. simpl.
    unfold mbind at 1, M_bind at 1, q_get_nowait. rewrite Hq. simpl.
    unfold mbind at 1, M_bind at 1. simpl. rewrite Hk.
    edestruct (IH room (temp ++ [Some k])
                 (set_queue (map Some keys ++ rest) r) rest)
      as [t Ht]; [reflexivity | done | simpl in Hroom; lia | |].
    { destruct Hend as [Hend|Hend]; [left; simpl in Hend; lia | by right]. }
    unfold item in *. rewrite Ht. simpl. rewrite <- app_assoc. simpl. eauto.
Qed.

Lemma put_back_run temp : forall r,
  qsize r + Z.of_nat (length temp) <= maxsize r ->
  exists t,
    put_back temp r = (Return tt, set_queue (frame_queue r ++ temp) r, t).
Proof.
  induction temp as [|x temp IH]; intros r Hroom.
  - simpl. rewrite app_nil_r, set_queue_same. eauto.
  - cbn [put_back]. rewrite bind_run. unfold q_put_nowait.
    assert (full r = false) as ->.
    { unfold full. simpl in Hroom. apply andb_false_iff. right. lia. }
    destruct (IH (set_queue (frame_queue r ++ [x]) r)) as [t Ht].
    { unfold qsize, maxsize in *. simpl in *. rewrite length_app. simpl. lia. }
    rewrite Ht. simpl. rewrite <- app_assoc. simpl. eauto.
Qed.

(** On a full queue with a droppable frame among its first five, the
    handler evicts that frame, re-queues the key frames that stood before it
    at the back, and appends the new frame behind them. *)
Lemma smart_drop_evicts_first_non_key new keys f rest r :
  frame_queue r = map Some keys ++ Some f :: rest ->
  Forall is_key keys -> is_key_frame f = false ->
  (length keys < 5)%nat ->
  0 < maxsize r -> qsize r = maxsize r ->
  exists t,
    smart_drop new r
      = (Return tt,
         set_dropped_frames (dropped_frames r + 1)
           (set_queue (rest ++ map Some keys ++ [Some new]) r), t).
Proof.
  intros Hq Hk Hf Hlen Hmax Hfull.
  assert (Hsize : Z.of_nat (length rest) + Z.of_nat (length keys) + 1 = maxsize r).
  { rewrite <- Hfull. unfold qsize. rewrite Hq, length_app, length_map.
    simpl. lia. }
  unfold smart_drop, try_except. rewrite bind_run.
  destruct (scan_finds_non_key keys 5 [] r f rest Hq Hk Hf Hlen) as [t1 ->].
  simpl app. rewrite bind_run.
  destruct (put_back_run (map Some keys) (set_queue rest r)) as [t2 ->].
  { unfold qsize, maxsize, item in *. simpl. rewrite length_map. lia. }
  rewrite bind_run. unfold q_put_nowait.
  assert (full (set_queue (frame_queue (set_queue rest r) ++ map Some keys)
                  (set_queue rest r)) = false) as ->.
  { unfold full, qsize, maxsize, item in *. simpl. rewrite length_app, length_map.
    apply andb_false_iff. right. apply Z.leb_gt. lia. }
  simpl. rewrite <- app_assoc. eauto.
Qed.

(** On a full queue whose first five frames (or all of them) are key
    frames, the handler evicts nothing: the scanned frames move to the back
    and the new frame is discarded. *)
Lemma smart_drop_discards_new_frame new keys rest r :
  frame_queue r = map Some keys ++ rest ->
  Forall is_key keys ->
  length keys = 5%nat \/ ((length keys <= 5)%nat /\ rest = []) ->
  0 < maxsize r -> qsize r = maxsize r ->
  exists t,
    smart_drop new r
      = (Return tt,
         set_dropped_frames (dropped_frames r + 1)
           (set_queue (rest ++ map Some keys) r), t).
Proof.
  intros Hq Hk Hlen Hmax Hfull.
  assert (Hsize : Z.of_nat (length rest) + Z.of_nat (length keys) = maxsize r).
  { rewrite <- Hfull. unfold qsize. rewrite Hq, length_app, length_map. lia. }
  unfold smart_drop, try_except. rewrite bind_run.
  destruct (scan_sees_only_keys keys 5 [] r rest Hq Hk) as [t1 ->];
    [lia | destruct Hlen as [?|[? ?]]; [by left | by right] |].
  simpl app. rewrite bind_run.
  destruct (put_back_run (map Some keys) (set_queue rest r)) as [t2 ->].
  { unfold qsize, maxsize, item in *. simpl. rewrite length_map. lia. }
  rewrite bind_run. unfold q_put_nowait.
  assert (full (set_queue (frame_queue (set_queue rest r) ++ map Some keys)
                  (set_queue rest r)) = true) as ->.
  { unfold full, qsize, maxsize, item in *. simpl. rewrite length_app, length_map.
    apply andb_true_intro. split; [apply Z.ltb_lt | apply Z.leb_le]; lia. }
  simpl. eauto.
Qed.

(** C2 (code evaluated at the input where the claim fails). Default
    configuration, write thread stalled for the first 118 frame instants:
    the queue is full and holds key frames only.  At the next capture the
    handler counts a drop, yet it evicts nothing (the oldest frame is still
    queued: the first five frames have moved to the back) and the new frame
    does not enter the queue. *)
Theorem full_queue_of_key_frames_rejects_new_frame :
  let s := stalled_writer 118 in
  let s' := step s (tick 119) in
  full (shared s) = true /\
  all_key_frames s = true /\
  dropped_frames (shared s') = dropped_frames (shared s) + 1 /\
  frame_count (shared s') = frame_count (shared s) /\
  frame_queue (shared s')
    = drop 5 (frame_queue (shared s)) ++ take 5 (frame_queue (shared s)).
Proof. vm_compute. repeat split. Qed.

(** C3 (code evaluated at the input where the claim fails). Default
    configuration, write thread stalled for the first 61 frame instants,
    then stop: the overflow at the 61st capture re-queues key frame 0 behind
    frames 2..59, and the write thread writes it after them. *)
Theorem stalled_writer_frames_written_out_of_order :
  let s := drain (stalled_writer 61) in
  write_thread s = Exited /\
  frame_number <$> written (trace s)
    = (Z.of_nat <$> seq 2 58) ++ [0; 60] /\
  nondecreasing (frame_number <$> written (trace s)) = false.
Proof. vm_compute. repeat split. Qed.

(** C8 (code evaluated at the input where the claim fails). Default
    configuration, write thread stalled for the first 62 frame instants,
    then stop and a complete drain: 60 frames counted as produced, 2 counted
    as dropped, 60 written. *)
Theorem stalled_writer_counters_disagree :
  let s := drain (stalled_writer 62) in
  write_thread s = Exited /\
  frame_queue (shared s) = [] /\
  frame_count (shared s) = 60 /\
  dropped_frames (shared s) = 2 /\
  Z.of_nat (length (written (trace s))) = 60 /\
  1 < Z.abs (frame_count (shared s) - dropped_frames (shared s)
             - Z.of_nat (length (written (trace s)))).
Proof. vm_compute. repeat split. Qed.

End PipelineFacts.

(** ** Helpers *)

Module HelpersFacts.
Import Helpers.

Lemma fourcc_low_bytes c1 c2 c3 c4 :
  fourcc_bytes (fourcc_code [c1; c2; c3; c4])
    = [Z.land c1 255; Z.land c2 255; Z.land c3 255; Z.land c4 255].
Proof.
  unfold fourcc_bytes, fourcc_code. change 255 with (Z.ones 8).
  f_equal; [|f_equal; [|f_equal; [|f_equal]]]; Z.bitblast.
Qed.

Lemma fourcc_fits_32_bits c1 c2 c3 c4 :
  Z.land (fourcc_code [c1; c2; c3; c4]) (Z.ones 32)
    = fourcc_code [c1; c2; c3; c4].
Proof. unfold fourcc_code. change 255 with (Z.ones 8). Z.bitblast. Qed.

(** X1. [fourcc_code] always yields an unsigned 32-bit value, whatever
    string it is given (any length, any code points, negative ones
    included). *)
Theorem fourcc_code_range :
  forall code : pystr, 0 <= fourcc_code code < 2 ^ 32.
Proof.
  intros code.
  destruct code as [|c1 [|c2 [|c3 [|c4 [|c5 rest]]]]]; try (simpl; lia).
  rewrite <- fourcc_fits_32_bits, Z.land_ones by lia.
  apply Z.mod_pos_bound. lia.
Qed.

(** X2. For a four-character string whose code points are below 256 the
    code can be decoded: its four bytes, lowest first, are the characters
    in order; so distinct such strings get distinct codes. *)
Theorem fourcc_code_roundtrip (code : pystr)
    (Hlen : length code = 4%nat)
    (Hbytes : Forall (fun c => 0 <= c < 256) code) :
  fourcc_bytes (fourcc_code code) = code.
Proof.
  destruct code as [|c1 [|c2 [|c3 [|c4 [|c5 rest]]]]]; try discriminate Hlen.
  rewrite fourcc_low_bytes.
  repeat (apply Forall_cons in Hbytes as [? Hbytes]).
  change 255 with (Z.ones 8). rewrite !Z.land_ones by lia.
  rewrite !Z.mod_small by (simpl; lia). reflexivity.
Qed.

(** The theorem at ['mp4v']. *)
Lemma fourcc_code_roundtrip_witness :
  fourcc_bytes (fourcc_code [109; 112; 52; 118]) = [109; 112; 52; 118].
Proof.
  apply (fourcc_code_roundtrip [109; 112; 52; 118]).
  - reflexivity.
  - repeat constructor; lia.
Defined.

(** X3. Only the low byte of each character enters the code: characters
    that agree modulo 256 are not told apart. *)
Theorem fourcc_code_ignores_high_bits :
  forall c1 c2 c3 c4 k1 k2 k3 k4 : Z,
    fourcc_code [c1 + 256 * k1; c2 + 256 * k2; c3 + 256 * k3; c4 + 256 * k4]
      = fourcc_code [c1; c2; c3; c4].
Proof.
  intros. unfold fourcc_code. change 255 with (Z.ones 8).
  rewrite !Z.land_ones by lia.
  assert (H : forall c k, (c + 256 * k) mod 2 ^ 8 = c mod 2 ^ 8).
  { intros c k. change (2 ^ 8) with 256.
    rewrite Z.mul_comm, Z.mod_add by lia. reflexivity. }
  rewrite !H. reflexivity.
Qed.

Lemma search_common_spec o paths : forall searched,
  (exists path,
      path ∈ paths /\ isfile o path = true /\
      (search_common o paths searched).1 = Some path) \/
  (Forall (fun p => isfile o p = false) paths /\
   search_common o paths searched = (None, searched ++ (Common <$> paths))).
Proof.
  induction paths as [|p paths IH]; intros searched; simpl.
  - right. rewrite app_nil_r. split; [constructor | reflexivity].
  - destruct (isfile o p) eqn:Hp.
    + left. exists p. split; [left | done].
    + destruct (IH (searched ++ [Common p])) as [(q & Hin & Hq & Hres)|[Hall Hres]].
      * left. exists q. split; [by right | done].
      * right. split; [by constructor|].
        rewrite Hres, <- app_assoc. reflexivity.
Qed.

(** X4. A path returned by [find_ffmpeg_path] was checked: it is an
    existing file, or it is what [shutil.which] gave. *)
Theorem find_ffmpeg_path_checked (o : os_env) (config_path : option string)
    (p : string) (Hfound : (find_ffmpeg_path o config_path).1 = Some p) :
  isfile o p = true \/ which_ffmpeg o = Some p.
Proof.
  assert (Hcommon : forall sp, (search_common_locations o sp).1 = Some p ->
                               isfile o p = true).
  { intros sp. unfold search_common_locations.
    destruct (os_is_nt o); [|discriminate].
    destruct (search_common_spec o (common_paths o) sp)
      as [(q & _ & Hq & Hres)|[_ Hres]].
    - destruct (search_common o (common_paths o) sp) as [[q'|] sp'];
        simpl in *; [|discriminate]. intros [= <-]. congruence.
    - rewrite Hres. discriminate. }
  assert (Henv : forall sp, (search_environment o sp).1 = Some p ->
                            isfile o p = true \/ which_ffmpeg o = Some p).
  { intros sp. unfold search_environment.
    destruct (nonempty _ && isfile o _) eqn:He.
    - apply andb_prop in He as [_ He]. simpl. intros [= <-]. by left.
    - destruct (which_ffmpeg o) as [w|].
      + destruct (nonempty w); simpl.
        * intros [= <-]. by right.
        * intros H. left. by eapply Hcommon.
      + intros H. left. by eapply Hcommon. }
  unfold find_ffmpeg_path in Hfound.
  destruct config_path as [c|]; [|by eapply Henv].
  destruct (nonempty c && nonempty (strip o c)); [|by eapply Henv].
  destruct (isfile o (resolve o (strip o c))) eqn:Hf; [|by eapply Henv].
  simpl in Hfound. injection Hfound as <-. by left.
Qed.

End HelpersFacts.

Module HelpersFacts2.
Import Helpers MoreScenarios.

(** The theorem on a Linux machine with ffmpeg on the [PATH]. *)
Lemma find_ffmpeg_path_checked_witness :
  Helpers.isfile linux_with_path "/usr/bin/ffmpeg" = true \/
  which_ffmpeg linux_with_path = Some "/usr/bin/ffmpeg"%string.
Proof.
  apply (HelpersFacts.find_ffmpeg_path_checked linux_with_path None).
  reflexivity.
Defined.

Lemma last_five_app {A} (l k : list A) :
  length k = 5%nat -> last_five (l ++ k) = k.
Proof.
  intros Hk. unfold last_five. rewrite length_app, Hk.
  replace (length l + 5 - 5)%nat with (length l) by lia.
  apply drop_app_length.
Qed.

(** X5. On Windows, when no ffmpeg is found, the "Searched:" summary
    consists of the five common locations only: a configured path and the
    [FFMPEG_PATH] variable were tried but are not listed. *)
Theorem windows_summary_lists_common_locations_only (o : os_env)
    (config_path : option string)
    (Hnt : os_is_nt o = true)
    (Hnone : (find_ffmpeg_path o config_path).1 = None) :
  (find_ffmpeg_path o config_path).2
    = NotFound (Common <$> common_paths o).
Proof.
  assert (Hcommon : forall sp, (search_common_locations o sp).1 = None ->
            (search_common_locations o sp).2
              = NotFound (Common <$> common_paths o)).
  { intros sp. unfold search_common_locations. rewrite Hnt.
    destruct (HelpersFacts.search_common_spec o (common_paths o) sp)
      as [(q & _ & _ & Hres)|[_ Hres]].
    - destruct (search_common o (common_paths o) sp) as [[q'|] sp'];
        simpl in *; discriminate.
    - rewrite Hres. simpl. intros _. f_equal. by apply last_five_app. }
  assert (Henv : forall sp, (search_environment o sp).1 = None ->
            (search_environment o sp).2
              = NotFound (Common <$> common_paths o)).
  { intros sp. unfold search_environment.
    destruct (nonempty _ && isfile o _); [discriminate|].
    destruct (which_ffmpeg o) as [w|]; [|apply Hcommon].
    destruct (nonempty w); [discriminate | apply Hcommon]. }
  unfold find_ffmpeg_path in *.
  destruct config_path as [c|]; [|by apply Henv].
  destruct (nonempty c && nonempty (strip o c)); [|by apply Henv].
  destruct (isfile o (resolve o (strip o c))); [discriminate | by apply Henv].
Qed.

(** The theorem on a Windows machine without ffmpeg and with a configured
    path. *)
Lemma windows_summary_lists_common_locations_only_witness :
  (find_ffmpeg_path windows_without_ffmpeg (Some "E:\ffmpeg"%string)).2
    = NotFound (Common <$> common_paths windows_without_ffmpeg).
Proof.
  apply (windows_summary_lists_common_locations_only
           windows_without_ffmpeg (Some "E:\ffmpeg"%string));
    reflexivity.
Defined.

End HelpersFacts2.

(** ** Codec and quality selection *)

Module CodecFacts.
Import Helpers Codec.

(** X6. The codec chosen is always MPEG-4 ('mp4v', FOURCC 0x7634706D),
    whether or not hardware acceleration is requested and whatever the
    codec test says; only the reported name depends on the test. *)
Theorem get_optimized_codec_is_mp4v :
  forall (hardware_acceleration : bool) (test_codec : Z -> pystr -> bool),
    (get_optimized_codec hardware_acceleration test_codec).1.1 = 1983148141 /\
    (get_optimized_codec hardware_acceleration test_codec).1.2
      = if test_codec 1983148141 mp4v
        then "MPEG-4 Part 2"%string else "MPEG-4 Basic"%string.
Proof.
  intros hw test. unfold get_optimized_codec.
  assert (first_working test detect_hardware_codecs = None) as Hhw by reflexivity.
  replace (if hw then first_working test detect_hardware_codecs else None)
    with (@None (Z * string)) by (destruct hw; [by rewrite Hhw | done]).
  unfold codec_options. cbn [first_working].
  change (fourcc_code mp4v) with 1983148141.
  destruct (test 1983148141 mp4v); split; reflexivity.
Qed.

(** X7. Every quality name gets settings with a CRF between 20 and 28; a
    name other than "low", "medium" and "ultra" ("high" or anything else)
    gets the "high" settings: preset medium, CRF 23. *)
Theorem quality_settings_total :
  forall video_quality : string,
    20 <= (get_ffmpeg_quality_settings video_quality).2 <= 28 /\
    (get_ffmpeg_quality_settings video_quality = ("medium"%string, 23) \/
     video_quality ∈ ["low"%string; "medium"%string; "ultra"%string]).
Proof.
  intros q. unfold get_ffmpeg_quality_settings, quality_map.
  destruct (decide (q = "low"%string)) as [->|Hl];
    [split; [vm_compute; split; discriminate | right; set_solver]|].
  destruct (decide (q = "medium"%string)) as [->|Hm];
    [split; [vm_compute; split; discriminate | right; set_solver]|].
  destruct (decide (q = "ultra"%string)) as [->|Hu];
    [split; [vm_compute; split; discriminate | right; set_solver]|].
  destruct (decide (q = "high"%string)) as [->|Hh];
    [split; [vm_compute; split; discriminate | left; reflexivity]|].
  rewrite !lookup_insert_ne, lookup_empty by done.
  split; [vm_compute; split; discriminate | left; reflexivity].
Qed.

End CodecFacts.

(** ** Capture target and webcam *)

Module TargetFacts.
Import Target MoreScenarios.

(** X8. With at least one monitor and no region, [_setup_capture_target]
    never fails: an index inside the list selects that monitor, a negative
    index selects the first monitor (it does not count from the end), and
    an index past the end selects the last one. *)
Theorem setup_capture_target_clamps (monitor_index : Z)
    (monitors : list monitor) (Hne : monitors <> []) :
  let res := setup_capture_target None monitor_index monitors in
  (monitor_index < 0 -> Some res = Return <$> head monitors) /\
  (0 <= monitor_index < Z.of_nat (length monitors) ->
   Some res = Return <$> monitors !! Z.to_nat monitor_index) /\
  (Z.of_nat (length monitors) <= monitor_index ->
   Some res = Return <$> last monitors).
Proof.
  cbv zeta. unfold setup_capture_target.
  assert (Hlen : (0 < length monitors)%nat) by (destruct monitors; simpl; [done | lia]).
  repeat split; intros Hidx.
  - replace (Z.max 0 _) with 0 by lia. simpl.
    rewrite <- head_lookup. by destruct monitors.
  - replace (Z.max 0 _) with monitor_index by lia.
    destruct (lookup_lt_is_Some_2 monitors (Z.to_nat monitor_index))
      as [m Hm]; [lia|]. by rewrite Hm.
  - replace (Z.max 0 _) with (Z.of_nat (length monitors) - 1) by lia.
    replace (Z.to_nat (Z.of_nat (length monitors) - 1))
      with (length monitors - 1)%nat by lia.
    rewrite Nat.sub_1_r, <- last_lookup.
    destruct (last monitors) eqn:E; [done|].
    apply last_None in E. done.
Qed.

(** The theorem at index [-1] and three monitors. *)
Lemma setup_capture_target_clamps_witness :
  Some (setup_capture_target None (-1) three_monitors)
    = Return <$> head three_monitors.
Proof.
  apply (proj1 (setup_capture_target_clamps (-1) three_monitors
                  ltac:(discriminate))).
  lia.
Defined.

End TargetFacts.

Module WebcamFacts.
Import Cameras Webcam MoreScenarios.

Lemma try_backends_appended dev i bs : forall acc found,
  try_backends dev i bs acc found
    = (acc ++ replicate (appended dev i bs) i, found || existsb (opens dev i) bs).
Proof.
  induction bs as [|b bs IH]; intros acc found; cbn [try_backends appended existsb].
  - by rewrite app_nil_r, orb_false_r.
  - unfold opens at 1. destruct (dev i b); cbn [replicate orb].
    + by rewrite orb_true_r.
    + rewrite IH, <- app_assoc. cbn [app]. by rewrite orb_true_r.
    + apply IH.
    + apply IH.
Qed.

Lemma appended_le dev i bs : (appended dev i bs <= length bs)%nat.
Proof.
  induction bs as [|b bs IH]; cbn [appended length]; [lia|].
  destruct (dev i b); lia.
Qed.

Lemma appended_pos dev i bs :
  (0 < appended dev i bs)%nat <-> existsb (opens dev i) bs = true.
Proof.
  induction bs as [|b bs IH]; cbn [appended existsb]; [split; [lia|done]|].
  unfold opens at 1. destruct (dev i b); cbn [orb]; try done; split; (lia || done).
Qed.

Lemma appended_once dev i bs :
  release_returns dev -> (appended dev i bs <= 1)%nat.
Proof.
  intros Hrel. induction bs as [|b bs IH]; cbn [appended]; [lia|].
  destruct (dev i b) eqn:E; try lia. by apply Hrel in E.
Qed.

Lemma probe_loop_least dev os n : forall i acc,
  (exists j, i <= j < i + Z.of_nat n /\ openable dev os j = true /\
             (forall k, i <= k < j -> openable dev os k = false) /\
             probe_loop dev os n i acc
               = acc ++ replicate (appended dev j (backends os)) j) \/
  ((forall k, i <= k < i + Z.of_nat n -> openable dev os k = false) /\
   probe_loop dev os n i acc = acc).
Proof.
  induction n as [|n IH]; intros i acc.
  - right. split; [intros; lia | reflexivity].
  - cbn [probe_loop]. rewrite try_backends_appended. cbn [orb].
    fold (openable dev os i).
    destruct (openable dev os i) eqn:Ho.
    + left. exists i. repeat split; try lia; try done; intros; lia.
    + assert (Hz : appended dev i (backends os) = 0%nat).
      { destruct (appended dev i (backends os)) eqn:E; [done|].
        assert (H : (0 < appended dev i (backends os))%nat) by lia.
        apply appended_pos in H. unfold openable in Ho. congruence. }
      rewrite Hz. cbn [replicate]. rewrite app_nil_r.
      destruct (IH (i + 1) acc) as [(j & Hj & Hoj & Hleast & Hres)|[Hnone Hres]].
      * left. exists j. repeat split; try lia; try done.
        intros k Hk. destruct (decide (k = i)) as [->|]; [done|].
        apply Hleast. lia.
      * right. split; [|done]. intros k Hk.
        destruct (decide (k = i)) as [->|]; [done|]. apply Hnone. lia.
Qed.

(** X9. [probe_cameras] reports only the lowest camera index below
    [max_index] that some backend opens: the result is empty exactly when
    there is none, and an index occurs in it exactly when it is that
    lowest one, so cameras with a higher index are never reported. The
    index is listed at most once per backend, and exactly once on a
    machine where no [release()] raises. *)
Theorem probe_cameras_least_openable :
  forall (dev : device_table) (os_is_nt : bool) (max_index : Z),
    (probe_cameras dev os_is_nt max_index = [] <->
     forall k, 0 <= k < max_index -> openable dev os_is_nt k = false) /\
    (forall i, i ∈ probe_cameras dev os_is_nt max_index <->
       0 <= i < max_index /\ openable dev os_is_nt i = true /\
       forall k, 0 <= k < i -> openable dev os_is_nt k = false) /\
    (length (probe_cameras dev os_is_nt max_index)
       <= length (backends os_is_nt))%nat /\
    (release_returns dev ->
     (length (probe_cameras dev os_is_nt max_index) <= 1)%nat).
Proof.
  intros dev os m. unfold probe_cameras.
  destruct (probe_loop_least dev os (Z.to_nat m) 0 [])
    as [(j & Hj & Hoj & Hleast & ->)|[Hnone ->]]; cbn [app].
  - assert (Hpos : (0 < appended dev j (backends os))%nat)
      by (by apply appended_pos).
    split_and!.
    + split.
      * destruct (appended dev j (backends os)); [lia|done].
      * intros Hall. rewrite Hall in Hoj by lia. discriminate.
    + intros i. rewrite elem_of_replicate. split.
      * intros [-> _]. split_and!; try lia; done.
      * intros (Hi & Hoi & Hli). split; [|lia].
        destruct (Z.lt_trichotomy i j) as [Hlt|[->|Hgt]]; [|done|].
        -- rewrite Hleast in Hoi by lia. discriminate.
        -- rewrite Hli in Hoj by lia. discriminate.
    + rewrite length_replicate. apply appended_le.
    + intros Hrel. rewrite length_replicate. by apply appended_once.
  - split_and!.
    + split; [|done]. intros _ k Hk. apply Hnone. lia.
    + intros i. split; [by intros ?%elem_of_nil|].
      intros (Hi & Hoi & _). rewrite Hnone in Hoi by lia. discriminate.
    + cbn [length]. lia.
    + cbn [length]. lia.
Qed.

Lemma open_first_openable dev os i :
  is_Some (open_first dev i (backends os)) <-> openable dev os i = true.
Proof.
  unfold openable. induction (backends os) as [|b bs IH]; simpl.
  - split; [intros [? [=]] | discriminate].
  - unfold opens at 1. destruct (dev i b); simpl; try done.
Qed.

(** X10. The index reported by [probe_cameras] is one that
    [_setup_webcam] can open on the same machine, which is how the window
    uses it ([var_webcam_index.set(cameras[0])]). *)
Theorem probed_camera_opens (dev : device_table) (os_is_nt : bool)
    (max_index i : Z) (rest : list Z)
    (Hprobe : probe_cameras dev os_is_nt max_index = i :: rest) :
  is_Some (setup_webcam dev os_is_nt true i).
Proof.
  unfold setup_webcam. simpl. apply open_first_openable.
  unfold probe_cameras in Hprobe.
  destruct (probe_loop_least dev os_is_nt (Z.to_nat max_index) 0 [])
    as [(j & Hj & Hoj & Hleast & Hres)|[Hnone Hres]];
    rewrite Hres in Hprobe; [|discriminate].
  cbn [app] in Hprobe.
  destruct (appended dev j (backends os_is_nt)); [discriminate|].
  cbn [replicate] in Hprobe. by injection Hprobe as <- _.
Qed.

(** The theorem on a Windows machine with cameras 2 and 4. *)
Lemma probed_camera_opens_witness :
  probe_cameras two_cameras true 6 = [2] /\
  is_Some (setup_webcam two_cameras true true 2).
Proof.
  split; [reflexivity|].
  apply (probed_camera_opens two_cameras true 6 2 []). reflexivity.
Defined.

End WebcamFacts.

(** ** Write thread: order of the frames written *)

Module WriterFacts.
Import Pipeline PipelineSpec SessionSpec WriterSpec PipelineFacts ControllerFacts.

Lemma written_app t1 t2 : written (t1 ++ t2) = written t1 ++ written t2.
Proof. unfold written. apply omap_app. Qed.

Lemma written_sink_writes batch : written (map SinkWrite batch) = batch.
Proof. induction batch as [|f b IH]; simpl; [done | by rewrite IH]. Qed.

Lemma written_status (st : option status) :
  written (match st with Some s => [EmitStatus s] | None => [] end) = [].
Proof. by destruct st. Qed.

(** One pass of the write loop, by what is at the head of the queue. *)
Lemma dedicated_write_iteration_run loc r :
  dedicated_write_iteration loc r =
    match frame_queue r with
    | [] =>
        (Return (Some {| frames_behind := frames_behind loc;
                         batch_write_buffer := [] |}),
         r,
         QGetTimeout (1 # 2) ::
           (if writer_open r then map SinkWrite (batch_write_buffer loc) else []))
    | None :: q => (Return None, set_queue q r, [QGetTimeout (1 # 2)])
    | Some f :: q =>
        let '(fb, em', st) :=
          adapt (buffer_size r) (Z.of_nat (length q))
            (frames_behind loc, emergency_mode r) in
        let batch := batch_write_buffer loc ++ [f] in
        let flush := (max_batch_size <=? Z.of_nat (length batch)) || em' in
        (Return (Some {| frames_behind := fb;
                         batch_write_buffer := if flush then [] else batch |}),
         set_emergency_mode em' (set_queue q r),
         QGetTimeout (1 # 2) :: QSizeCall ::
           match st with Some s => [EmitStatus s] | None => [] end ++
           (if flush && writer_open r then map SinkWrite batch else []))
    end.
Proof.
  unfold dedicated_write_iteration, try_except.
  rewrite bind_run. unfold q_get_timeout.
  destruct (frame_queue r) as [|[f|] q] eqn:Hq.
  - simpl. rewrite bind_run, write_batch_run.
    unfold mret, M_ret. simpl. rewrite app_nil_r. reflexivity.
  - rewrite bind_run, process_frame_run.
    change (buffer_size (set_queue q r)) with (buffer_size r).
    change (qsize (set_queue q r)) with (Z.of_nat (length q)).
    change (emergency_mode (set_queue q r)) with (emergency_mode r).
    change (writer_open (set_queue q r)) with (writer_open r).
    destruct (adapt (buffer_size r) (Z.of_nat (length q))
                (frames_behind loc, emergency_mode r)) as [[fb em'] st].
    unfold mret, M_ret. simpl. rewrite app_nil_r. reflexivity.
  - reflexivity.
Qed.

Lemma writer_tick_frame s loc f q :
  write_thread s = Running loc ->
  frame_queue (shared s) = Some f :: q ->
  writer_open (shared s) = true ->
  exists loc',
    write_thread (writer_tick s) = Running loc' /\
    frame_queue (shared (writer_tick s)) = q /\
    writer_open (shared (writer_tick s)) = true /\
    stop_event (shared (writer_tick s)) = stop_event (shared s) /\
    written (trace (writer_tick s)) ++ batch_write_buffer loc'
      = written (trace s) ++ batch_write_buffer loc ++ [f].
Proof.
  intros Hw Hq Ho. unfold writer_tick. rewrite Hw, Hq.
  rewrite bool_decide_false by done. rewrite andb_false_r.
  rewrite dedicated_write_iteration_run, Hq, Ho.
  destruct (adapt _ _ _) as [[fb em'] st].
  cbv zeta. eexists. cbn [write_thread shared trace].
  split; [reflexivity|]. split; [reflexivity|]. split; [exact Ho|].
  split; [reflexivity|].
  rewrite !written_app. cbn [batch_write_buffer].
  assert (Hstop : written (if stop_event (shared s) then [QEmptyCall] else []) = [])
    by (by destruct (stop_event (shared s))).
  rewrite Hstop. cbn [app].
  change (QGetTimeout (1 # 2) :: QSizeCall :: ?l)
    with ([QGetTimeout (1 # 2); QSizeCall] ++ l).
  rewrite !written_app, written_status.
  change (written [QGetTimeout (1 # 2); QSizeCall]) with (@nil frame_data).
  rewrite andb_true_r. cbn [app].
  destruct ((max_batch_size <=?
               Z.of_nat (length (batch_write_buffer loc ++ [f]))) || em').
  - rewrite written_sink_writes, app_nil_r. reflexivity.
  - change (written []) with (@nil frame_data).
    rewrite app_nil_r. reflexivity.
Qed.

Lemma writer_tick_empty s loc :
  write_thread s = Running loc ->
  frame_queue (shared s) = [] ->
  writer_open (shared s) = true ->
  idle (writer_tick s) /\
  stop_event (shared (writer_tick s)) = stop_event (shared s) /\
  written (trace (writer_tick s)) = written (trace s) ++ batch_write_buffer loc.
Proof.
  intros Hw Hq Ho. unfold writer_tick, idle. rewrite Hw, Hq.
  rewrite bool_decide_true by done. rewrite andb_true_r.
  destruct (stop_event (shared s)) eqn:Hstop.
  - unfold writer_exit, final_flush. rewrite write_batch_run, Ho.
    cbn [shared trace write_thread].
    rewrite !written_app, written_sink_writes.
    change (written [QEmptyCall]) with (@nil frame_data).
    rewrite Hq, Ho, app_nil_r. repeat split; eauto.
  - rewrite dedicated_write_iteration_run, Hq, Ho.
    cbn [shared trace write_thread].
    rewrite Hq, Ho, Hstop. cbn [app].
    change (QGetTimeout (1 # 2) :: ?l) with ([QGetTimeout (1 # 2)] ++ l).
    rewrite !written_app, written_sink_writes.
    change (written [QGetTimeout (1 # 2)]) with (@nil frame_data).
    repeat split; eauto. discriminate.
Qed.

Lemma writer_tick_idle s :
  idle s ->
  idle (writer_tick s) /\
  stop_event (shared (writer_tick s)) = stop_event (shared s) /\
  written (trace (writer_tick s)) = written (trace s).
Proof.
  intros (Hq & Ho & [Hex|(loc & Hw & Hb)] & Hstop).
  - unfold writer_tick. rewrite Hex. repeat split; eauto.
  - destruct (writer_tick_empty s loc Hw Hq Ho) as (Hidle & Hs & Hwr).
    rewrite Hb, app_nil_r in Hwr. done.
Qed.

Lemma idle_ticks n : forall s,
  idle s ->
  idle (run s (replicate n WriterTick)) /\
  stop_event (shared (run s (replicate n WriterTick))) = stop_event (shared s) /\
  written (trace (run s (replicate n WriterTick))) = written (trace s).
Proof.
  induction n as [|n IH]; intros s Hidle; [done|].
  cbn [replicate run fold_left step].
  destruct (writer_tick_idle s Hidle) as (Hidle' & Hs & Hwr).
  destruct (IH (writer_tick s) Hidle') as (H1 & H2 & H3).
  unfold run in *. split; [done|]. split; congruence.
Qed.

(** *** A pass in which calls raise *)

Lemma write_batch_raising_shape ft batch : forall n r,
  exists n' ok pre,
    write_batch_raising ft n batch r = (Return (n', ok), r, map SinkWrite pre).
Proof.
  induction batch as [|f batch IH]; intros n r; cbn [write_batch_raising].
  - by exists n, true, [].
  - rewrite bind_run. unfold get_field.
    destruct (writer_open r).
    + destruct (write_raises ft n).
      * by exists (S n), false, [].
      * rewrite bind_run. unfold emit.
        destruct (IH (S n) r) as (n' & ok & pre & ->).
        by exists n', ok, (f :: pre).
    + destruct (IH n r) as (n' & ok & pre & ->).
      by exists n', ok, pre.
Qed.

(** With an open sink: [m] frames are written, then the loop has ended or
    the next call raised. *)
Lemma write_batch_raising_open ft batch : forall n r,
  writer_open r = true ->
  exists (m : nat) (ok : bool),
    (m <= length batch)%nat /\
    write_batch_raising ft n batch r
      = (Return ((if ok then n + m else S (n + m))%nat, ok), r,
         map SinkWrite (take m batch)) /\
    (forall j, (j < m)%nat -> write_raises ft (n + j) = false) /\
    (if ok then m = length batch
     else (m < length batch)%nat /\ write_raises ft (n + m) = true).
Proof.
  induction batch as [|f batch IH]; intros n r Hw; cbn [write_batch_raising].
  - exists 0%nat, true. rewrite Nat.add_0_r. split_and!; try done. intros; lia.
  - rewrite bind_run. unfold get_field. rewrite Hw.
    destruct (write_raises ft n) eqn:Hn.
    + exists 0%nat, false. rewrite Nat.add_0_r. cbn [length].
      split_and!; try done; try lia; intros; lia.
    + rewrite bind_run. unfold emit.
      destruct (IH (S n) r Hw) as (m & ok & Hm & -> & Hbefore & Hend).
      exists (S m), ok. cbn [length take map].
      replace (n + S m)%nat with (S n + m)%nat by lia.
      split_and!; try done; try lia.
      * intros [|j] Hj; [by rewrite Nat.add_0_r|].
        replace (n + S j)%nat with (S n + j)%nat by lia. apply Hbefore. lia.
      * destruct ok; [lia|]. destruct Hend. split; [lia|done].
Qed.

Lemma write_batch_raising_clean ft batch n r :
  (forall j, write_raises ft j = false) ->
  exists n',
    write_batch_raising ft n batch r
      = (Return (n', true), r,
         if writer_open r then map SinkWrite batch else []).
Proof.
  intros Hft. destruct (writer_open r) eqn:Hw.
  - destruct (write_batch_raising_open ft batch n r Hw)
      as (m & ok & Hm & -> & _ & Hend).
    destruct ok.
    + subst m. rewrite firstn_all. eauto.
    + destruct Hend as [_ Hend]. by rewrite Hft in Hend.
  - revert n. induction batch as [|f batch IH]; intros n;
      cbn [write_batch_raising]; [eauto|].
    rewrite bind_run. unfold get_field. rewrite Hw.
    destruct (IH n) as [n' ->]. by exists n'.
Qed.

(** The statements after a frame was received, by what raises. *)
Lemma process_frame_raising_run ft f loc r :
  process_frame_raising ft f loc r =
    let '(fb, em', st) :=
      adapt (buffer_size r) (qsize r) (frames_behind loc, emergency_mode r) in
    let r1 := set_emergency_mode em' r in
    let t1 := QSizeCall :: match st with Some s => [EmitStatus s] | None => [] end in
    let batch := batch_write_buffer loc ++ [f] in
    if negb em' && overlay_raises ft
    then (Return (Break 0 {| frames_behind := fb;
                             batch_write_buffer := batch_write_buffer loc |}),
          r1, t1 ++ [EmitStatus StWriteError])
    else if (max_batch_size <=? Z.of_nat (length batch)) || em'
    then match write_batch_raising ft 0 batch r1 with
         | (Return (n, true), r2, t2) =>
             (Return (Continue {| frames_behind := fb; batch_write_buffer := [] |}),
              r2, t1 ++ t2)
         | (Return (n, false), r2, t2) =>
             (Return (Break n {| frames_behind := fb; batch_write_buffer := batch |}),
              r2, t1 ++ t2 ++ [EmitStatus StWriteError])
         | (Raise e, r2, t2) => (Raise e, r2, t1 ++ t2)
         end
    else (Return (Continue {| frames_behind := fb; batch_write_buffer := batch |}),
          r1, t1).
Proof.
  unfold process_frame_raising.
  rewrite bind_run. unfold q_qsize. rewrite bind_run. unfold get_field at 1.
  rewrite bind_run. unfold get_field at 1.
  destruct (adapt (buffer_size r) (qsize r) (frames_behind loc, emergency_mode r))
    as [[fb em'] st].
  cbv zeta. rewrite bind_run. unfold modify. rewrite bind_run.
  assert (Hst : (match st with
                 | Some s0 => emit_status s0
                 | None => mret tt
                 end) (set_emergency_mode em' r)
                = (Return tt, set_emergency_mode em' r,
                   match st with Some s0 => [EmitStatus s0] | None => [] end))
    by (by destruct st).
  rewrite Hst. clear Hst.
  destruct (negb em' && overlay_raises ft).
  { rewrite bind_run. unfold emit_status, emit, mret, M_ret.
    cbn [app]. by rewrite ?app_nil_r. }
  destruct ((max_batch_size <=? Z.of_nat (length (batch_write_buffer loc ++ [f])))
            || em').
  2:{ unfold mret, M_ret. cbn [app]. by rewrite ?app_nil_r. }
  rewrite bind_run.
  destruct (write_batch_raising ft 0 (batch_write_buffer loc ++ [f])
              (set_emergency_mode em' r)) as [[[[n ok]|e] r2] t2]; [|done].
  destruct ok.
  - unfold mret, M_ret. cbn [app]. by rewrite ?app_nil_r.
  - rewrite bind_run. unfold emit_status, emit, mret, M_ret.
    cbn [app]. by rewrite ?app_nil_r.
Qed.

(** One pass, by what is at the head of the queue. *)
Lemma write_pass_raising_run ft loc r :
  write_pass_raising ft loc r =
    match frame_queue r with
    | [] =>
        match write_batch_raising ft 0 (batch_write_buffer loc) r with
        | (Return (n, true), r2, t2) =>
            (Return (Continue {| frames_behind := frames_behind loc;
                                 batch_write_buffer := [] |}),
             r2, QGetTimeout (1 # 2) :: t2)
        | (Return (n, false), r2, t2) =>
            (Return Escaped, r2, QGetTimeout (1 # 2) :: t2)
        | (Raise e, r2, t2) => (Raise e, r2, QGetTimeout (1 # 2) :: t2)
        end
    | None :: q => (Return (Break 0 loc), set_queue q r, [QGetTimeout (1 # 2)])
    | Some f :: q =>
        match process_frame_raising ft f loc (set_queue q r) with
        | (res, r2, t2) => (res, r2, QGetTimeout (1 # 2) :: t2)
        end
    end.
Proof.
  unfold write_pass_raising, try_except. rewrite bind_run. unfold q_get_timeout.
  destruct (frame_queue r) as [|[f|] q] eqn:Hq.
  - cbn [catch_empty]. rewrite bind_run.
    destruct (write_batch_raising_shape ft (batch_write_buffer loc) 0 r)
      as (n' & ok & pre & ->).
    destruct ok; unfold mret, M_ret; cbn [app]; by rewrite ?app_nil_r.
  - rewrite process_frame_raising_run.
    change (buffer_size (set_queue q r)) with (buffer_size r).
    change (emergency_mode (set_queue q r)) with (emergency_mode r).
    destruct (adapt (buffer_size r) (qsize (set_queue q r))
                (frames_behind loc, emergency_mode r)) as [[fb em'] st].
    cbv zeta.
    destruct (negb em' && overlay_raises ft); [done|].
    destruct ((max_batch_size <=? Z.of_nat (length (batch_write_buffer loc ++ [f])))
              || em'); [|done].
    destruct (write_batch_raising_shape ft (batch_write_buffer loc ++ [f]) 0
                (set_emergency_mode em' (set_queue q r)))
      as (n' & ok & pre & ->).
    by destruct ok.
  - reflexivity.
Qed.

(** When nothing raises, a faulty turn is an ordinary turn. *)
Lemma writer_tick_raising_clean ft s :
  overlay_raises ft = false ->
  (forall j, write_raises ft j = false) ->
  writer_tick_raising ft s = writer_tick s.
Proof.
  intros Hov Hwr. unfold writer_tick_raising, writer_tick.
  destruct (write_thread s) as [loc|]; [|done].
  assert (Hexit : forall n loc r t,
             writer_exit_raising ft n loc r t s = writer_exit loc r t s).
  { intros n loc0 r t. unfold writer_exit_raising, writer_exit, final_flush.
    destruct (write_batch_raising_clean ft (batch_write_buffer loc0) n r Hwr)
      as [n' ->].
    by rewrite write_batch_run. }
  destruct (stop_event (shared s) && bool_decide (frame_queue (shared s) = []));
    [apply Hexit|].
  rewrite write_pass_raising_run, dedicated_write_iteration_run.
  destruct (frame_queue (shared s)) as [|[f|] q].
  - destruct (write_batch_raising_clean ft (batch_write_buffer loc) 0
                (shared s) Hwr) as [n' ->].
    done.
  - rewrite process_frame_raising_run.
    change (buffer_size (set_queue q (shared s))) with (buffer_size (shared s)).
    change (emergency_mode (set_queue q (shared s)))
      with (emergency_mode (shared s)).
    change (qsize (set_queue q (shared s))) with (Z.of_nat (length q)).
    destruct (adapt (buffer_size (shared s)) (Z.of_nat (length q))
                (frames_behind loc, emergency_mode (shared s)))
      as [[fb em'] st].
    cbv zeta. rewrite Hov, andb_false_r.
    destruct ((max_batch_size <=? Z.of_nat (length (batch_write_buffer loc ++ [f])))
              || em'); cbn [andb].
    + destruct (write_batch_raising_clean ft (batch_write_buffer loc ++ [f]) 0
                  (set_emergency_mode em' (set_queue q (shared s))) Hwr)
        as [n' ->].
      change (writer_open (set_emergency_mode em' (set_queue q (shared s))))
        with (writer_open (shared s)).
      done.
    + by rewrite app_nil_r.
  - apply Hexit.
Qed.

Lemma drains_in_order (frames : list frame_data) :
  forall (s : session) (loc : writer_locals) (n : nat),
    write_thread s = Running loc ->
    writer_open (shared s) = true ->
    frame_queue (shared s) = map Some frames ->
    (length frames < n)%nat ->
    let s' := run s (replicate n WriterTick) in
    written (trace s')
      = written (trace s) ++ batch_write_buffer loc ++ frames /\
    frame_queue (shared s') = [] /\
    (stop_event (shared s) = true -> write_thread s' = Exited).
Proof.
  induction frames as [|f frames IH]; intros s loc n Hw Ho Hq Hn;
    (destruct n as [|n]; [simpl in Hn; lia|]);
    cbn zeta; cbn [replicate run fold_left step].
  - destruct (writer_tick_empty s loc Hw Hq Ho) as (Hidle & Hs & Hwr).
    destruct (idle_ticks n (writer_tick s) Hidle)
      as ((Hq' & _ & _ & Hex) & Hs' & Hwr').
    unfold run in *. rewrite Hwr', Hwr, app_nil_r.
    repeat split; [done|]. intros Hstop. apply Hex. congruence.
  - destruct (writer_tick_frame s loc f (map Some frames) Hw Hq Ho)
      as (loc' & Hw' & Hq' & Ho' & Hs' & Hwr).
    destruct (IH (writer_tick s) loc' n Hw' Ho' Hq') as (H1 & H2 & H3);
      [simpl in Hn; lia|].
    unfold run in *. cbn zeta in *.
    rewrite H1, app_assoc, Hwr, <- !app_assoc. cbn [app].
    repeat split; [done|]. intros Hstop. apply H3. congruence.
Qed.

Lemma clean_turns_run es : forall s,
  Forall clean_turn es -> run s es = run s (replicate (length es) WriterTick).
Proof.
  induction es as [|e es IH]; intros s Hes; [done|].
  apply Forall_cons in Hes as [He Hes].
  cbn [length replicate run fold_left].
  assert (step s e = step s WriterTick) as ->.
  { destruct e as [| | | | |ft]; try done.
    destruct He as [Hov Hwr]. cbn [step]. by apply writer_tick_raising_clean. }
  apply IH, Hes.
Qed.

(** X11. As long as nothing raises, the write thread is first-in first-out
    and loses nothing: given an open sink, a queue of frames and enough
    turns of the thread (one more than the queue is long), in none of which
    the overlay compositing or a call of [_writer.write] raises, it writes
    the frames of its pending batch and then the queued frames, each once
    and in queue order, whether it batches or writes frame by frame; the
    queue ends empty, and if stop was signalled the thread has exited. *)
Theorem write_thread_drains_in_order (frames : list frame_data) :
  forall (s : session) (loc : writer_locals) (es : list event),
    write_thread s = Running loc ->
    writer_open (shared s) = true ->
    frame_queue (shared s) = map Some frames ->
    (length frames < length es)%nat ->
    Forall clean_turn es ->
    let s' := run s es in
    written (trace s')
      = written (trace s) ++ batch_write_buffer loc ++ frames /\
    frame_queue (shared s') = [] /\
    (stop_event (shared s) = true -> write_thread s' = Exited).
Proof.
  intros s loc es Hw Ho Hq Hn Hes. cbv zeta.
  rewrite (clean_turns_run es s Hes).
  by apply (drains_in_order frames s loc (length es)).
Qed.

(** The theorem at a backlog of three queued frames behind a batch of one,
    with stop signalled. *)
Lemma write_thread_drains_in_order_witness :
  frame_number <$>
    written (trace (run (WriterSpec.writer_backlog 3 true)
                        [WriterTick; WriterFault no_fault; WriterTick; WriterTick]))
    = [0; 1; 2; 3].
Proof.
  pose proof (write_thread_drains_in_order
                (omap id (frame_queue (shared (WriterSpec.writer_backlog 3 true))))
                (WriterSpec.writer_backlog 3 true) _
                [WriterTick; WriterFault no_fault; WriterTick; WriterTick]
                eq_refl eq_refl eq_refl ltac:(simpl; lia)
                ltac:(repeat constructor)) as [H _].
  cbn zeta in H. rewrite H. reflexivity.
Defined.

Lemma exited_writer_stays es : forall s,
  write_thread s = Exited -> Forall writer_turn es -> run s es = s.
Proof.
  induction es as [|e es IH]; intros s Hex Hes; [done|].
  apply Forall_cons in Hes as [He Hes]. cbn [run fold_left].
  assert (step s e = s) as ->.
  { destruct e as [| | | | |ft]; try done; cbn [step].
    - unfold writer_tick. by rewrite Hex.
    - unfold writer_tick_raising. by rewrite Hex. }
  by apply IH.
Qed.

(** X26. A call of [_writer.write] that raises while a batch is written
    ends the write thread with frames written twice and frames lost: the
    handler breaks out of the loop with the batch not cleared, so the final
    flush writes the batch again from its first frame (all of it when no
    later call raises), and the frames still queued are never written,
    whatever turns the thread is given afterwards. *)
Theorem raising_write_repeats_batch
    (s : session) (loc : writer_locals) (f : frame_data) (q : list item)
    (ft : write_fault) (k : nat)
    (Hw : write_thread s = Running loc)
    (Ho : writer_open (shared s) = true)
    (Hq : frame_queue (shared s) = Some f :: q)
    (Hfull : max_batch_size <= Z.of_nat (length (batch_write_buffer loc ++ [f])))
    (Hov : overlay_raises ft = false)
    (Hk : (k < length (batch_write_buffer loc ++ [f]))%nat)
    (Hbefore : forall j, (j < k)%nat -> write_raises ft j = false)
    (Hraise : write_raises ft k = true) :
  let batch := batch_write_buffer loc ++ [f] in
  let s' := step s (WriterFault ft) in
  write_thread s' = Exited /\
  frame_queue (shared s') = q /\
  (exists m : nat,
      (m <= length batch)%nat /\
      written (trace s') = written (trace s) ++ take k batch ++ take m batch /\
      ((forall j, (k < j)%nat -> write_raises ft j = false) -> m = length batch)) /\
  (forall es, Forall writer_turn es -> run s' es = s').
Proof.
  cbv zeta.
  assert (Hstep : write_thread (step s (WriterFault ft)) = Exited /\
            frame_queue (shared (step s (WriterFault ft))) = q /\
            exists m : nat,
              (m <= length (batch_write_buffer loc ++ [f]))%nat /\
              written (trace (step s (WriterFault ft)))
                = written (trace s) ++ take k (batch_write_buffer loc ++ [f])
                    ++ take m (batch_write_buffer loc ++ [f]) /\
              ((forall j, (k < j)%nat -> write_raises ft j = false) ->
               m = length (batch_write_buffer loc ++ [f]))).
  { cbn [step]. unfold writer_tick_raising. rewrite Hw, Hq.
    rewrite bool_decide_false by done. rewrite andb_false_r.
    rewrite write_pass_raising_run, Hq, process_frame_raising_run.
    destruct (adapt _ _ _) as [[fb em'] st]. cbv zeta.
    rewrite Hov, andb_false_r.
    assert ((max_batch_size <=? Z.of_nat (length (batch_write_buffer loc ++ [f])))
            = true) as -> by (by apply Z.leb_le).
    cbn [orb].
    destruct (write_batch_raising_open ft (batch_write_buffer loc ++ [f]) 0
                (set_emergency_mode em' (set_queue q (shared s))) Ho)
      as (m0 & ok & Hm0 & -> & Hb0 & Hend0).
    assert (Hfail : ok = false /\ m0 = k).
    { destruct ok.
      - subst m0. specialize (Hb0 k Hk). simpl in Hb0. congruence.
      - destruct Hend0 as [Hlt Hr]. simpl in Hr. split; [done|].
        destruct (Nat.lt_trichotomy m0 k) as [Hlt'|[->|Hgt]]; [|done|].
        + rewrite Hbefore in Hr by done. discriminate.
        + specialize (Hb0 k Hgt). simpl in Hb0. congruence. }
    destruct Hfail as [-> ->]. clear Hend0 Hb0 Hm0.
    unfold writer_exit_raising. cbn [batch_write_buffer].
    destruct (write_batch_raising_open ft (batch_write_buffer loc ++ [f])
                (S (0 + k)) (set_emergency_mode em' (set_queue q (shared s))) Ho)
      as (m & ok & Hm & -> & Hb & Hend).
    assert (Hwritten :
              written (trace s ++
                 (if stop_event (shared s) then [QEmptyCall] else []) ++
                 QGetTimeout (1 # 2) ::
                   (QSizeCall :: match st with
                                 | Some s0 => [EmitStatus s0]
                                 | None => []
                                 end) ++
                   map SinkWrite (take k (batch_write_buffer loc ++ [f])) ++
                   [EmitStatus StWriteError])
              = written (trace s) ++ take k (batch_write_buffer loc ++ [f])).
    { rewrite written_app. f_equal.
      rewrite written_app.
      assert (written (if stop_event (shared s) then [QEmptyCall] else []) = [])
        as -> by (by destruct (stop_event (shared s))).
      cbn [app].
      change (QGetTimeout (1 # 2) :: QSizeCall :: ?l)
        with ([QGetTimeout (1 # 2); QSizeCall] ++ l).
      rewrite !written_app, written_status, written_sink_writes.
      cbn. by rewrite app_nil_r. }
    destruct ok; cbn [write_thread shared frame_queue set_emergency_mode set_queue trace].
    - split; [done|]. split; [done|]. exists m. split; [done|].
      split; [|intros _; exact Hend].
      rewrite written_app, Hwritten, written_sink_writes, <- app_assoc. done.
    - split; [done|]. split; [done|]. exists m. split; [done|].
      destruct Hend as [Hlt Hr]. split.
      + rewrite written_app, Hwritten, written_app, written_sink_writes.
        cbn. by rewrite app_nil_r, <- app_assoc.
      + intros Hlater. rewrite Hlater in Hr by lia. discriminate. }
  destruct Hstep as (Hex & Hq' & Hm).
  split_and!; try done.
  intros es Hes. by apply exited_writer_stays.
Qed.

(** The theorem on a batch of five whose third write raises once: frames
    0 and 1 are written twice, then the whole batch; frame 5 stays queued
    and the thread has ended. *)
Lemma raising_write_repeats_batch_witness :
  write_thread (step WriterSpec.full_batch (WriterFault (raises_once 2))) = Exited /\
  frame_number <$>
    written (trace (step WriterSpec.full_batch (WriterFault (raises_once 2))))
    = [0; 1; 0; 1; 2; 3; 4].
Proof.
  destruct (raising_write_repeats_batch WriterSpec.full_batch
              {| frames_behind := 0;
                 batch_write_buffer :=
                   map (fun k => {| frame_number := k; timestamp := k # 30;
                                    is_key_frame := k =? 0 |}) [0; 1; 2; 3] |}
              {| frame_number := 4; timestamp := 4 # 30; is_key_frame := false |}
              [Some {| frame_number := 5; timestamp := 5 # 30;
                       is_key_frame := false |}]
              (raises_once 2) 2)
    as (Hex & _ & _ & _); try reflexivity; try (simpl; lia).
  - intros [|[|j]] Hj; (reflexivity || lia).
  - split; [exact Hex | reflexivity].
Defined.

End WriterFacts.

(** ** Session invariants *)

Module SessionFacts.
Import Pipeline PipelineSpec SessionSpec SessionSpec2 PipelineFacts ControllerFacts WriterFacts.

(** *** Invariants of monadic code *)

Section Keeps.
Context (I : recorder -> Prop).

Lemma keeps_ret {A} (a : A) : keeps I (mret a).
Proof. by intros r. Qed.

Lemma keeps_raise {A} e : keeps I (raise (A:=A) e).
Proof. by intros r. Qed.

Lemma keeps_get_field {A} (f : recorder -> A) : keeps I (get_field f).
Proof. by intros r. Qed.

Lemma keeps_emit e : keeps I (emit e).
Proof. by intros r. Qed.

Lemma keeps_modify f : (forall r, I r -> I (f r)) -> keeps I (modify f).
Proof. intros Hf r Hr. by apply Hf. Qed.

Lemma keeps_bind {A B} (m : M A) (k : A -> M B) :
  keeps I m -> (forall a, keeps I (k a)) -> keeps I (m ≫= k).
Proof.
  intros Hm Hk r Hr. rewrite bind_run. specialize (Hm r Hr).
  destruct (m r) as [[[a|e] r1] t1]; simpl in *; [|done].
  specialize (Hk a r1 Hm). by destruct (k a r1) as [[b r2] t2].
Qed.

Lemma keeps_try {A} (m h : M A) c :
  keeps I m -> keeps I h -> keeps I (try_except m c h).
Proof.
  intros Hm Hh r Hr. unfold try_except. specialize (Hm r Hr).
  destruct (m r) as [[[a|e] r1] t1]; simpl in *; [done|].
  destruct (c e); [|done].
  specialize (Hh r1 Hm). by destruct (h r1) as [[b r2] t2].
Qed.

Lemma keeps_if {A} (b : bool) (m1 m2 : M A) :
  keeps I m1 -> keeps I m2 -> keeps I (if b then m1 else m2).
Proof. by destruct b. Qed.

End Keeps.

(** *** The queue bound *)

Lemma bounded_set_queue q r :
  0 < maxsize r -> Z.of_nat (length q) <= maxsize r -> bounded (set_queue q r).
Proof. by split. Qed.

Lemma keeps_bounded_put x : keeps bounded (q_put_nowait x).
Proof.
  intros r [Hmax Hb]. unfold q_put_nowait.
  destruct (full r) eqn:Hf; simpl; [done|].
  apply bounded_set_queue; [done|].
  unfold full in Hf. apply andb_false_iff in Hf as [Hf|Hf]; [lia|].
  apply Z.leb_gt in Hf. unfold qsize in Hf.
  rewrite length_app. simpl. lia.
Qed.

Lemma keeps_bounded_get : keeps bounded q_get_nowait.
Proof.
  intros r [Hmax Hb]. unfold q_get_nowait.
  destruct (frame_queue r) as [|x q] eqn:Hq; simpl; [done|].
  apply bounded_set_queue; [done|].
  unfold qsize in Hb. rewrite Hq in Hb. simpl in Hb. lia.
Qed.

Lemma keeps_bounded_incr : keeps bounded incr_dropped.
Proof. apply keeps_modify. by intros r. Qed.

Lemma keeps_bounded_scan room : forall temp,
  keeps bounded (scan_for_non_key room temp).
Proof.
  induction room as [|room IH]; intros temp; simpl.
  - apply keeps_bind; [by intros r|]. intros []; apply keeps_ret.
  - apply keeps_bind; [by intros r|]. intros []; [apply keeps_ret|].
    apply keeps_bind; [apply keeps_bounded_get|]. intros old.
    apply keeps_bind.
    { destruct old; [apply keeps_ret | apply keeps_raise]. }
    intros []; [apply IH | apply keeps_ret].
Qed.

Lemma keeps_bounded_put_back temp : keeps bounded (put_back temp).
Proof.
  induction temp as [|x temp IH]; simpl; [apply keeps_ret|].
  apply keeps_bind; [apply keeps_bounded_put | done].
Qed.

Lemma keeps_bounded_smart_drop f : keeps bounded (smart_drop f).
Proof.
  apply keeps_try; [|apply keeps_bounded_incr].
  apply keeps_bind; [apply keeps_bounded_scan|]. intros [d temp].
  apply keeps_bind; [apply keeps_bounded_put_back|]. intros _.
  apply keeps_bind; [apply keeps_bounded_put|]. intros _.
  apply keeps_if; apply keeps_bounded_incr.
Qed.

(** *** Traces without grabs and capture errors *)

Lemma count_app p t1 t2 : count p (t1 ++ t2) = count p t1 + count p t2.
Proof. induction t1 as [|e t1 IH]; simpl; [done | rewrite IH; lia]. Qed.

Lemma count_quiet t :
  Forall quiet t -> grabs t = 0 /\ capture_errors t = 0.
Proof.
  unfold grabs, capture_errors.
  induction 1 as [|e t [Hg He] _ [IH1 IH2]]; simpl; [done|].
  rewrite Hg, He. lia.
Qed.

Lemma quiet_scan room : forall temp, traces quiet (scan_for_non_key room temp).
Proof.
  induction room as [|room IH]; intros temp; simpl.
  - apply traces_bind; [by apply traces_emit|].
    intros []; apply traces_ret.
  - apply traces_bind; [intros r; by repeat constructor|].
    intros []; [apply traces_ret|].
    apply traces_bind.
    { intros r. unfold q_get_nowait. destruct (frame_queue r); by repeat constructor. }
    intros old. apply traces_bind.
    { destruct old; [apply traces_ret | apply traces_raise]. }
    intros []; [apply IH | apply traces_ret].
Qed.

Lemma quiet_put x : traces quiet (q_put_nowait x).
Proof.
  intros r. unfold q_put_nowait. destruct (full r); by repeat constructor.
Qed.

Lemma quiet_put_back temp : traces quiet (put_back temp).
Proof.
  induction temp as [|x temp IH]; simpl; [apply traces_ret|].
  apply traces_bind; [apply quiet_put | done].
Qed.

Lemma quiet_smart_drop f : traces quiet (smart_drop f).
Proof.
  apply traces_try; [|apply traces_modify].
  apply traces_bind; [apply quiet_scan|]. intros [d temp].
  apply traces_bind; [apply quiet_put_back|]. intros _.
  apply traces_bind; [apply quiet_put|]. intros _.
  apply traces_if; apply traces_modify.
Qed.

Lemma emergency_log_quiet now loc r :
  exists loc1 t,
    emergency_log now loc r = (Return loc1, r, t) /\
    next_frame_time loc1 = next_frame_time loc /\ Forall quiet t.
Proof.
  unfold emergency_log. rewrite bind_run. simpl.
  destruct ((dropped_frames r mod 10 =? 0) &&
            negb (Qle_bool (now - last_emergency_log loc) 5)); simpl.
  - eexists _, _. split; [reflexivity|]. split; [reflexivity|].
    by repeat constructor.
  - eexists _, _. split; [reflexivity|]. split; [reflexivity|]. constructor.
Qed.

(** *** One pass of the capture loop *)

(** What a pass does to the counters, the trace and the next target
    instant: [c] tells whether a frame was captured, [e] whether the grab
    failed. *)
Lemma capture_iteration_effect now ok loc r :
  exists (c e : bool),
    let '(res, r', t) := dedicated_capture_iteration now ok loc r in
    grabs t = Z.b2z c + Z.b2z e /\
    capture_errors t = Z.b2z e /\
    frame_count r' + dropped_frames r' = frame_count r + dropped_frames r + Z.b2z c /\
    same_config r r' /\
    (bounded r -> bounded r') /\
    (forall loc', res = Return (Some loc') ->
       next_frame_time loc'
         = if c then (next_frame_time loc + frame_interval r)%Q
           else next_frame_time loc).
Proof.
  unfold dedicated_capture_iteration.
  destruct (Qle_bool (next_frame_time loc - tolerance) now).
  2:{ exists false, false.
      destruct (negb (Qle_bool (next_frame_time loc - now) 0)); simpl;
        split_and!; try done; try lia; try (by intros ? [= <-]). }
  destruct ok.
  2:{ exists false, true. simpl. split_and!; try done; lia. }
  exists true, false.
  unfold try_except. rewrite bind_run.
  destruct (full r) eqn:Hfull.
  - (* the queue is full: the drop policy *)
    destruct (smart_drop_counts_one (new_frame r now) r) as (r1 & t1 & Hsd & Hsame).
    pose proof (quiet_smart_drop (new_frame r now) r) as Hq1.
    pose proof (keeps_bounded_smart_drop (new_frame r now) r) as Hb1.
    rewrite Hsd in Hq1, Hb1. simpl in Hq1, Hb1.
    destruct (emergency_log_quiet now loc
                (set_dropped_frames (dropped_frames r + 1) r1))
      as (loc1 & t2 & Hlog & Hnext & Hq2).
    assert (Hcf : capture_frame now true loc r
                  = (Return {| next_frame_time :=
                                 (next_frame_time loc1 + frame_interval r1)%Q;
                               last_emergency_log := last_emergency_log loc1 |},
                     set_dropped_frames (dropped_frames r + 1) r1,
                     Grab :: QPutNowait :: t1 ++ t2)).
    { unfold capture_frame, try_except, mbind, M_bind, emit, get_field, modify,
        q_put_nowait, mret, M_ret.
      rewrite Hfull. unfold new_frame in Hsd. simpl. rewrite Hsd, Hlog.
      simpl. rewrite app_nil_r. reflexivity. }
    rewrite Hcf. simpl.
    destruct Hsame as (Hbs & Hiv & Hfc & Hd & Hem & Hwo & Hst).
    destruct (count_quiet (t1 ++ t2)) as [Hg He]; [by apply Forall_app|].
    unfold grabs, capture_errors in *. cbn [count is_grab is_capture_error].
    rewrite app_nil_r, Hg, He.
    split_and!; try done; try lia.
    intros loc' [= <-]. simpl. congruence.
  - (* room in the queue *)
    assert (Hcf : capture_frame now true loc r
                  = (Return {| next_frame_time :=
                                 (next_frame_time loc + frame_interval r)%Q;
                               last_emergency_log := last_emergency_log loc |},
                     set_frame_count (frame_count r + 1)
                       (set_queue (frame_queue r ++ [Some (new_frame r now)]) r),
                     [Grab; QPutNowait])).
    { unfold capture_frame, try_except, mbind, M_bind, emit, get_field, modify,
        q_put_nowait, mret, M_ret.
      rewrite Hfull. reflexivity. }
    rewrite Hcf. simpl.
    split_and!; try done; try lia.
    + intros [Hmax Hb].
      pose proof (keeps_bounded_put (Some (new_frame r now)) r (conj Hmax Hb)) as H.
      unfold q_put_nowait in H. rewrite Hfull in H. exact H.
    + intros loc' [= <-]. reflexivity.
Qed.

(** *** The other events *)

Lemma quiet_sink_writes batch : Forall quiet (map SinkWrite batch).
Proof. induction batch; simpl; by repeat constructor. Qed.

Lemma adapt_status bs q c :
  (adapt bs q c).2 = None \/ (adapt bs q c).2 = Some StAdaptiveMode \/
  (adapt bs q c).2 = Some StFullQuality.
Proof.
  unfold adapt. destruct c as [fb em].
  destruct (above_high_water bs q).
  - destruct ((3 <? fb + 1) && negb em); simpl; auto.
  - destruct ((Z.max 0 (fb - 1) =? 0) && em); simpl; auto.
Qed.

Lemma off_capture_refl s : off_capture s s.
Proof.
  unfold off_capture, same_config. split_and!; try done; try (by left).
  exists []. by rewrite app_nil_r.
Qed.

Lemma writer_exit_off_capture loc r t s :
  frame_count r = frame_count (shared s) ->
  dropped_frames r = dropped_frames (shared s) ->
  same_config (shared s) r ->
  (bounded (shared s) -> bounded r) ->
  Forall quiet t ->
  off_capture s (writer_exit loc r (trace s ++ t) s).
Proof.
  intros Hfc Hd Hcfg Hb Ht. unfold writer_exit, final_flush.
  rewrite write_batch_run. unfold off_capture. cbn [shared capture_thread trace].
  split_and!; try done; try (by left).
  eexists. rewrite <- app_assoc. split; [reflexivity|].
  apply Forall_app. split; [done|].
  destruct (writer_open r); [apply quiet_sink_writes | constructor].
Qed.

Lemma writer_tick_off_capture s : off_capture s (writer_tick s).
Proof.
  unfold writer_tick.
  destruct (write_thread s) as [loc|]; [|apply off_capture_refl].
  assert (Ht0 : Forall quiet (if stop_event (shared s) then [QEmptyCall] else []))
    by (destruct (stop_event (shared s)); by repeat constructor).
  destruct (stop_event (shared s) && bool_decide (frame_queue (shared s) = [])).
  { apply writer_exit_off_capture; try done. }
  rewrite dedicated_write_iteration_run.
  destruct (frame_queue (shared s)) as [|[f|] q] eqn:Hq.
  - unfold off_capture, same_config. cbn [shared capture_thread trace].
    split_and!; try done; try (by left).
    eexists. split; [reflexivity|].
    apply Forall_app. split; [done|]. constructor; [done|].
    destruct (writer_open (shared s)); [apply quiet_sink_writes | constructor].
  - pose proof (adapt_status (buffer_size (shared s)) (Z.of_nat (length q))
                  (frames_behind loc, emergency_mode (shared s))) as Hst.
    destruct (adapt _ _ _) as [[fb em'] st]. cbv zeta. simpl in Hst.
    unfold off_capture, same_config. cbn [shared capture_thread trace].
    split_and!; try done; try (by left).
    + intros [Hmax Hb]. split; [done|].
      unfold qsize, maxsize, item in *. rewrite Hq in Hb. simpl in *. lia.
    + eexists. split; [reflexivity|].
      apply Forall_app. split; [done|].
      constructor; [done|]. constructor; [done|].
      apply Forall_app. split.
      * destruct Hst as [->|[->| ->]]; by repeat constructor.
      * destruct (_ && _); [apply quiet_sink_writes | constructor].
  - rewrite app_assoc.
    replace (trace s ++ (if stop_event (shared s) then [QEmptyCall] else [])
               ++ [QGetTimeout (1 # 2)])
      with (trace s ++ ((if stop_event (shared s) then [QEmptyCall] else [])
                          ++ [QGetTimeout (1 # 2)]))
      by (by rewrite app_assoc).
    rewrite <- app_assoc.
    apply writer_exit_off_capture; try done.
    + intros [Hmax Hb]. split; [done|].
      unfold qsize, maxsize, item in *. rewrite Hq in Hb. simpl in *. lia.
    + apply Forall_app. split; [done | by repeat constructor].
Qed.

Lemma writer_exit_raising_off_capture ft n loc r t s :
  frame_count r = frame_count (shared s) ->
  dropped_frames r = dropped_frames (shared s) ->
  same_config (shared s) r ->
  (bounded (shared s) -> bounded r) ->
  Forall quiet t ->
  off_capture s (writer_exit_raising ft n loc r (trace s ++ t) s).
Proof.
  intros Hfc Hd Hcfg Hb Ht. unfold writer_exit_raising.
  destruct (write_batch_raising_shape ft (batch_write_buffer loc) n r)
    as (n' & ok & pre & ->).
  destruct ok; unfold off_capture; cbn [shared capture_thread trace];
    (split_and!; try done; try (by left));
    eexists; rewrite <- app_assoc; (split; [reflexivity|]);
    repeat (apply Forall_app; split); try done;
    try apply quiet_sink_writes; by repeat constructor.
Qed.

Lemma writer_tick_raising_off_capture ft s :
  off_capture s (writer_tick_raising ft s).
Proof.
  unfold writer_tick_raising.
  destruct (write_thread s) as [loc|]; [|apply off_capture_refl].
  assert (Ht0 : Forall quiet (if stop_event (shared s) then [QEmptyCall] else []))
    by (destruct (stop_event (shared s)); by repeat constructor).
  destruct (stop_event (shared s) && bool_decide (frame_queue (shared s) = [])).
  { apply writer_exit_raising_off_capture; try done. }
  rewrite write_pass_raising_run.
  destruct (frame_queue (shared s)) as [|[f|] q] eqn:Hq.
  - destruct (write_batch_raising_shape ft (batch_write_buffer loc) 0 (shared s))
      as (n' & ok & pre & ->).
    destruct ok; unfold off_capture, same_config; cbn [shared capture_thread trace];
      (split_and!; try done; try (by left));
      eexists; (split; [reflexivity|]);
      repeat (apply Forall_app; split); try done;
      try (constructor; [done|apply quiet_sink_writes]);
      by repeat constructor.
  - assert (Hb : bounded (shared s) -> bounded (set_queue q (shared s))).
    { intros [Hmax Hb]. split; [done|].
      unfold qsize, maxsize, item in *. rewrite Hq in Hb. simpl in *. lia. }
    rewrite process_frame_raising_run.
    change (buffer_size (set_queue q (shared s))) with (buffer_size (shared s)).
    change (emergency_mode (set_queue q (shared s)))
      with (emergency_mode (shared s)).
    pose proof (adapt_status (buffer_size (shared s)) (qsize (set_queue q (shared s)))
                  (frames_behind loc, emergency_mode (shared s))) as Hst.
    destruct (adapt _ _ _) as [[fb em'] st]. cbv zeta. simpl in Hst.
    assert (Hqst : Forall quiet
                     (QGetTimeout (1 # 2) :: QSizeCall ::
                        match st with Some s0 => [EmitStatus s0] | None => [] end)).
    { constructor; [done|]. constructor; [done|].
      destruct Hst as [->|[->| ->]]; by repeat constructor. }
    destruct (negb em' && overlay_raises ft).
    { replace (trace s ++ (if stop_event (shared s) then [QEmptyCall] else [])
                 ++ QGetTimeout (1 # 2) ::
                    (QSizeCall :: match st with
                                  | Some s0 => [EmitStatus s0]
                                  | None => []
                                  end) ++ [EmitStatus StWriteError])
        with (trace s ++
                ((if stop_event (shared s) then [QEmptyCall] else [])
                   ++ (QGetTimeout (1 # 2) :: QSizeCall ::
                         match st with
                         | Some s0 => [EmitStatus s0]
                         | None => []
                         end) ++ [EmitStatus StWriteError]))
        by done.
      apply writer_exit_raising_off_capture; try done.
      repeat (apply Forall_app; split); try done. by repeat constructor. }
    destruct ((max_batch_size <=? Z.of_nat (length (batch_write_buffer loc ++ [f])))
              || em').
    2:{ unfold off_capture, same_config. cbn [shared capture_thread trace].
        split_and!; try done; try (by left).
        eexists. split; [reflexivity|].
        apply Forall_app. split; [done|]. done. }
    destruct (write_batch_raising_shape ft (batch_write_buffer loc ++ [f]) 0
                (set_emergency_mode em' (set_queue q (shared s))))
      as (n' & ok & pre & ->).
    destruct ok.
    + unfold off_capture, same_config. cbn [shared capture_thread trace].
      split_and!; try done; try (by left).
      eexists. split; [reflexivity|].
      apply Forall_app. split; [done|].
      change (QGetTimeout (1 # 2) :: (QSizeCall :: ?l) ++ ?m)
        with ((QGetTimeout (1 # 2) :: QSizeCall :: l) ++ m).
      apply Forall_app. split; [done | apply quiet_sink_writes].
    + replace (trace s ++ (if stop_event (shared s) then [QEmptyCall] else [])
                 ++ QGetTimeout (1 # 2) ::
                    (QSizeCall :: match st with
                                  | Some s0 => [EmitStatus s0]
                                  | None => []
                                  end) ++ map SinkWrite pre
                    ++ [EmitStatus StWriteError])
        with (trace s ++
                ((if stop_event (shared s) then [QEmptyCall] else [])
                   ++ (QGetTimeout (1 # 2) :: QSizeCall ::
                         match st with
                         | Some s0 => [EmitStatus s0]
                         | None => []
                         end) ++ map SinkWrite pre ++ [EmitStatus StWriteError]))
        by done.
      apply writer_exit_raising_off_capture; try done.
      repeat (apply Forall_app; split); try done;
        [apply quiet_sink_writes | by repeat constructor].
  - replace (trace s ++ (if stop_event (shared s) then [QEmptyCall] else [])
               ++ [QGetTimeout (1 # 2)])
      with (trace s ++ ((if stop_event (shared s) then [QEmptyCall] else [])
                          ++ [QGetTimeout (1 # 2)]))
      by done.
    apply writer_exit_raising_off_capture; try done.
    + intros [Hmax Hb]. split; [done|].
      unfold qsize, maxsize, item in *. rewrite Hq in Hb. simpl in *. lia.
    + apply Forall_app. split; [done | by repeat constructor].
Qed.

Lemma monitor_adjust_run r :
  monitor_adjust r =
    if (10 <? dropped_frames r) && negb (emergency_mode r)
    then (Return tt, set_emergency_mode true r, [EmitStatus StEmergency])
    else (Return tt, r, []).
Proof.
  unfold monitor_adjust, mbind, M_bind, get_field, modify, emit_status, emit,
    mret, M_ret.
  destruct ((10 <? dropped_frames r) && negb (emergency_mode r)); reflexivity.
Qed.

Lemma monitor_off_capture s : off_capture s (step s MonitorTick).
Proof.
  cbn [step]. rewrite monitor_adjust_run.
  destruct ((10 <? dropped_frames (shared s)) && negb (emergency_mode (shared s)));
    unfold off_capture, same_config; cbn [shared capture_thread trace];
    (split_and!; try done; try (by left); try (by intros [? ?]; split)).
  all: eexists; (split; [reflexivity|]); by repeat constructor.
Qed.

Lemma set_stop_off_capture s : off_capture s (step s SetStop).
Proof.
  cbn [step]. unfold off_capture, same_config. cbn [shared capture_thread trace].
  split_and!; try done; try (by left); try (by intros [? ?]; split).
  exists []. by rewrite app_nil_r.
Qed.

Lemma put_sentinel_off_capture s : off_capture s (step s PutSentinel).
Proof.
  cbn [step]. unfold try_except, q_put_nowait.
  pose proof (keeps_bounded_put None (shared s)) as Hb.
  unfold q_put_nowait in Hb.
  destruct (full (shared s)); simpl in *;
    unfold off_capture, same_config; cbn [shared capture_thread trace];
    split_and!; try done; try (by left); try (by intros [? ?]; split);
    eexists; (split; [reflexivity|]); by repeat constructor.
Qed.

(** *** Invariants of a whole session *)

Lemma run_invariant (Inv : session -> Prop) :
  (forall s e, Inv s -> Inv (step s e)) ->
  forall es s, Inv s -> Inv (run s es).
Proof.
  intros Hstep es. induction es as [|e es IH]; intros s Hs; [done|].
  apply IH. by apply Hstep.
Qed.

Lemma step_cases s e :
  off_capture s (step s e) \/
  exists now ok loc,
    e = CaptureTick now ok /\ capture_thread s = Running loc /\
    stop_event (shared s) = false /\
    step s e =
      match dedicated_capture_iteration now ok loc (shared s) with
      | (Return (Some loc'), r, t) =>
          {| shared := r; capture_thread := Running loc';
             write_thread := write_thread s; trace := trace s ++ t |}
      | (_, r, t) =>
          {| shared := r; capture_thread := Exited;
             write_thread := write_thread s; trace := trace s ++ t |}
      end.
Proof.
  destruct e as [now ok| | | | |ft].
  - cbn [step]. unfold capture_tick.
    destruct (capture_thread s) as [loc|] eqn:Hc; [|left; apply off_capture_refl].
    destruct (stop_event (shared s)) eqn:Hs.
    + left. unfold off_capture, same_config. cbn [shared capture_thread trace].
      split_and!; try done; [by right|].
      exists []. by rewrite app_nil_r.
    + right. by exists now, ok, loc.
  - left. apply writer_tick_off_capture.
  - left. apply monitor_off_capture.
  - left. apply set_stop_off_capture.
  - left. apply put_sentinel_off_capture.
  - left. apply writer_tick_raising_off_capture.
Qed.

(** X12. The frame queue never holds more than [2 * buffer_size] items,
    whatever the threads, the monitor and the finalizer do and in whatever
    order: the overflow handler puts back no more than it took out. *)
Theorem frame_queue_never_exceeds_bound
    (bs : Z) (iv : Q) (es : list event) (Hbs : 0 < bs) :
  Z.of_nat (length (frame_queue (shared (run (start bs iv) es)))) <= 2 * bs.
Proof.
  pose (Inv := fun s : session =>
                 bounded (shared s) /\ buffer_size (shared s) = bs).
  assert (Hinv : Inv (run (start bs iv) es)).
  { subst Inv. apply run_invariant.
    - intros s e [Hb Hsize].
      destruct (step_cases s e)
        as [(_ & _ & _ & (Hcfg & _) & Hb' & _)
           |(now & ok & loc & -> & Hc & Hs & ->)].
      + split; [by apply Hb' | congruence].
      + destruct (capture_iteration_effect now ok loc (shared s))
          as (c & e & H).
        destruct (dedicated_capture_iteration now ok loc (shared s))
          as [[res r'] t].
        destruct H as (_ & _ & _ & (Hcfg & _) & Hb' & _).
        destruct res as [[loc'|]|]; cbn [shared];
          (split; [by apply Hb' | cbn [shared]; congruence]).
    - split; [|reflexivity]. unfold bounded, maxsize, qsize. simpl. lia. }
  destruct Hinv as [[_ Hb] Hsize]. unfold qsize, maxsize in Hb. lia.
Qed.

(** The theorem on a busy session of the default configuration. *)
Lemma frame_queue_never_exceeds_bound_witness :
  Z.of_nat (length (frame_queue (shared (run (start 30 (1 # 30)) busy_session))))
    <= 2 * 30.
Proof.
  apply (frame_queue_never_exceeds_bound 30 (1 # 30) busy_session). lia.
Defined.

(** X13. Every screen grab is accounted for exactly once: at any point of
    any session the number of grabs equals [_frame_count] plus
    [_dropped_frames] plus the number of capture errors reported.  (So
    [_frame_count] alone is not the number of frames captured.) *)
Theorem every_grab_is_counted_once :
  forall (bs : Z) (iv : Q) (es : list event),
    let s := run (start bs iv) es in
    grabs (trace s)
      = frame_count (shared s) + dropped_frames (shared s)
        + capture_errors (trace s).
Proof.
  intros bs iv es. cbv zeta.
  apply (run_invariant
           (fun s => grabs (trace s)
                     = frame_count (shared s) + dropped_frames (shared s)
                       + capture_errors (trace s))); [|reflexivity].
  intros s e Hinv.
  destruct (step_cases s e)
    as [(_ & Hfc & Hd & _ & _ & t & Ht & Hq)
       |(now & ok & loc & -> & Hc & Hs & ->)].
  - destruct (count_quiet t Hq) as [Hg He].
    unfold grabs, capture_errors in *.
    rewrite Ht, !count_app, Hfc, Hd, Hg, He. lia.
  - destruct (capture_iteration_effect now ok loc (shared s)) as (c & e & H).
    destruct (dedicated_capture_iteration now ok loc (shared s))
      as [[res r'] t].
    destruct H as (Hg & He & Hsum & _).
    unfold grabs, capture_errors in *.
    destruct res as [[loc'|]|]; cbn [shared trace];
      rewrite !count_app; lia.
Qed.




End SessionFacts.

(** ** Overflow handling and key frames; monitor and writer *)

Module OverflowFacts.
Import Pipeline PipelineSpec SessionSpec OverflowSpec PipelineFacts
  ControllerFacts WriterFacts SessionFacts.

(** The key frames at the head of a queue, up to [n] of them, and what
    follows them. *)
Lemma key_prefix (n : nat) : forall frames : list frame_data,
  exists keys rest,
    frames = keys ++ rest /\ Forall is_key keys /\ (length keys <= n)%nat /\
    ((length keys = n \/ rest = []) \/
     exists f rest', rest = f :: rest' /\ is_key_frame f = false /\
                     (length keys < n)%nat).
Proof.
  induction n as [|n IH]; intros frames.
  - exists [], frames. split_and!; try done. by left; left.
  - destruct frames as [|f frames].
    + exists [], []. split_and!; try done; [simpl; lia | by left; right].
    + destruct (is_key_frame f) eqn:Hf.
      * destruct (IH frames) as (keys & rest & -> & Hk & Hlen & Hcase).
        exists (f :: keys), rest. split_and!; try done.
        -- by constructor.
        -- simpl. lia.
        -- destruct Hcase as [[Hl|Hr]|(g & rest' & -> & Hg & Hl)].
           ++ left; left. simpl. lia.
           ++ by left; right.
           ++ right. exists g, rest'. split_and!; try done. simpl. lia.
      * exists [], (f :: frames). split_and!; try done; [simpl; lia|].
        right. exists f, frames. split_and!; try done. simpl. lia.
Qed.

(** X15. On a full queue that holds frames only, the overflow handler
    never removes a key frame: either the queue keeps exactly its frames
    (and the new frame is the one that is lost), or exactly one frame that
    is not a key frame leaves and the new frame joins the others. *)
Theorem overflow_never_evicts_key_frame
    (new : frame_data) (frames : list frame_data) (r : recorder)
    (Hq : frame_queue r = map Some frames)
    (Hmax : 0 < maxsize r) (Hfull : qsize r = maxsize r) :
  exists kept,
    frame_queue (smart_drop new r).1.2 = map Some kept /\
    (kept ≡ₚ frames \/
     exists f rest,
       is_key_frame f = false /\ frames ≡ₚ f :: rest /\ kept ≡ₚ rest ++ [new]).
Proof.
  destruct (key_prefix 5 frames)
    as (keys & rest & -> & Hk & Hlen & [Hcase|(f & rest' & -> & Hf & Hl)]).
  - rewrite map_app in Hq.
    destruct (smart_drop_discards_new_frame new keys (map Some rest) r Hq Hk)
      as [t Ht]; try done.
    { destruct Hcase as [? | ->]; [by left | right; by split]. }
    rewrite Ht. cbn [fst snd frame_queue set_dropped_frames set_queue].
    exists (rest ++ keys). split; [by rewrite map_app|].
    left. apply Permutation_app_comm.
  - rewrite map_app in Hq. cbn [map] in Hq.
    destruct (smart_drop_evicts_first_non_key new keys f (map Some rest') r
                Hq Hk Hf Hl Hmax Hfull) as [t Ht].
    rewrite Ht. cbn [fst snd frame_queue set_dropped_frames set_queue].
    exists (rest' ++ keys ++ [new]). split.
    { rewrite !map_app. reflexivity. }
    right. exists f, (rest' ++ keys). split_and!; [done| |by rewrite app_assoc].
    rewrite <- Permutation_middle. apply perm_skip, Permutation_app_comm.
Qed.

(** The theorem on a full queue of four: frame 1 is dropped, key frame 0
    stays. *)
Lemma overflow_never_evicts_key_frame_witness :
  exists kept,
    frame_queue (smart_drop newcomer full_small_queue).1.2 = map Some kept /\
    (kept ≡ₚ omap id (frame_queue full_small_queue) \/
     exists f rest,
       is_key_frame f = false /\
       omap id (frame_queue full_small_queue) ≡ₚ f :: rest /\
       kept ≡ₚ rest ++ [newcomer]).
Proof.
  apply (overflow_never_evicts_key_frame newcomer
           (omap id (frame_queue full_small_queue)) full_small_queue);
    reflexivity.
Defined.

Lemma monitor_tick_run s :
  step s MonitorTick =
    {| shared := if (10 <? dropped_frames (shared s))
                    && negb (emergency_mode (shared s))
                 then set_emergency_mode true (shared s) else shared s;
       capture_thread := capture_thread s;
       write_thread := write_thread s;
       trace := trace s ++
                if (10 <? dropped_frames (shared s))
                   && negb (emergency_mode (shared s))
                then [EmitStatus StEmergency] else [] |}.
Proof.
  cbn [step]. rewrite monitor_adjust_run.
  by destruct ((10 <? dropped_frames (shared s))
               && negb (emergency_mode (shared s))).
Qed.

Lemma writer_tick_mode s loc f q :
  write_thread s = Running loc ->
  frame_queue (shared s) = Some f :: q ->
  emergency_mode (shared (writer_tick s))
    = (adapt (buffer_size (shared s)) (Z.of_nat (length q))
         (frames_behind loc, emergency_mode (shared s))).1.2.
Proof.
  intros Hw Hq. unfold writer_tick. rewrite Hw, Hq.
  rewrite bool_decide_false by done. rewrite andb_false_r.
  rewrite dedicated_write_iteration_run, Hq.
  by destruct (adapt _ _ _) as [[fb em'] st].
Qed.

(** X16. The degraded mode switched on by the monitor (more than 10
    dropped frames) does not latch: the write thread switches it off again
    with the next frame it takes, whenever its own counter is at most 1 and
    the queue is not above the high-water mark. *)
Theorem monitor_degradation_is_undone_by_writer
    (s : session) (loc : writer_locals) (f : frame_data) (q : list item)
    (Hw : write_thread s = Running loc)
    (Hfb : frames_behind loc <= 1)
    (Hq : frame_queue (shared s) = Some f :: q)
    (Hlow : above_high_water (buffer_size (shared s)) (Z.of_nat (length q)) = false)
    (Hdrops : 10 < dropped_frames (shared s)) :
  emergency_mode (shared (step s MonitorTick)) = true /\
  emergency_mode (shared (run s [MonitorTick; WriterTick])) = false.
Proof.
  assert (Hadapt : forall em,
            (adapt (buffer_size (shared s)) (Z.of_nat (length q))
               (frames_behind loc, em)).1.2 = false).
  { intros em. unfold adapt. rewrite Hlow.
    replace (Z.max 0 (frames_behind loc - 1)) with 0 by lia.
    by destruct em. }
  cbn [run fold_left]. cbn [step].
  change (writer_tick ?x) with (writer_tick x).
  pose proof (monitor_tick_run s) as Hmon. cbn [step] in Hmon.
  assert ((10 <? dropped_frames (shared s)) = true) as Hd by lia.
  rewrite Hd in Hmon. cbn [andb] in Hmon.
  rewrite Hmon. cbn [shared].
  destruct (emergency_mode (shared s)) eqn:Hem; cbn [negb].
  - split; [exact Hem|].
    erewrite writer_tick_mode; [|exact Hw|exact Hq]. apply Hadapt.
  - split; [reflexivity|].
    erewrite writer_tick_mode; [|exact Hw|exact Hq]. apply Hadapt.
Qed.

(** The theorem on a session with 11 counted drops and one queued frame. *)
Lemma monitor_degradation_is_undone_by_writer_witness :
  emergency_mode (shared (step after_many_drops MonitorTick)) = true /\
  emergency_mode (shared (run after_many_drops [MonitorTick; WriterTick])) = false.
Proof.
  apply (monitor_degradation_is_undone_by_writer after_many_drops
           {| frames_behind := 0; batch_write_buffer := [] |} newcomer []);
    try reflexivity; simpl; lia.
Defined.

End OverflowFacts.

(** ** Audio recorder *)

Module AudioPipelineFacts.
Import Audio AudioPipeline.

Lemma delivered_app es1 es2 : delivered (es1 ++ es2) = delivered es1 ++ delivered es2.
Proof. unfold delivered. apply omap_app. Qed.

Lemma audio_callback_queue q indata st :
  (audio_callback q indata st).2
    = if maxsize <=? Z.of_nat (length q) then q else q ++ [indata].
Proof.
  unfold audio_callback, put_nowait.
  by destruct (maxsize <=? Z.of_nat (length q)).
Qed.

Lemma audio_step_invariant s e D :
  Z.of_nat (length (audio_q s)) <= maxsize ->
  (sound_file s ++ audio_q s) `sublist_of` D ->
  Z.of_nat (length (audio_q (step s e))) <= maxsize /\
  (sound_file (step s e) ++ audio_q (step s e)) `sublist_of` (D ++ delivered [e]).
Proof.
  intros Hlen Hsub. destruct e as [b|ok|]; cbn [step delivered omap].
  - unfold on_callback. cbn [audio_q sound_file].
    rewrite audio_callback_queue.
    destruct (Z.leb_spec maxsize (Z.of_nat (length (audio_q s)))).
    + split; [done|]. by apply sublist_inserts_r.
    + split; [rewrite length_app; simpl; lia|].
      rewrite app_assoc. by apply sublist_app.
  - rewrite app_nil_r. unfold writer_turn.
    destruct (writer_exited s); [done|].
    destruct (stop_flag s && bool_decide (audio_q s = [])); [done|].
    destruct (audio_q s) as [|data rest] eqn:Hq; [by rewrite Hq|].
    cbn [audio_q sound_file]. split; [simpl in Hlen; lia|].
    destruct (sf_open s && ok).
    + by rewrite <- app_assoc.
    + etransitivity; [|exact Hsub].
      apply sublist_app; [done|]. by apply sublist_cons.
  - rewrite app_nil_r. done.
Qed.

Lemma audio_run_invariant es : forall s D,
  Z.of_nat (length (audio_q s)) <= maxsize ->
  (sound_file s ++ audio_q s) `sublist_of` D ->
  Z.of_nat (length (audio_q (run s es))) <= maxsize /\
  (sound_file (run s es) ++ audio_q (run s es)) `sublist_of` (D ++ delivered es).
Proof.
  induction es as [|e es IH]; intros s D Hlen Hsub.
  - by rewrite app_nil_r.
  - destruct (audio_step_invariant s e D Hlen Hsub) as [Hlen' Hsub'].
    destruct (IH (step s e) (D ++ delivered [e]) Hlen' Hsub') as [H1 H2].
    split; [exact H1|].
    change (e :: es) with ([e] ++ es).
    rewrite delivered_app, app_assoc. exact H2.
Qed.

(** X17. The audio path never reorders or duplicates: at any point of any
    interleaving of callbacks, writer turns and stop, the blocks written to
    the sound file followed by the blocks still queued form a subsequence
    of the blocks delivered, in delivery order; and the queue never holds
    more than 64 blocks. *)
Theorem audio_blocks_keep_their_order :
  forall es : list event,
    let s := run initial es in
    Z.of_nat (length (audio_q s)) <= 64 /\
    (sound_file s ++ audio_q s) `sublist_of` delivered es.
Proof.
  intros es. cbv zeta.
  apply (audio_run_invariant es initial []); [unfold maxsize; simpl; lia | done].
Qed.

Lemma audio_recording_invariant es : forall s D,
  Forall recording es ->
  Z.of_nat (length D) + Z.of_nat (length (delivered es)) <= maxsize ->
  stop_flag s = false -> writer_exited s = false -> sf_open s = true ->
  sound_file s ++ audio_q s = D ->
  stop_flag (run s es) = false /\ writer_exited (run s es) = false /\
  sf_open (run s es) = true /\
  sound_file (run s es) ++ audio_q (run s es) = D ++ delivered es.
Proof.
  induction es as [|e es IH]; intros s D Hrec Hroom Hstop Hex Hsf Hinv.
  - by rewrite app_nil_r.
  - apply Forall_cons in Hrec as [He Hrec].
    change (e :: es) with ([e] ++ es) in *.
    rewrite delivered_app, length_app in Hroom. rewrite delivered_app, app_assoc.
    cbn [run fold_left app].
    assert (Hstep : stop_flag (step s e) = false /\
                    writer_exited (step s e) = false /\
                    sf_open (step s e) = true /\
                    sound_file (step s e) ++ audio_q (step s e)
                      = D ++ delivered [e]).
    { destruct e as [b|ok|]; cbn [step recording] in *; [| |done].
      - change (delivered [Callback b]) with [b] in *.
        unfold on_callback. cbn [audio_q sound_file stop_flag writer_exited sf_open].
        split_and!; try done.
        rewrite audio_callback_queue.
        assert (Z.of_nat (length (audio_q s)) < maxsize).
        { apply (f_equal length) in Hinv. rewrite length_app in Hinv.
          cbn [length] in Hroom. lia. }
        destruct (Z.leb_spec maxsize (Z.of_nat (length (audio_q s)))); [lia|].
        by rewrite app_assoc, Hinv.
      - subst ok. change (delivered [WriterTurn true]) with (@nil pcm_block).
        rewrite app_nil_r.
        unfold writer_turn. rewrite Hex, Hstop, Hsf. cbn [andb].
        destruct (audio_q s) as [|data rest] eqn:Hq.
        + split_and!; try done. by rewrite Hq.
        + cbn [audio_q sound_file stop_flag writer_exited sf_open].
          split_and!; try done. by rewrite <- app_assoc. }
    destruct Hstep as (H1 & H2 & H3 & H4).
    apply (IH (step s e) (D ++ delivered [e])); try done.
    rewrite length_app. lia.
Qed.

Lemma audio_exited_stays n : forall s,
  writer_exited s = true -> run s (replicate n (WriterTurn true)) = s.
Proof.
  induction n as [|n IH]; intros s Hex; [done|].
  cbn [replicate run fold_left step].
  assert (writer_turn true s = s) as -> by (unfold writer_turn; by rewrite Hex).
  by apply IH.
Qed.

Lemma audio_drain q : forall s n,
  audio_q s = q -> stop_flag s = true -> writer_exited s = false ->
  sf_open s = true -> (length q < n)%nat ->
  sound_file (run s (replicate n (WriterTurn true))) = sound_file s ++ q /\
  writer_exited (run s (replicate n (WriterTurn true))) = true.
Proof.
  induction q as [|data q IH]; intros s n Hq Hstop Hex Hsf Hn;
    (destruct n as [|n]; [simpl in Hn; lia|]);
    change (run s (replicate (S n) (WriterTurn true)))
      with (run (writer_turn true s) (replicate n (WriterTurn true))).
  - assert (Hturn : writer_exited (writer_turn true s) = true /\
                    sound_file (writer_turn true s) = sound_file s).
    { unfold writer_turn. rewrite Hex, Hstop, Hq. done. }
    destruct Hturn as [Hex' Hfile].
    rewrite (audio_exited_stays n _ Hex'), app_nil_r. done.
  - assert (Hturn : audio_q (writer_turn true s) = q /\
                    stop_flag (writer_turn true s) = true /\
                    writer_exited (writer_turn true s) = false /\
                    sf_open (writer_turn true s) = true /\
                    sound_file (writer_turn true s) = sound_file s ++ [data]).
    { unfold writer_turn. rewrite Hex, Hstop, Hq, Hsf. done. }
    destruct Hturn as (H1 & H2 & H3 & H4 & H5).
    destruct (IH (writer_turn true s) n H1 H2 H3 H4) as [H6 H7];
      [simpl in Hn; lia|].
    rewrite H6, H7, H5, <- app_assoc. done.
Qed.

(** X18. Without overflow nothing is lost: when at most 64 blocks are
    delivered during the recording and every write succeeds, then after
    stop and enough writer turns the sound file holds exactly the delivered
    blocks, in order, and the writer loop has ended (it drains the queue
    before it exits). *)
Theorem audio_without_overflow_is_complete
    (es : list event) (n : nat)
    (Hrec : Forall recording es)
    (Hfew : Z.of_nat (length (delivered es)) <= 64)
    (Hn : (64 < n)%nat) :
  let s := run (run initial es) (SetStop :: replicate n (WriterTurn true)) in
  sound_file s = delivered es /\ writer_exited s = true.
Proof.
  cbv zeta.
  destruct (audio_recording_invariant es initial [] Hrec)
    as (Hstop & Hex & Hsf & Hinv); try done.
  cbn [run fold_left step]. cbn [app] in Hinv.
  destruct (audio_run_invariant es initial []) as [Hlen _];
    [unfold maxsize; simpl; lia | done |]. unfold maxsize in Hlen.
  destruct (audio_drain (audio_q (run initial es))
              {| audio_q := audio_q (run initial es); stop_flag := true;
                 sf_open := sf_open (run initial es);
                 sound_file := sound_file (run initial es);
                 writer_exited := writer_exited (run initial es) |} n)
    as [H1 H2]; try done; [lia|].
  unfold run in *. rewrite H1, H2. cbn [sound_file]. by rewrite Hinv.
Qed.

(** The theorem on two delivered blocks, one written during recording. *)
Lemma audio_without_overflow_is_complete_witness :
  sound_file (run (run initial [Callback [1; 2]; WriterTurn true; Callback [3; 4]])
                  (SetStop :: replicate 65 (WriterTurn true)))
    = [[1; 2]; [3; 4]].
Proof.
  apply (audio_without_overflow_is_complete
           [Callback [1; 2]; WriterTurn true; Callback [3; 4]] 65).
  - repeat constructor.
  - simpl. lia.
  - lia.
Defined.

End AudioPipelineFacts.

(** ** Merge: what happens to the files *)

Module MuxFacts2.
Import Py Mux MuxSpec MuxSpec2 Scenarios.

Lemma run_merge_trace e r video_size d :
  exists t, (run_merge e r video_size d).2 = RunMerge :: t /\
            (run_merge e r video_size d).1.2 = disk_after (run_ffmpeg e d).
Proof.
  unfold run_merge.
  destruct (run_ffmpeg e d) as [rc after|after|after]; simpl; eauto.
  destruct (negb (rc =? 0)); simpl; eauto.
  destruct (after !! output_path r); simpl; eauto.
  destruct (10 * z <? 8 * video_size); simpl; eauto.
Qed.

Lemma mux_not_launched e r d :
  merge_invoked (mux_audio_video e r d) = false ->
  (mux_audio_video e r d).1.2 = d /\
  returned (mux_audio_video e r d).1.1 = false /\
  forallb (fun a => negb (touches_disk a)) (mux_audio_video e r d).2 = true.
Proof.
  unfold merge_invoked, mux_audio_video.
  destruct (wav_path r) as [audio_path|]; [|done].
  destruct (truthy (video_tmp_path r)) as [video_path|]; [|done].
  destruct (d !! audio_path) as [audio_size|]; [|done].
  destruct (d !! video_path) as [video_size|]; [|done].
  destruct (audio_size <? 1024); [done|].
  destruct (video_size <? 1024); [done|].
  destruct (negb (ffmpeg_found e)); [done|].
  destruct (negb (ffmpeg_test_ok e)); [done|].
  destruct (run_merge_trace e r video_size d) as (t & Ht & _).
  destruct (run_merge e r video_size d) as [[res d1] t1]. simpl in Ht. subst t1.
  destruct (cleanup e video_path audio_path d1) as [d2 t2].
  simpl. done.
Qed.

(** X19. The temporary files are only at risk once the merge command has
    been launched: whenever [_mux_audio_video] ends without launching it
    (a missing or short input, the tool not found or failing its self
    test), it has raised, the disk is exactly as before, and nothing was
    removed or copied. *)
Theorem unlaunched_merge_leaves_disk_alone
    (e : env) (r : recorder) (d : disk)
    (Hnot : merge_invoked (mux_audio_video e r d) = false) :
  (mux_audio_video e r d).1.2 = d /\
  returned (mux_audio_video e r d).1.1 = false /\
  forallb (fun a => negb (touches_disk a)) (mux_audio_video e r d).2 = true.
Proof. by apply mux_not_launched. Qed.

(** The theorem on a machine without the merge tool. *)
Lemma unlaunched_merge_leaves_disk_alone_witness :
  (mux_audio_video tool_absent raw_recording (raw_disk 50000 20000)).1.2
    = raw_disk 50000 20000.
Proof.
  apply (unlaunched_merge_leaves_disk_alone tool_absent raw_recording
           (raw_disk 50000 20000)).
  reflexivity.
Defined.

(** X20. When the merge cannot be launched, finalization loses nothing:
    in merge mode without segments, if the audio file exists and the copy
    succeeds, the disk after [_finalize_recording] is the disk before plus
    the audio copy at "<output>_audio.wav"; both raw files are still
    there. *)
Theorem unlaunched_merge_keeps_raw_files
    (e : env) (r : recorder) (d : disk) (audio_path : string) (size : Z)
    (Hsep : save_audio_separately r = false)
    (Hseg : segments_to_merge r = false)
    (Hwav : wav_path r = Some audio_path)
    (Hne : audio_path <> EmptyString)
    (Haudio : d !! audio_path = Some size)
    (Hcopy : copy_ok e = true)
    (Hnot : merge_invoked (mux_audio_video e r d) = false) :
  (finalize_recording e r d).1 = <[final_audio_path r := size]> d /\
  forallb (fun a => negb (launches_or_removes a))
    (finalize_recording e r d).2 = true.
Proof.
  destruct (mux_not_launched e r d Hnot) as (Hd & Hret & Htr).
  unfold finalize_recording, merge_or_fall_back. rewrite Hsep, Hseg, Hwav.
  cbn [default].
  destruct (mux_audio_video e r d) as [[res d1] t] eqn:Hmux.
  cbn [fst snd] in Hd, Hret, Htr. subst d1.
  destruct res as [v|ex]; [done|].
  unfold merge_fallback, id. rewrite bool_decide_false by done.
  rewrite Haudio, Hcopy. cbn [fst snd]. split; [done|].
  rewrite forallb_app. apply andb_true_iff. split; [|done].
  clear -Htr. induction t as [|a t IH]; [done|].
  cbn [forallb] in *. apply andb_true_iff in Htr as [Ha Ht].
  apply andb_true_iff. split; [|by apply IH].
  by destruct a.
Qed.

(** The theorem on a machine without the merge tool: both raw files
    survive and the audio copy appears. *)
Lemma unlaunched_merge_keeps_raw_files_witness :
  (finalize_recording tool_absent raw_recording (raw_disk 50000 20000)).1
    = <["out_audio.wav"%string := 20000]> (raw_disk 50000 20000).
Proof.
  apply (unlaunched_merge_keeps_raw_files tool_absent raw_recording
           (raw_disk 50000 20000) "audio.wav"%string 20000);
    try reflexivity. discriminate.
Defined.

(** X21. With "save audio separately" and no segments to merge, the
    recorder never starts the merge tool and never deletes a file: the
    disk afterwards is the disk before, or, when the audio file exists and
    the copy succeeds, the disk before plus the audio copy. *)
Theorem separate_audio_never_merges
    (e : env) (r : recorder) (d : disk)
    (Hsep : save_audio_separately r = true)
    (Hseg : segments_to_merge r = false) :
  forallb (fun a => negb (merges_or_removes a)) (finalize_recording e r d).2 = true /\
  ((finalize_recording e r d).1 = d \/
   exists audio_path size,
     wav_path r = Some audio_path /\ d !! audio_path = Some size /\
     copy_ok e = true /\
     (finalize_recording e r d).1 = <[final_audio_path r := size]> d).
Proof.
  unfold finalize_recording, keep_audio_separate. rewrite Hsep, Hseg.
  destruct (wav_path r) as [audio_path|]; cbn [default]; unfold id.
  - case_bool_decide; [by split; [|left]|].
    destruct (d !! audio_path) as [size|] eqn:Hsize; [|by split; [|left]].
    destruct (copy_ok e) eqn:Hcopy; cbn [fst snd]; (split; [done|]).
    + right. by exists audio_path, size.
    + by left.
  - rewrite bool_decide_true by done. by split; [|left].
Qed.

(** The theorem on a recording whose audio is kept separate. *)
Lemma separate_audio_never_merges_witness :
  forallb (fun a => negb (merges_or_removes a))
    (finalize_recording (tool_present merge_succeeds) separate_audio_recording
       (raw_disk 50000 20000)).2 = true.
Proof.
  apply (separate_audio_never_merges (tool_present merge_succeeds)
           separate_audio_recording (raw_disk 50000 20000));
    reflexivity.
Defined.

Lemma cleanup_one_disk e p d :
  p <> EmptyString -> remove_ok e p = true -> (cleanup_one e p d).1 = delete p d.
Proof.
  intros Hp Hrm. unfold cleanup_one. rewrite bool_decide_false by done.
  destruct (d !! p) eqn:E.
  - by rewrite Hrm.
  - symmetry. by apply delete_id.
Qed.

(** X22. Once the merge command has been launched, both temporary inputs
    are removed whatever the outcome: the disk afterwards is the disk the
    tool left, minus the temporary video and the temporary audio; and the
    call returns normally exactly when the tool exited with code 0 and the
    output file exists. *)
Theorem launched_merge_removes_both_inputs
    (e : env) (r : recorder) (d : disk) (audio_path video_path : string)
    (Ha : wav_path r = Some audio_path)
    (Hv : truthy (video_tmp_path r) = Some video_path)
    (Hne : audio_path <> EmptyString)
    (Hrv : remove_ok e video_path = true)
    (Hra : remove_ok e audio_path = true)
    (Hrun : merge_invoked (mux_audio_video e r d) = true) :
  let after := disk_after (run_ffmpeg e d) in
  (mux_audio_video e r d).1.2 = delete audio_path (delete video_path after) /\
  returned (mux_audio_video e r d).1.1
    = negb (tool_run_fails (run_ffmpeg e d))
      && bool_decide (is_Some (after !! output_path r)).
Proof.
  cbv zeta.
  assert (Hvne : video_path <> EmptyString).
  { unfold truthy in Hv. destruct (video_tmp_path r) as [p|]; [|done].
    case_bool_decide; [done|]. by injection Hv as <-. }
  revert Hrun. unfold merge_invoked, mux_audio_video. rewrite Ha, Hv.
  destruct (d !! audio_path) as [audio_size|]; [|done].
  destruct (d !! video_path) as [video_size|]; [|done].
  destruct (audio_size <? 1024); [done|].
  destruct (video_size <? 1024); [done|].
  destruct (negb (ffmpeg_found e)); [done|].
  destruct (negb (ffmpeg_test_ok e)); [done|].
  intros _.
  assert (Hres : (run_merge e r video_size d).1.2 = disk_after (run_ffmpeg e d) /\
                 returned (run_merge e r video_size d).1.1
                 = negb (tool_run_fails (run_ffmpeg e d))
                   && bool_decide (is_Some (disk_after (run_ffmpeg e d) !! output_path r))).
  { unfold run_merge, tool_run_fails.
    destruct (run_ffmpeg e d) as [rc after|after|after]; cbn [disk_after]; [|done|done].
    destruct (negb (rc =? 0)); [done|]. cbn [negb andb].
    destruct (after !! output_path r) as [sz|] eqn:Hout.
    - rewrite bool_decide_true by eauto.
      by destruct (10 * sz <? 8 * video_size).
    - rewrite bool_decide_false; [done|]. by intros [? ?]. }
  destruct (run_merge e r video_size d) as [[res d1] t1].
  cbn [fst snd] in Hres. destruct Hres as [-> Hret].
  unfold cleanup.
  pose proof (cleanup_one_disk e video_path (disk_after (run_ffmpeg e d)) Hvne Hrv) as H1.
  destruct (cleanup_one e video_path (disk_after (run_ffmpeg e d))) as [d2 t2].
  cbn [fst] in H1. subst d2.
  pose proof (cleanup_one_disk e audio_path
                (delete video_path (disk_after (run_ffmpeg e d))) Hne Hra) as H2.
  destruct (cleanup_one e audio_path _) as [d3 t3].
  cbn [fst] in H2. subst d3. cbn [fst snd]. done.
Qed.

(** The theorem on a merge that succeeds: only the merged output is
    left. *)
Lemma launched_merge_removes_both_inputs_witness :
  (mux_audio_video (tool_present merge_succeeds) raw_recording
     (raw_disk 50000 20000)).1.2
    = delete "audio.wav"%string
        (delete "out_tmp_video.mp4"%string
           (<["out.mp4"%string := 40000]> (raw_disk 50000 20000))) /\
  returned (mux_audio_video (tool_present merge_succeeds) raw_recording
              (raw_disk 50000 20000)).1.1 = true.
Proof.
  destruct (launched_merge_removes_both_inputs (tool_present merge_succeeds)
              raw_recording (raw_disk 50000 20000)
              "audio.wav"%string "out_tmp_video.mp4"%string)
    as [H1 H2]; try reflexivity; [discriminate|].
  split; [exact H1|]. rewrite H2. reflexivity.
Defined.

End MuxFacts2.

(** ** Segment merging *)

Module SegmentsFacts.
Import Py Segments.

Lemma remove_if_exists_other e p q d :
  q <> p -> (remove_if_exists e p d).1 !! q = d !! q.
Proof.
  intros Hq. unfold remove_if_exists.
  destruct (d !! p); [|done]. destruct (remove_ok e p); [|done].
  cbn [fst]. by rewrite lookup_delete_ne.
Qed.

Lemma remove_if_exists_absent e p q d :
  d !! q = None -> (remove_if_exists e p d).1 !! q = None.
Proof.
  intros Hq. unfold remove_if_exists.
  destruct (d !! p); [|done]. destruct (remove_ok e p); [|done].
  cbn [fst]. rewrite lookup_delete. by case_decide.
Qed.

Lemma remove_if_exists_gone e p d :
  remove_ok e p = true -> (remove_if_exists e p d).1 !! p = None.
Proof.
  intros Hrm. unfold remove_if_exists.
  destruct (d !! p) eqn:E; [|done]. rewrite Hrm.
  cbn [fst]. apply lookup_delete_eq.
Qed.

Lemma remove_segments_other e paths : forall d q,
  q ∉ paths -> (remove_segments e paths d).1 !! q = d !! q.
Proof.
  induction paths as [|p rest IH]; intros d q Hq; [done|].
  apply not_elem_of_cons in Hq as [Hqp Hq].
  cbn [remove_segments].
  pose proof (remove_if_exists_other e p q d Hqp) as H1.
  destruct (remove_if_exists e p d) as [d1 t1]. cbn [fst] in H1.
  pose proof (IH d1 q Hq) as H2.
  destruct (remove_segments e rest d1) as [d2 t2]. cbn [fst] in *.
  by rewrite H2.
Qed.

Lemma remove_segments_absent e paths : forall d q,
  d !! q = None -> (remove_segments e paths d).1 !! q = None.
Proof.
  induction paths as [|p rest IH]; intros d q Hq; [done|].
  cbn [remove_segments].
  pose proof (remove_if_exists_absent e p q d Hq) as H1.
  destruct (remove_if_exists e p d) as [d1 t1]. cbn [fst] in H1.
  pose proof (IH d1 q H1) as H2.
  by destruct (remove_segments e rest d1) as [d2 t2].
Qed.

Lemma remove_segments_gone e paths : forall d q,
  q ∈ paths -> remove_ok e q = true ->
  (remove_segments e paths d).1 !! q = None.
Proof.
  induction paths as [|p rest IH]; intros d q Hq Hrm.
  - by apply elem_of_nil in Hq.
  - cbn [remove_segments].
    destruct (decide (q = p)) as [->|Hne].
    + pose proof (remove_if_exists_gone e p d Hrm) as H1.
      destruct (remove_if_exists e p d) as [d1 t1]. cbn [fst] in H1.
      pose proof (remove_segments_absent e rest d1 p H1) as H2.
      by destruct (remove_segments e rest d1) as [d2 t2].
    + apply elem_of_cons in Hq as [?|Hq]; [done|].
      destruct (remove_if_exists e p d) as [d1 t1].
      pose proof (IH d1 q Hq Hrm) as H2.
      by destruct (remove_segments e rest d1) as [d2 t2].
Qed.

(** X23. Segment files are deleted only after the concat command exited
    with code 0: whenever [_merge_segments] raises, it removed nothing,
    and the disk is either untouched apart from the concat list file, or
    exactly what the command left (which still holds the list file if the
    command kept it). *)
Theorem failed_segment_merge_removes_nothing
    (e : env) (segment_paths : list string) (d : disk)
    (Hraised : returned (merge_segments e segment_paths d).1.1 = false) :
  existsb is_remove (merge_segments e segment_paths d).2 = false /\
  ((forall q, q <> concat_file e ->
               (merge_segments e segment_paths d).1.2 !! q = d !! q) \/
   exists size after,
     list_written e = Return size /\
     match run_concat e (<[concat_file e := size]> d) with
     | Completed returncode a => returncode <> 0 /\ a = after
     | RunRaised a => a = after
     end /\
     (merge_segments e segment_paths d).1.2 = after).
Proof.
  revert Hraised. unfold merge_segments.
  destruct segment_paths as [|p rest]; [done|].
  destruct (negb (ffmpeg_found e)); [by split; [|left]|].
  destruct (list_written e) as [size|[size|]].
  2:{ intros _. split; [done|]. left. intros q Hq. cbn [fst snd].
      by rewrite lookup_insert_ne. }
  2:{ by split; [|left]. }
  destruct (run_concat e (<[concat_file e := size]> d)) as [rc after|after] eqn:Hrun.
  - destruct (rc =? 0) eqn:Hrc; cbn [negb].
    + destruct (remove_segments e (p :: rest) after) as [d2 t2].
      by destruct (remove_if_exists e (concat_file e) d2) as [d3 t3].
    + intros _. split; [done|]. right. exists size, after.
      rewrite Hrun. split_and!; try done. by apply Z.eqb_neq.
  - intros _. split; [done|]. right. exists size, after.
    by rewrite Hrun.
Qed.

(** The theorem on a concat command that exits with code 1: both segments
    are still on disk. *)
Lemma failed_segment_merge_removes_nothing_witness :
  existsb is_remove
    (merge_segments (machine concat_exits_1) two_segments segments_disk).2 = false.
Proof.
  apply (failed_segment_merge_removes_nothing (machine concat_exits_1)
           two_segments segments_disk).
  reflexivity.
Defined.

(** X24. After a successful merge of at least one segment, every segment
    file and the concat list file are gone (when the removals succeed),
    and every other file is as the concat command left it. *)
Theorem merged_segments_are_removed
    (e : env) (segment_paths : list string) (d after : disk) (size : Z)
    (Hne : segment_paths <> [])
    (Hfound : ffmpeg_found e = true)
    (Hlist : list_written e = Return size)
    (Hrun : run_concat e (<[concat_file e := size]> d) = Completed 0 after)
    (Hrm : forall p, remove_ok e p = true) :
  let o := merge_segments e segment_paths d in
  o.1.1 = Return tt /\
  (forall p, p ∈ segment_paths -> o.1.2 !! p = None) /\
  o.1.2 !! concat_file e = None /\
  (forall q, q ∉ segment_paths -> q <> concat_file e ->
             o.1.2 !! q = after !! q).
Proof.
  cbv zeta. unfold merge_segments.
  destruct segment_paths as [|p0 rest]; [done|].
  rewrite Hfound, Hlist, Hrun. cbn [negb Z.eqb].
  pose proof (fun q => remove_segments_gone e (p0 :: rest) after q) as Hgone.
  pose proof (fun q => remove_segments_other e (p0 :: rest) after q) as Hother.
  destruct (remove_segments e (p0 :: rest) after) as [d2 t2]. cbn [fst] in *.
  pose proof (remove_if_exists_gone e (concat_file e) d2 (Hrm _)) as Hc.
  pose proof (fun q => remove_if_exists_absent e (concat_file e) q d2) as Habs.
  pose proof (fun q => remove_if_exists_other e (concat_file e) q d2) as Hoth2.
  destruct (remove_if_exists e (concat_file e) d2) as [d3 t3]. cbn [fst snd] in *.
  split_and!; try done.
  - intros p Hp. apply Habs, Hgone; [done|apply Hrm].
  - intros q Hq Hqc. rewrite Hoth2 by done. by apply Hother.
Qed.

(** The theorem on two segments: only the merged output is left. *)
Lemma merged_segments_are_removed_witness :
  (merge_segments (machine concat_succeeds) two_segments segments_disk).1.1
    = Return tt /\
  (merge_segments (machine concat_succeeds) two_segments segments_disk).1.2
    !! "out_segment_002.mp4"%string = None.
Proof.
  destruct (merged_segments_are_removed (machine concat_succeeds)
              two_segments segments_disk
              (<["out.mp4"%string := 90000]>
                 (<["/tmp/tmpab12.txt"%string := 60]> segments_disk)) 60)
    as (H1 & H2 & _); try reflexivity; [discriminate|].
  split; [exact H1|]. apply H2. unfold two_segments. set_solver.
Defined.

End SegmentsFacts.

(** ** Audio device list *)

Module AudioDevicesFacts.
Import AudioDevices.

Lemma elem_of_enumerate_from {A} (l : list A) : forall k idx (x : A),
  (idx, x) ∈ enumerate_from k l <->
  exists i : nat, idx = k + Z.of_nat i /\ l !! i = Some x.
Proof.
  induction l as [|y l IH]; intros k idx x; cbn [enumerate_from].
  - split; [by intros ?%elem_of_nil|]. by intros (i & _ & ?).
  - rewrite elem_of_cons, IH. split.
    + intros [[= -> ->]|(i & -> & Hi)].
      * exists 0%nat. split; [lia|done].
      * exists (S i). split; [lia|done].
    + intros ([|i] & -> & Hi).
      * left. simpl in Hi. injection Hi as ->. f_equal. lia.
      * right. exists i. split; [lia|done].
Qed.

Lemma entry_id loopback idx info lbl id :
  entry loopback idx info = Some (lbl, id) -> id = Some idx.
Proof.
  unfold entry. destruct info as [i|str]; [|by intros [= _ <-]].
  destruct (max_channels loopback i) as [n|]; [|done].
  destruct (0 <? n); [|done]. by intros [= _ <-].
Qed.

Lemma enumerate_ids_increase loopback (l : list device_info) : forall k,
  Forall (fun p => exists idx, p.2 = Some idx /\ k <= idx)
    (omap (fun p => entry loopback p.1 p.2) (enumerate_from k l)) /\
  StronglySorted (fun p q => match p.2, q.2 with
                             | Some a, Some b => a < b
                             | _, _ => False
                             end)
    (omap (fun p => entry loopback p.1 p.2) (enumerate_from k l)).
Proof.
  induction l as [|y l IH]; intros k; cbn [enumerate_from omap list_omap].
  - split; constructor.
  - destruct (IH (k + 1)) as [Hall Hsorted].
    assert (Hall' : Forall (fun p : label * option Z =>
                              exists idx, p.2 = Some idx /\ k <= idx)
                      (omap (fun p => entry loopback p.1 p.2)
                         (enumerate_from (k + 1) l))).
    { eapply Forall_impl; [exact Hall|].
      intros p (idx & ? & ?). exists idx. split; [done|lia]. }
    cbn [fst snd].
    destruct (entry loopback k y) as [[lbl id]|] eqn:He; [|done].
    apply entry_id in He as ->. split.
    + constructor; [|done]. exists k. split; [done|lia].
    + constructor; [done|].
      eapply Forall_impl; [exact Hall|].
      intros p (idx & Hp & ?). cbn [snd]. rewrite Hp. lia.
Qed.

Lemma entry_offered loopback idx info lbl :
  entry loopback idx info = Some (lbl, Some idx) <->
  offered loopback info /\ lbl = label_of idx info.
Proof.
  unfold entry, offered, label_of, supports, max_channels.
  destruct info as [i|str].
  - destruct (if loopback then max_output_channels i else max_input_channels i)
      as [[n|]|]; cbn [default]; unfold id.
    + destruct (0 <? n) eqn:Hn.
      * apply Z.ltb_lt in Hn. split.
        -- intros [= <-]. split; [by exists n|]. by destruct (name i).
        -- intros [_ ->]. by destruct (name i).
      * apply Z.ltb_ge in Hn.
        split; [done|]. intros [(n' & [= <-] & ?) _]. lia.
    + split; [done|]. by intros [(n' & [=] & _) _].
    + cbn. split; [done|]. by intros [(n' & [=] & _) _].
  - split; [by intros [= <-] | by intros [_ ->]].
Qed.

(** X25. [get_audio_devices] always offers ("Default", None) first, and
    nothing else without an id. When the device query works, a label and
    id are listed exactly when the id is the position of a device that is
    not a dictionary, or of a dictionary whose channel count in the
    requested direction (output for loopback, input otherwise) is a
    positive number, and the label is that position with the device's
    name (or "Device <idx>", or its [str]); a device with no channels in
    that direction, a missing count or a count that is not a number is
    never listed. The ids are listed in strictly increasing order. *)
Theorem get_audio_devices_lists_selectable_devices
    (sd_available : bool) (query_devices : option (list device_info))
    (loopback : bool) :
  let devices := get_audio_devices sd_available query_devices loopback in
  head devices = Some (Default, None) /\
  (forall lbl, (lbl, None) ∈ tail devices -> False) /\
  (forall lbl idx,
      (lbl, Some idx) ∈ devices <->
      sd_available = true /\
      exists infos (i : nat) info,
        query_devices = Some infos /\ idx = Z.of_nat i /\
        infos !! i = Some info /\
        offered loopback info /\ lbl = label_of idx info) /\
  StronglySorted (fun p q => match p.2, q.2 with
                             | Some a, Some b => a < b
                             | _, _ => False
                             end) (tail devices).
Proof.
  cbv zeta. unfold get_audio_devices. cbn [head tail].
  split; [done|].
  destruct sd_available; cbn [negb].
  2:{ split_and!.
      - by intros lbl ?%elem_of_nil.
      - intros lbl idx. split.
        + intros [[=]|?%elem_of_nil]%elem_of_cons; done.
        + by intros [? _].
      - constructor. }
  destruct query_devices as [infos|].
  2:{ split_and!.
      - by intros lbl ?%elem_of_nil.
      - intros lbl idx. split.
        + intros [[=]|?%elem_of_nil]%elem_of_cons; done.
        + by intros (_ & ? & ? & ? & ? & _).
      - constructor. }
  split_and!.
  - intros lbl (p & Hp & He)%list_elem_of_omap.
    by apply entry_id in He.
  - intros lbl idx. rewrite elem_of_cons, list_elem_of_omap. split.
    + intros [[=]|([k info] & Hin & He)]. cbn [fst snd] in He.
      pose proof (entry_id _ _ _ _ _ He) as [= ->].
      apply elem_of_enumerate_from in Hin as (i & -> & Hi).
      apply entry_offered in He as [Hoff Hlbl].
      split; [done|]. exists infos, i, info. split_and!; try done.
    + intros (_ & infos' & i & info & [= <-] & -> & Hi & Hoff & Hlbl).
      right. exists (Z.of_nat i, info).
      split; [|by apply entry_offered].
      apply elem_of_enumerate_from. exists i. split; [lia|done].
  - apply (enumerate_ids_increase loopback infos 0).
Qed.

End AudioDevicesFacts.
